(** * Highlight selection engine: a shallow embedding and its properties

    The development embeds the scoring, similarity, grouping and selection
    code of the photo highlight selector
    ([src/lib/highlighter/highlighter.ts], [photo-quality.ts],
    [photo-meta-similarity.ts], [vision-api.ts], [colors.ts]) and states
    the properties of its specification over that embedding.

    Conventions of the embedding.
    - A JavaScript number is a value of [JS.num]: an exact rational, one of
      the two infinities, or NaN.  Arithmetic on finite values is exact and
      the sign of zero is not tracked: the scores that the engine computes
      follow the rationals up to the rounding of the last digit as long as
      no operation leaves the range of a double, and the properties of
      scores are stated for inputs that keep every operation in that
      range.  Where the rounding decides how often a loop runs, in
      [createTimeBuckets], every operation is rounded to the nearest
      double ([JS.to_double]).
    - A [Date] is its time value: an integer number of milliseconds, or
      NaN for an invalid date.
    - Arrays are lists.  The selection is embedded a second time over a
      memory in which the arrays of photos are held by reference and
      changed in place ([selectHighlights_mem]), and the two embeddings
      are shown to agree.
    - A [Map] whose iteration order is observed is an association list in
      insertion order; a [Map] or [Set] that is only queried is a [gmap] or
      a [gset].
    - Fields of the annotation records that no embedded function reads
      (safe-search flags, face landmarks, the time-of-day cluster) are left
      out. *)

From Stdlib Require Import ZArith QArith Qabs Qround Qpower Lqa Lia List String Ascii
  Bool Permutation.
From stdpp Require Import gmap strings list pretty.

Import ListNotations.
Local Open Scope Q_scope.

(** ** JavaScript numbers *)

Module JS.

Inductive num : Type :=
| Fin (q : Q)
| PInf
| NInf
| NaN.

Definition of_Z (z : Z) : num := Fin (inject_Z z).
Definition of_nat (n : nat) : num := of_Z (Z.of_nat n).

(** The infinity (or NaN) that a product or quotient with an infinite or
    zero operand takes, from the sign of the finite operand. *)
Definition inf_of (c : comparison) : num :=
  match c with Gt => PInf | Lt => NInf | Eq => NaN end.

Definition neg (x : num) : num :=
  match x with
  | Fin a => Fin (- a)
  | PInf => NInf
  | NInf => PInf
  | NaN => NaN
  end.

Definition add (x y : num) : num :=
  match x, y with
  | NaN, _ | _, NaN => NaN
  | Fin a, Fin b => Fin (a + b)
  | PInf, NInf | NInf, PInf => NaN
  | PInf, _ | _, PInf => PInf
  | NInf, _ | _, NInf => NInf
  end.

Definition sub (x y : num) : num := add x (neg y).

Definition mul (x y : num) : num :=
  match x, y with
  | NaN, _ | _, NaN => NaN
  | Fin a, Fin b => Fin (a * b)
  | Fin a, PInf | PInf, Fin a => inf_of (a ?= 0)
  | Fin a, NInf | NInf, Fin a => inf_of (CompOpp (a ?= 0))
  | PInf, PInf | NInf, NInf => PInf
  | PInf, NInf | NInf, PInf => NInf
  end.

(** [x / 0] is an infinity of the sign of [x], and [0 / 0] is NaN. *)
Definition div (x y : num) : num :=
  match x, y with
  | NaN, _ | _, NaN => NaN
  | Fin a, Fin b => if Qeq_bool b 0 then inf_of (a ?= 0) else Fin (a / b)
  | Fin _, (PInf | NInf) => Fin 0
  | PInf, Fin b => if Qle_bool 0 b then PInf else NInf
  | NInf, Fin b => if Qle_bool 0 b then NInf else PInf
  | _, _ => NaN
  end.

(** Comparisons; each is false when an operand is NaN. *)
Definition lt (x y : num) : bool :=
  match x, y with
  | NaN, _ | _, NaN => false
  | Fin a, Fin b => negb (Qle_bool b a)
  | NInf, (Fin _ | PInf) => true
  | Fin _, PInf => true
  | _, _ => false
  end.

Definition le (x y : num) : bool :=
  match x, y with
  | NaN, _ | _, NaN => false
  | Fin a, Fin b => Qle_bool a b
  | NInf, _ => true
  | _, PInf => true
  | _, _ => false
  end.

Definition gt (x y : num) : bool := lt y x.
Definition ge (x y : num) : bool := le y x.

(** [x === y] *)
Definition eqb (x y : num) : bool :=
  match x, y with
  | Fin a, Fin b => Qeq_bool a b
  | PInf, PInf | NInf, NInf => true
  | _, _ => false
  end.

(** Truthiness of a number: [0] and NaN are falsy. *)
Definition truthy (x : num) : bool :=
  match x with
  | Fin a => negb (Qeq_bool a 0)
  | NaN => false
  | _ => true
  end.

(** [x || d] *)
Definition or_else (x d : num) : num := if truthy x then x else d.

(** [o || d] for a field that may be absent. *)
Definition opt_or (o : option num) (d : num) : num :=
  match o with Some x => or_else x d | None => d end.

Definition Math_min (x y : num) : num :=
  match x, y with
  | NaN, _ | _, NaN => NaN
  | _, _ => if lt y x then y else x
  end.

Definition Math_max (x y : num) : num :=
  match x, y with
  | NaN, _ | _, NaN => NaN
  | _, _ => if lt x y then y else x
  end.

(** [Math.min(...xs)] and [Math.max(...xs)] *)
Definition Math_min_list (xs : list num) : num := fold_left Math_min xs PInf.
Definition Math_max_list (xs : list num) : num := fold_left Math_max xs NInf.

Definition Math_abs (x : num) : num :=
  match x with
  | Fin a => Fin (Qabs a)
  | PInf | NInf => PInf
  | NaN => NaN
  end.

Definition Math_ceil (x : num) : num :=
  match x with Fin a => of_Z (Qceiling a) | _ => x end.

Definition Math_floor (x : num) : num :=
  match x with Fin a => of_Z (Qfloor a) | _ => x end.

(** [Math.round] rounds half up. *)
Definition Math_round (x : num) : num :=
  match x with Fin a => of_Z (Qfloor (a + 0.5)) | _ => x end.

(** Square root of a rational to a fixed precision: exact on the squares
    of rationals, and otherwise the largest multiple of
    [1 / (Qden q * 2^53)] below the root. *)
Definition sqrt_scale : positive := 2 ^ 53.

Definition Qsqrt (q : Q) : Q :=
  Z.sqrt (Qnum q * Zpos (Qden q) * (Zpos sqrt_scale * Zpos sqrt_scale))
  # (Qden q * sqrt_scale).

Definition Math_sqrt (x : num) : num :=
  match x with
  | Fin a => if Qle_bool 0 a then Fin (Qsqrt a) else NaN
  | PInf => PInf
  | NInf | NaN => NaN
  end.

(** [x ** 2] *)
Definition sq (x : num) : num := mul x x.

(** [xs.reduce((sum, x) => sum + x, 0)] *)
Definition sum (xs : list num) : num := fold_left add xs (Fin 0).

(** Sameness of two numbers: equal as rationals, or the same special
    value. *)
Definition num_eq (x y : num) : Prop :=
  match x, y with
  | Fin a, Fin b => a == b
  | PInf, PInf | NInf, NInf | NaN, NaN => True
  | _, _ => False
  end.

Definition is_finite (x : num) : bool :=
  match x with Fin _ => true | _ => false end.

(** A finite number of the closed interval from [lo] to [hi]. *)
Definition between (lo hi : Q) (x : num) : Prop :=
  match x with Fin a => lo <= a <= hi | _ => False end.

(** Membership of the closed unit interval. *)
Definition in_unit (x : num) : Prop := between 0 1 x.

(** *** Doubles

    A double is a rational [m * 2^e] with an integer [m] below [2^53] in
    magnitude and [e] from -1074 to 971.  [to_double q] is the double
    nearest to [q], the one with the even [m] when two are as near, and an
    infinity from [2^1024] upwards. *)

Definition pow2 (e : Z) : Q := Qpower 2 e.

(** The largest [e] with [2^e <= q], for a positive [q]. *)
Definition binade (q : Q) : Z :=
  let e := (Z.log2 (Qnum q) - Z.log2 (Zpos (Qden q)))%Z in
  if Qle_bool (pow2 e) q then e else (e - 1)%Z.

(** The integer nearest to [m]; of two that are as near, the even one. *)
Definition round_half_even (m : Q) : Z :=
  let f := Qfloor m in
  match Qcompare (m - inject_Z f) (1 # 2) with
  | Lt => f
  | Gt => (f + 1)%Z
  | Eq => if Z.even f then f else (f + 1)%Z
  end.

Definition to_double (q : Q) : num :=
  if Qeq_bool q 0 then Fin 0
  else
    let e := Z.max (binade (Qabs q)) (-1022) in
    let ulp := pow2 (e - 52) in
    let nearest := inject_Z (round_half_even (q / ulp)) * ulp in
    if Qle_bool (pow2 1024) (Qabs nearest)
    then (if Qle_bool 0 q then PInf else NInf)
    else Fin (Qred nearest).

(** The result of an operation as the engine stores it. *)
Definition rounded (x : num) : num :=
  match x with Fin q => to_double q | _ => x end.

End JS.

Declare Scope js_scope.
Delimit Scope js_scope with js.
Bind Scope js_scope with JS.num.
Infix "+" := JS.add : js_scope.
Infix "-" := JS.sub : js_scope.
Infix "*" := JS.mul : js_scope.
Infix "/" := JS.div : js_scope.
Infix "<?" := JS.lt : js_scope.
Infix "<=?" := JS.le : js_scope.
Infix ">?" := JS.gt : js_scope.
Infix ">=?" := JS.ge : js_scope.
Infix "=?" := JS.eqb : js_scope.
Infix "|||" := JS.or_else (at level 50, left associativity) : js_scope.
Infix "=n=" := JS.num_eq (at level 70, no associativity).
Coercion JS.Fin : Q >-> JS.num.

Import JS.
Local Open Scope js_scope.

(** ** Array and string primitives *)

(** The integral part of a rational. *)
Definition truncate (q : Q) : Z :=
  if Qle_bool 0 q then Qfloor q else Qceiling q.

(** [xs.slice(0, n)]: [n] is cut to an integer, NaN counts as [0], and a
    negative [n] counts from the end of the array. *)
Definition slice0 {A} (n : num) (xs : list A) : list A :=
  match n with
  | Fin q =>
      let relativeEnd := truncate q in
      if (relativeEnd <? 0)%Z
      then firstn (Z.to_nat (Z.of_nat (length xs) + relativeEnd)) xs
      else firstn (Z.to_nat relativeEnd) xs
  | PInf => xs
  | NInf | NaN => []
  end.

(** The pairs [(xs[i], xs[i + 1])] for [i] from [0] to [xs.length - 2]:
    the iterations of [for (let i = 0; i < xs.length - 1; i++)]. *)
Fixpoint adjacent_pairs {A} (xs : list A) : list (A * A) :=
  match xs with
  | x :: (y :: _) as tl => (x, y) :: adjacent_pairs tl
  | _ => []
  end.

(** The pairs [(xs[i], xs[j])] with [i < j], in the order of the nested
    loops [for i ... for j = i + 1 ...]. *)
Fixpoint index_pairs {A} (xs : list A) : list (A * A) :=
  match xs with
  | [] => []
  | x :: tl => map (fun y => (x, y)) tl ++ index_pairs tl
  end.

(** [xs.reduce(f)] without an initial value raises a [TypeError] on an
    empty array: [None] here. *)
Definition reduce1 {A} (f : A -> A -> A) (xs : list A) : option A :=
  match xs with
  | [] => None
  | x :: tl => Some (fold_left f tl x)
  end.

(** [xs.sort(cmp)]: the sort is stable; an element moves before another
    only when the comparator is positive for the pair in array order.
    Where a comparator is not a consistent ordering the
    language leaves the order to the engine; this insertion sort is one
    such order. *)
Fixpoint sort_insert {A} (cmp : A -> A -> num) (x : A) (sorted : list A) : list A :=
  match sorted with
  | [] => [x]
  | y :: tl => if cmp x y >? 0 then y :: sort_insert cmp x tl else x :: y :: tl
  end.

Definition sort_by {A} (cmp : A -> A -> num) (xs : list A) : list A :=
  fold_right (sort_insert cmp) [] xs.

(** [xs.sort()] on strings compares code units. *)
Fixpoint string_insert (x : string) (sorted : list string) : list string :=
  match sorted with
  | [] => [x]
  | y :: tl => if String.ltb y x then y :: string_insert x tl else x :: y :: tl
  end.

Definition sort_strings (xs : list string) : list string :=
  fold_right string_insert [] xs.

(** [xs.join(sep)] *)
Fixpoint join (sep : string) (xs : list string) : string :=
  match xs with
  | [] => EmptyString
  | [x] => x
  | x :: tl => x ++ sep ++ join sep tl
  end.

(** [s.split(c)] for a one-character separator: never an empty array. *)
Fixpoint split (c : ascii) (s : string) : list string :=
  match s with
  | EmptyString => [EmptyString]
  | String a s' =>
      if Ascii.eqb a c then EmptyString :: split c s'
      else match split c s' with
           | [] => [String a EmptyString]
           | hd :: tl => String a hd :: tl
           end
  end.

(** [xs.includes(x)] on an array of strings. *)
Definition array_includes (xs : list string) (x : string) : bool :=
  existsb (String.eqb x) xs.

(** [s.toLowerCase()] for a text of ASCII characters, where it changes
    the letters A to Z and nothing else.  A text with other characters,
    which the engine lower-cases by the Unicode tables, is outside the
    embedding: a [string] is the sequence of its ASCII characters. *)
Definition lower_ascii (a : ascii) : ascii :=
  let n := nat_of_ascii a in
  if (65 <=? n)%nat && (n <=? 90)%nat then ascii_of_nat (n + 32) else a.

Fixpoint toLowerCase (s : string) : string :=
  match s with
  | EmptyString => EmptyString
  | String a s' => String (lower_ascii a) (toLowerCase s')
  end.

(** [s.includes(k)] *)
Fixpoint includes (s k : string) : bool :=
  String.prefix k s ||
  match s with
  | EmptyString => false
  | String _ s' => includes s' k
  end.

(** The text of a number inside a template literal, for the integral
    values that [Math.round] returns (below 10^21 in magnitude). *)
Definition number_text (x : num) : string :=
  match x with
  | Fin q => pretty (Qfloor q)
  | PInf => "Infinity"
  | NInf => "-Infinity"
  | NaN => "NaN"
  end.

(** ** The annotation response of the vision service

    Every field of the response is optional; a missing field is [None]. *)

Inductive Likelihood : Type :=
| UNKNOWN | VERY_UNLIKELY | UNLIKELY | POSSIBLE | LIKELY | VERY_LIKELY.

Record Vertex := { vertex_x : option num; vertex_y : option num }.

Record BoundingPoly := { vertices : option (list Vertex) }.

Record FaceAnnotation := {
  face_boundingPoly : option BoundingPoly;
  joyLikelihood : option Likelihood;
  sorrowLikelihood : option Likelihood;
  angerLikelihood : option Likelihood;
  surpriseLikelihood : option Likelihood;
  blurredLikelihood : option Likelihood;
  headwearLikelihood : option Likelihood;
  detectionConfidence : option num
}.

Record LatLng := { latLng_latitude : option num; latLng_longitude : option num }.

Record LocationInfo := { latLng : option LatLng }.

Record EntityAnnotation := {
  entity_description : option string;
  entity_score : option num;
  entity_topicality : option num;
  entity_boundingPoly : option BoundingPoly;
  entity_locations : option (list LocationInfo)
}.

Record LocalizedObjectAnnotation := { object_boundingPoly : option BoundingPoly }.

Record GoogleColor := {
  g_red : option num;
  g_green : option num;
  g_blue : option num
}.

Record ColorInfo := {
  info_color : option GoogleColor;
  info_score : option num;
  info_pixelFraction : option num
}.

Record DominantColorsAnnotation := { colors : option (list ColorInfo) }.

Record GoogleImageProperties := { g_dominantColors : option DominantColorsAnnotation }.

(** [entityId] is [None] when the field is absent ([undefined]) and
    [Some None] when it holds [null]; for the other fields the code does
    not tell the two apart. *)
Record WebEntity := {
  entityId : option (option string);
  web_score : option num;
  web_description : option string
}.

Record WebImage := { web_url : option string }.

Record GoogleWebDetection := {
  webEntities : option (list WebEntity);
  visuallySimilarImages : option (list WebImage);
  partialMatchingImages : option (list WebImage)
}.

Record AnnotateImageResponse := {
  faceAnnotations : option (list FaceAnnotation);
  labelAnnotations : option (list EntityAnnotation);
  landmarkAnnotations : option (list EntityAnnotation);
  localizedObjectAnnotations : option (list LocalizedObjectAnnotation);
  imagePropertiesAnnotation : option GoogleImageProperties;
  response_webDetection : option GoogleWebDetection
}.

(** [xs || []] *)
Definition or_nil {A} (o : option (list A)) : list A :=
  match o with Some xs => xs | None => [] end.

(** [s || ''] *)
Definition or_empty (o : option string) : string :=
  match o with Some s => s | None => EmptyString end.

(** ** vision-api.ts *)

Record BoundingBox := {
  box_left : num;
  box_top : num;
  box_width : num;
  box_height : num
}.

Definition convertBoundingPoly (poly : option BoundingPoly) : BoundingBox :=
  match poly with
  | Some {| vertices := Some vs |} =>
      if (length vs <? 4)%nat
      then {| box_left := 0; box_top := 0; box_width := 0; box_height := 0 |}
      else
        let left := Math_min_list (map (fun v => opt_or (vertex_x v) 0) vs) in
        let top := Math_min_list (map (fun v => opt_or (vertex_y v) 0) vs) in
        let right := Math_max_list (map (fun v => opt_or (vertex_x v) 0) vs) in
        let bottom := Math_max_list (map (fun v => opt_or (vertex_y v) 0) vs) in
        {| box_left := left; box_top := top;
           box_width := right - left; box_height := bottom - top |}
  | _ => {| box_left := 0; box_top := 0; box_width := 0; box_height := 0 |}
  end.

Definition likelihoodMap (l : Likelihood) : num :=
  match l with
  | UNKNOWN => 0
  | VERY_UNLIKELY => 0
  | UNLIKELY => 0.25
  | POSSIBLE => 0.5
  | LIKELY => 0.75
  | VERY_LIKELY => 1
  end.

Definition convertLikelihood (likelihood : option Likelihood) : num :=
  likelihoodMap (match likelihood with Some l => l | None => UNKNOWN end) ||| 0.

(** ** photo-quality.ts *)

(** [result.imagePropertiesAnnotation?.dominantColors?.colors] *)
Definition response_colors (result : AnnotateImageResponse) : option (list ColorInfo) :=
  match imagePropertiesAnnotation result with
  | Some {| g_dominantColors := Some {| colors := cs |} |} => cs
  | _ => None
  end.

(** [c.color || {}] *)
Definition color_of (c : ColorInfo) : GoogleColor :=
  match info_color c with
  | Some col => col
  | None => {| g_red := None; g_green := None; g_blue := None |}
  end.

(** The Euclidean distance of two dominant colours in RGB space. *)
Definition rgb_difference (c1 c2 : ColorInfo) : num :=
  let color1 := color_of c1 in
  let color2 := color_of c2 in
  Math_sqrt (sq (opt_or (g_red color1) 0 - opt_or (g_red color2) 0) +
             sq (opt_or (g_green color1) 0 - opt_or (g_green color2) 0) +
             sq (opt_or (g_blue color1) 0 - opt_or (g_blue color2) 0)).

(** The edge-strength estimate of [evaluateBlur]. *)
Definition normalizedEdgeStrength (cs : list ColorInfo) : num :=
  let edgeStrength :=
    fold_left (fun acc '(c1, c2) => acc + rgb_difference c1 c2) (adjacent_pairs cs) (Fin 0) in
  Math_min (edgeStrength / (255 * Math_sqrt 3 * (of_nat (length cs) - 1))) 1.

Definition has_faces (result : AnnotateImageResponse) : bool :=
  match faceAnnotations result with
  | Some (_ :: _) => true
  | _ => false
  end.

Definition evaluateBlur (result : AnnotateImageResponse) : num :=
  let faceBlurScores :=
    if has_faces result
    then map (fun face => 1 - convertLikelihood (blurredLikelihood face))
             (or_nil (faceAnnotations result))
    else [] in
  let edgeScores :=
    match response_colors result with
    | Some cs => [normalizedEdgeStrength cs]
    | None => []
    end in
  let blurScores := faceBlurScores ++ edgeScores in
  if (length blurScores =? 0)%nat then 0.5
  else if has_faces result then
    let faceBlurAverage :=
      JS.sum (removelast blurScores) / (of_nat (length blurScores) - 1) in
    let edgeScore := List.last blurScores NaN in
    faceBlurAverage * 0.7 + edgeScore * 0.3
  else JS.sum blurScores / of_nat (length blurScores).

Definition evaluateExposure (result : AnnotateImageResponse) : num :=
  match response_colors result with
  | None => 0.5
  | Some cs =>
      let '(totalBrightness, totalWeight) :=
        fold_left
          (fun '(totalBrightness, totalWeight) c =>
             let rgb := color_of c in
             let brightness :=
               (opt_or (g_red rgb) 0 + opt_or (g_green rgb) 0 + opt_or (g_blue rgb) 0)
               / (3 * 255) in
             let weight := opt_or (info_pixelFraction c) 0 in
             (totalBrightness + brightness * weight, totalWeight + weight))
          cs (Fin 0, Fin 0) in
      let averageBrightness :=
        if totalWeight >? 0 then totalBrightness / totalWeight else 0.5 in
      1 - Math_abs (averageBrightness - 0.5) * 2
  end.

Definition evaluateNoise (result : AnnotateImageResponse) : num :=
  match response_colors result with
  | None => 0.5
  | Some cs =>
      if (length cs <? 2)%nat then 0.5
      else
        let '(noiseScore, totalWeight) :=
          fold_left
            (fun '(noiseScore, totalWeight) '(c1, c2) =>
               let colorDifference := rgb_difference c1 c2 / (255 * Math_sqrt 3) in
               let weight :=
                 opt_or (info_pixelFraction c1) 0 + opt_or (info_pixelFraction c2) 0 in
               (noiseScore - colorDifference * weight, totalWeight + weight))
            (adjacent_pairs cs) (Fin 1, Fin 0) in
        Math_max 0 (Math_min 1 (noiseScore / (totalWeight ||| 1)))
  end.

(** The bounding boxes of the faces, landmarks and localized objects. *)
Definition subjects (result : AnnotateImageResponse) : list BoundingBox :=
  map (fun face => convertBoundingPoly (face_boundingPoly face))
      (or_nil (faceAnnotations result)) ++
  map (fun landmark => convertBoundingPoly (entity_boundingPoly landmark))
      (or_nil (landmarkAnnotations result)) ++
  map (fun object => convertBoundingPoly (object_boundingPoly object))
      (or_nil (localizedObjectAnnotations result)).

Definition thirdLines : list num := [Fin 0.33; Fin 0.67].

Definition evaluateRuleOfThirds (result : AnnotateImageResponse) : option num :=
  let subjects := subjects result in
  if (length subjects =? 0)%nat then None
  else
    let scores :=
      map (fun subject =>
             let centerX := box_left subject + box_width subject / 2 in
             let centerY := box_top subject + box_height subject / 2 in
             let distanceToVertical :=
               Math_min_list (map (fun third => Math_abs (third - centerX)) thirdLines) in
             let distanceToHorizontal :=
               Math_min_list (map (fun third => Math_abs (third - centerY)) thirdLines) in
             1 - Math_min ((distanceToVertical + distanceToHorizontal) / 2) 1)
          subjects in
    Some (JS.sum scores / of_nat (length scores)).

Definition evaluateSubjectProminence (result : AnnotateImageResponse) : option num :=
  let subjects := subjects result in
  if (length subjects =? 0)%nat then None
  else
    let imageArea : num := 1 in
    let prominenceScores :=
      map (fun subject =>
             let subjectArea := box_width subject * box_height subject in
             let areaScore := Math_min (subjectArea / (imageArea * 0.5)) 1 in
             let centerX := box_left subject + box_width subject / 2 in
             let centerY := box_top subject + box_height subject / 2 in
             let distanceFromCenter :=
               Math_sqrt (sq (centerX - 0.5) + sq (centerY - 0.5)) in
             let positionScore := 1 - Math_min (distanceFromCenter / 0.5) 1 in
             areaScore * 0.6 + positionScore * 0.4)
          subjects in
    Some (JS.sum prominenceScores / of_nat (length prominenceScores)).

Definition evaluateVisualBalance (result : AnnotateImageResponse) : option num :=
  match response_colors result with
  | None | Some [] => None
  | Some dominantColors =>
      let '(leftWeight, rightWeight, topWeight, bottomWeight) :=
        fold_left
          (fun '(leftWeight, rightWeight, topWeight, bottomWeight) c =>
             let rgb := color_of c in
             let weight :=
               opt_or (info_pixelFraction c) 0 *
               (opt_or (g_red rgb) 0 + opt_or (g_green rgb) 0 + opt_or (g_blue rgb) 0)
               / (3 * 255) in
             (leftWeight + weight * 0.5, rightWeight + weight * 0.5,
              topWeight + weight * 0.5, bottomWeight + weight * 0.5))
          dominantColors (Fin 0, Fin 0, Fin 0, Fin 0) in
      let horizontalBalance := 1 - Math_abs (leftWeight - rightWeight) in
      let verticalBalance := 1 - Math_abs (topWeight - bottomWeight) in
      Some (horizontalBalance * 0.5 + verticalBalance * 0.5)
  end.

Definition evaluateComposition (result : AnnotateImageResponse) : num :=
  let compositionScore : num := 0 in
  let scoreComponents : nat := 0%nat in
  let thirdsScore := evaluateRuleOfThirds result in
  let '(compositionScore, scoreComponents) :=
    match thirdsScore with
    | Some thirds => (compositionScore + thirds * 0.4, S scoreComponents)
    | None => (compositionScore, scoreComponents)
    end in
  let prominenceScore := evaluateSubjectProminence result in
  let '(compositionScore, scoreComponents) :=
    match prominenceScore with
    | Some prominence => (compositionScore + prominence * 0.3, S scoreComponents)
    | None => (compositionScore, scoreComponents)
    end in
  let balanceScore := evaluateVisualBalance result in
  let '(compositionScore, scoreComponents) :=
    match balanceScore with
    | Some balance => (compositionScore + balance * 0.3, S scoreComponents)
    | None => (compositionScore, scoreComponents)
    end in
  if (0 <? scoreComponents)%nat
  then compositionScore / of_nat scoreComponents
  else 0.5.

(** ** types.ts *)

Record Location := { latitude : num; longitude : num }.

(** A [Date]: a time value in milliseconds, or an invalid date. *)
Inductive Date : Type :=
| Time (t : Z)
| InvalidDate.
Bind Scope Z_scope with Date.
Coercion Time : Z >-> Date.

(** [date.getTime()], also the number that a comparison of dates reads. *)
Definition getTime (date : Date) : num :=
  match date with
  | Time t => of_Z t
  | InvalidDate => NaN
  end.

(** [new Date(t)] keeps the integral part of a time value of at most
    8.64e15 in magnitude; any other number gives an invalid date. *)
Definition maxTime : Z := 8640000000000000.

Definition new_Date (t : num) : Date :=
  match t with
  | Fin q => if Qle_bool (Qabs q) (inject_Z maxTime) then Time (truncate q) else InvalidDate
  | _ => InvalidDate
  end.

(** A photo; [photo_location] is [metadata.location].  The image buffer,
    the title and the interaction counters are not read by the engine. *)
Record Photo := {
  id : string;
  url : string;
  dateTime : Date;
  photo_location : option Location
}.

Record EmotionScores := { joy : num; sorrow : num; anger : num; surprise : num }.

Record FaceAnalysis := {
  face_boundingBox : BoundingBox;
  emotions : EmotionScores;
  confidence : num;
  blurred : bool;
  headwear : bool
}.

Record Label := { description : string; score : num; topicality : num }.

Record Landmark := {
  name : string;
  landmark_score : num;
  landmark_boundingBox : BoundingBox;
  locations : option (list Location)
}.

Record RGB := { red : num; green : num; blue : num }.

Record Color := { color : RGB; color_score : num; pixelFraction : num }.

Record ImageProperties := {
  dominantColors : list Color;
  brightness : num;
  contrast : num;
  sharpness : num
}.

Record QualityMetrics := {
  blurScore : num;
  exposureScore : num;
  noiseScore : num;
  compositionScore : num
}.

Record PhotoAnalysis := {
  faces : list FaceAnalysis;
  labels : list Label;
  landmarks : list Landmark;
  imageProperties : ImageProperties;
  webDetection : GoogleWebDetection;
  quality : QualityMetrics
}.

Record PhotoScores := {
  score_quality : num;
  score_interest : num;
  score_emotion : num;
  score_uniqueness : num;
  score_relevance : num;
  score_temporal : num;
  final : num
}.

Record EnhancedPhoto := {
  photo : Photo;
  analysis : PhotoAnalysis;
  scores : option PhotoScores
}.

Record TimeRange := { range_start : Date; range_end : Date }.

(** [options.weights]: each key may be absent. *)
Record WeightOptions := {
  w_quality : option num;
  w_interest : option num;
  w_emotion : option num;
  w_uniqueness : option num;
  w_relevance : option num;
  w_temporal : option num
}.

Record HighlightOptions := {
  limit : num;
  timeRange : TimeRange;
  minQuality : num;
  preferredTypes : list string;
  weights : option WeightOptions
}.

Record LabelFrequencies := {
  individual : gmap string nat;
  combinations : gmap string nat
}.

(** An [Error] object. *)
Record Error := { message : string }.

Record BatchProcessingResult := {
  success : list EnhancedPhoto;
  failed : list (Photo * Error)
}.

(** [p.scores?.final || 0] and [p.scores?.quality || 0] *)
Definition final_or_0 (p : EnhancedPhoto) : num :=
  match scores p with Some s => final s ||| 0 | None => 0 end.

Definition quality_or_0 (p : EnhancedPhoto) : num :=
  match scores p with Some s => score_quality s ||| 0 | None => 0 end.

(** A [Map] with string keys, in insertion order. *)
Fixpoint map_get {V} (k : string) (m : list (string * V)) : option V :=
  match m with
  | [] => None
  | (k', v) :: tl => if String.eqb k k' then Some v else map_get k tl
  end.

Fixpoint map_set {V} (k : string) (v : V) (m : list (string * V)) : list (string * V) :=
  match m with
  | [] => [(k, v)]
  | (k', v') :: tl => if String.eqb k k' then (k, v) :: tl else (k', v') :: map_set k v tl
  end.

(** ** photo.ts *)

Definition calculateBrightness (cs : list ColorInfo) : num :=
  fold_left
    (fun sum c =>
       let rgb := color_of c in
       let brightness :=
         (opt_or (g_red rgb) 0 + opt_or (g_green rgb) 0 + opt_or (g_blue rgb) 0)
         / 3 / 255 * opt_or (info_pixelFraction c) 0 in
       sum + brightness)
    cs (Fin 0).

Definition calculateContrast (cs : list ColorInfo) : num :=
  if (length cs <? 2)%nat then 0
  else
    let brightnesses :=
      map (fun c =>
             let rgb := color_of c in
             (opt_or (g_red rgb) 0 + opt_or (g_green rgb) 0 + opt_or (g_blue rgb) 0) / 3)
          cs in
    let maxBrightness := Math_max_list brightnesses in
    let minBrightness := Math_min_list brightnesses in
    (maxBrightness - minBrightness) / 255.

Definition calculateSharpness (cs : list ColorInfo) : num :=
  if (length cs <? 2)%nat then 0
  else
    let totalVariation :=
      fold_left (fun acc '(c1, c2) => acc + rgb_difference c1 c2)
                (adjacent_pairs cs) (Fin 0) in
    Math_min (totalVariation / (of_nat (length cs) - 1) / 442) 1.

(** ** colors.ts *)

(** The text [`${red},${green},${blue}`] of a colour is split at its
    commas and read back by [areColorsSimilar]; a number survives being
    printed and read, so the colour is passed as it is. *)
Definition areColorsSimilar (color1 color2 : RGB) : bool :=
  let distance :=
    Math_sqrt (sq (red color1 - red color2) + sq (green color1 - green color2) +
               sq (blue color1 - blue color2)) in
  distance <? 30.

(** ** photo-meta-similarity.ts *)

(** [new Set(entities.map(e => e.entityId).filter(id => id !== undefined))]:
    the ids that are strings, and [null] ([None]) when an entity holds
    it. *)
Definition entity_ids (entities : list WebEntity) : gset (option string) :=
  list_to_set (omap entityId entities).

Definition calculateWebEntitySimilarity (photo1 photo2 : EnhancedPhoto) : num :=
  let entities1 := or_nil (webEntities (webDetection (analysis photo1))) in
  let entities2 := or_nil (webEntities (webDetection (analysis photo2))) in
  if (length entities1 =? 0)%nat || (length entities2 =? 0)%nat then 0
  else
    let entityIds1 := entity_ids entities1 in
    let entityIds2 := entity_ids entities2 in
    if (size entityIds1 =? 0)%nat || (size entityIds2 =? 0)%nat then 0
    else
      let intersection := entityIds1 ∩ entityIds2 in
      let union := entityIds1 ∪ entityIds2 in
      of_nat (size intersection) / of_nat (size union).

Definition calculateColorDistance (color1 color2 : Color) : num :=
  Math_sqrt (sq (red (color color1) - red (color color2)) +
             sq (green (color color1) - green (color color2)) +
             sq (blue (color color1) - blue (color color2))).

Definition calculateColorSimilarity (colors1 colors2 : list Color) : num :=
  if (length colors1 =? 0)%nat || (length colors2 =? 0)%nat then 0
  else
    let '(totalSimilarity, comparisons) :=
      fold_left
        (fun acc color1 =>
           fold_left
             (fun '(totalSimilarity, comparisons) color2 =>
                let similarity := 1 - calculateColorDistance color1 color2 / 441.67 in
                (totalSimilarity + similarity * (pixelFraction color1 * pixelFraction color2),
                 S comparisons))
             colors2 acc)
        colors1 (Fin 0, 0%nat) in
    if (0 <? comparisons)%nat then totalSimilarity / of_nat comparisons else 0.

Definition calculateLayoutSimilarity (layout1 layout2 : string) : num :=
  let elements1 := split "|" layout1 in
  let elements2 := split "|" layout2 in
  if (length elements1 =? 0)%nat || (length elements2 =? 0)%nat then 0
  else
    let maxLength := Math_max (of_nat (length elements1)) (of_nat (length elements2)) in
    let matchingElements :=
      List.filter (fun element => array_includes elements2 element) elements1 in
    of_nat (length matchingElements) / maxLength.

Definition box_text (box : BoundingBox) : string :=
  number_text (Math_round (box_left box)) ++ "," ++
  number_text (Math_round (box_top box)) ++ "," ++
  number_text (Math_round (box_width box)) ++ "," ++
  number_text (Math_round (box_height box)).

Definition createLayoutFingerprint (elements : list BoundingBox) : string :=
  join "|" (sort_strings (map box_text elements)).

Definition getVisualElements (p : EnhancedPhoto) : list BoundingBox :=
  map face_boundingBox (faces (analysis p)) ++
  map landmark_boundingBox (landmarks (analysis p)).

Definition calculateVisualFeatureSimilarity (photo1 photo2 : EnhancedPhoto) : num :=
  let colorSimilarity :=
    calculateColorSimilarity (dominantColors (imageProperties (analysis photo1)))
                             (dominantColors (imageProperties (analysis photo2))) in
  let layout1 := createLayoutFingerprint (getVisualElements photo1) in
  let layout2 := createLayoutFingerprint (getVisualElements photo2) in
  let layoutSimilarity := calculateLayoutSimilarity layout1 layout2 in
  colorSimilarity * 0.6 + layoutSimilarity * 0.4.


(** ** highlighter.ts: the scores of one photo *)

(** The state of a [GoogleVisionHighlightSelector]. *)
Record Selector := {
  photos : list EnhancedPhoto;
  labelFrequencies : LabelFrequencies
}.

Definition calculateQualityScore (quality : QualityMetrics) : num :=
  blurScore quality * 0.35 +
  exposureScore quality * 0.25 +
  noiseScore quality * 0.2 +
  compositionScore quality * 0.2.

Definition calculateFaceInterestScore (faces : list FaceAnalysis) : num :=
  if (length faces =? 0)%nat then 0
  else
    let faceScores :=
      map (fun face =>
             let emotionScore :=
               Math_max_list [joy (emotions face); surprise (emotions face);
                              sorrow (emotions face) * 0.5; anger (emotions face) * 0.5] in
             let qualityScore := confidence face * (if blurred face then Fin 0.5 else Fin 1) in
             emotionScore * 0.6 + qualityScore * 0.4)
          faces in
    let multipleFaceFactor := Math_min (of_nat (length faces) / 3) 1 in
    let averageScore := JS.sum faceScores / of_nat (length faceScores) in
    averageScore * (1 + multipleFaceFactor * 0.2).

Definition calculateLandmarkInterestScore (landmarks : list Landmark) : num :=
  if (length landmarks =? 0)%nat then 0
  else
    fold_left
      (fun score landmark =>
         let confidence := landmark_score landmark in
         let hasLocation :=
           match locations landmark with
           | Some locs => (0 <? length locs)%nat
           | None => false
           end in
         Math_max score (confidence * (if hasLocation then Fin 1.2 else Fin 1)))
      landmarks (Fin 0).

(** [Boolean(s)] of an optional string. *)
Definition has_text (o : option string) : bool :=
  match o with
  | Some (String _ _) => true
  | _ => false
  end.

Definition calculateWebInterestScore (webDetection : GoogleWebDetection) : num :=
  match webEntities webDetection with
  | None | Some [] => 0
  | Some entities =>
      let entityScores :=
        map (fun entity => (opt_or (web_score entity) 0, has_text (web_description entity)))
            entities in
      let averageScore :=
        fold_left
          (fun (sum : num) '((score, hasDescription) : num * bool) =>
             sum + score * (if hasDescription then Fin 1.2 else Fin 1))
          entityScores (Fin 0)
        / of_nat (length entityScores) in
      Math_min (averageScore / 0.8) 1
  end.

Definition interestingCategories : list (string * list string) :=
  [("events", ["wedding"; "party"; "celebration"; "ceremony"; "festival"]);
   ("activities", ["sport"; "dance"; "performance"; "game"; "adventure"]);
   ("nature", ["sunset"; "beach"; "mountain"; "landscape"; "wildlife"]);
   ("emotions", ["smile"; "happy"; "joy"; "laugh"; "excited"]);
   ("landmarks", ["monument"; "building"; "architecture"; "statue"; "tower"])]%string.

Definition calculateLabelInterestScore (labels : list Label) : num :=
  let categoryScores :=
    fold_left
      (fun categoryScores label =>
         fold_left
           (fun categoryScores '(category, keywords) =>
              if existsb (fun keyword => includes (toLowerCase (description label)) keyword)
                         keywords
              then
                let currentScore := opt_or (map_get category categoryScores) 0 in
                map_set category (Math_max currentScore (score label)) categoryScores
              else categoryScores)
           interestingCategories categoryScores)
      labels [] in
  if (length categoryScores =? 0)%nat then 0.4
  else
    let averageCategoryScore :=
      JS.sum (map snd categoryScores) / of_nat (length categoryScores) in
    let diversityBonus := Math_min ((of_nat (length categoryScores) - 1) * 0.1) 0.3 in
    Math_min (averageCategoryScore + diversityBonus) 1.

Definition calculateInterestScore (analysis : PhotoAnalysis) : num :=
  let s_faces := calculateFaceInterestScore (faces analysis) in
  let s_landmarks := calculateLandmarkInterestScore (landmarks analysis) in
  let s_labels := calculateLabelInterestScore (labels analysis) in
  let s_web := calculateWebInterestScore (webDetection analysis) in
  0 + s_faces * 0.35 + s_landmarks * 0.25 + s_labels * 0.25 + s_web * 0.15.

Definition calculateEmotionScore (faces : list FaceAnalysis) : num :=
  if (length faces =? 0)%nat then 0.5
  else
    let emotionScores :=
      map (fun face =>
             let emotions := emotions face in
             (joy emotions + surprise emotions * 0.7,
              sorrow emotions + anger emotions,
              confidence face))
          faces in
    let weightedScores :=
      map (fun '(positive, negative, confidence) =>
             (positive * confidence, negative * confidence))
          emotionScores in
    let totalPositive := JS.sum (map fst weightedScores) in
    let totalNegative := JS.sum (map snd weightedScores) in
    let totalConfidence := JS.sum (map snd emotionScores) in
    if totalConfidence =? 0 then 0.5
    else
      let normalizedPositive := totalPositive / totalConfidence in
      let normalizedNegative := totalNegative / totalConfidence in
      Math_min (normalizedPositive * 0.8 + (1 - normalizedNegative) * 0.2) 1.

(** [map.get(key) || 1] on a frequency table. *)
Definition frequency_or_1 (m : gmap string nat) (key : string) : num :=
  match m !! key with
  | Some n => of_nat n ||| 1
  | None => 1
  end.

(** [[a, b].sort().join('|')] *)
Definition combination_key (a b : string) : string :=
  join "|" (sort_strings [a; b]).

Definition calculateLabelUniqueness (this : Selector) (labels : list Label) : num :=
  if (length labels =? 0)%nat then 0
  else
    let individualScores :=
      map (fun label =>
             let frequency :=
               frequency_or_1 (individual (labelFrequencies this)) (description label) in
             let uniqueness := 1 / Math_sqrt frequency in
             uniqueness * score label)
          labels in
    let combinationScores :=
      map (fun '(label_i, label_j) =>
             let combo := combination_key (description label_i) (description label_j) in
             let frequency := frequency_or_1 (combinations (labelFrequencies this)) combo in
             let uniqueness := 1 / Math_sqrt frequency in
             uniqueness * Math_min (score label_i) (score label_j))
          (index_pairs labels) in
    let avgIndividualScore := JS.sum individualScores / of_nat (length individualScores) in
    let avgCombinationScore :=
      if (0 <? length combinationScores)%nat
      then JS.sum combinationScores / of_nat (length combinationScores)
      else 0 in
    avgIndividualScore * 0.4 + avgCombinationScore * 0.6.

(** [xs?.length], with an absent array counted as empty. *)
Definition opt_length {A} (o : option (list A)) : nat := length (or_nil o).

Definition calculateVisualUniqueness (webDetection : GoogleWebDetection) : num :=
  if (opt_length (visuallySimilarImages webDetection) =? 0)%nat then 1
  else
    let similarityScore :=
      Math_max 0 (1 - of_nat (opt_length (visuallySimilarImages webDetection)) / 10) in
    let partialMatchScore :=
      if (opt_length (partialMatchingImages webDetection) =? 0)%nat then Fin 1
      else Math_max 0 (1 - of_nat (opt_length (partialMatchingImages webDetection)) / 5) in
    similarityScore * 0.7 + partialMatchScore * 0.3.

Definition calculateColorUniqueness (this : Selector) (properties : ImageProperties) : num :=
  let colors := dominantColors properties in
  if (length colors =? 0)%nat then 0
  else
    let colorDistribution := map (fun c => (color c, pixelFraction c)) colors in
    let uniquenessScore :=
      fold_left
        (fun uniquenessScore '(rgb, fraction) =>
           let similarityCount :=
             fold_left
               (fun similarityCount otherPhoto =>
                  if existsb (fun otherColor => areColorsSimilar rgb (color otherColor))
                             (dominantColors (imageProperties (analysis otherPhoto)))
                  then S similarityCount
                  else similarityCount)
               (photos this) 0%nat in
           uniquenessScore +
           (1 - of_nat similarityCount / of_nat (length (photos this))) * fraction)
        colorDistribution (Fin 0) in
    uniquenessScore / of_nat (length colorDistribution).

Definition calculateLayoutUniqueness (this : Selector)
    (faces : list FaceAnalysis) (landmarks : list Landmark) : num :=
  let elements := map face_boundingBox faces ++ map landmark_boundingBox landmarks in
  if (length elements =? 0)%nat then 0.5
  else
    let layoutFingerprint := createLayoutFingerprint elements in
    let similarLayoutCount :=
      fold_left
        (fun similarLayoutCount otherPhoto =>
           let otherFingerprint := createLayoutFingerprint (getVisualElements otherPhoto) in
           if calculateLayoutSimilarity layoutFingerprint otherFingerprint >? 0.8
           then S similarLayoutCount
           else similarLayoutCount)
        (photos this) 0%nat in
    1 - of_nat similarLayoutCount / of_nat (length (photos this)).

Definition calculateCompositionUniqueness (this : Selector) (p : EnhancedPhoto) : num :=
  let colorUniqueness := calculateColorUniqueness this (imageProperties (analysis p)) in
  let layoutUniqueness :=
    calculateLayoutUniqueness this (faces (analysis p)) (landmarks (analysis p)) in
  colorUniqueness * 0.5 + layoutUniqueness * 0.5.

Definition calculateUniquenessScore (this : Selector) (p : EnhancedPhoto) : num :=
  let labelUniqueness := calculateLabelUniqueness this (labels (analysis p)) in
  let visualUniqueness := calculateVisualUniqueness (webDetection (analysis p)) in
  let compositionUniqueness := calculateCompositionUniqueness this p in
  labelUniqueness * 0.4 + visualUniqueness * 0.4 + compositionUniqueness * 0.2.

Definition calculateRelevanceScore (p : EnhancedPhoto) (preferredTypes : list string) : num :=
  if (length preferredTypes =? 0)%nat then 1
  else
    let relevantLabels :=
      List.filter
        (fun label =>
           existsb (fun type => includes (toLowerCase (description label)) (toLowerCase type))
                   preferredTypes)
        (labels (analysis p)) in
    if (length relevantLabels =? 0)%nat then 0
    else
      fold_left (fun acc label => acc + score label) relevantLabels (Fin 0)
      / of_nat (length relevantLabels).

Definition calculateTemporalScore (dateTime : Date) (timeRange : TimeRange) : num :=
  let totalRange := getTime (range_end timeRange) - getTime (range_start timeRange) in
  let position := getTime dateTime - getTime (range_start timeRange) in
  let normalizedPosition := position / totalRange in
  let distanceFromMiddle := Math_abs (0.5 - normalizedPosition) in
  1 - distanceFromMiddle.

Definition defaultWeights : WeightOptions :=
  {| w_quality := Some (Fin 0.25);
     w_interest := Some (Fin 0.2);
     w_emotion := Some (Fin 0.15);
     w_uniqueness := Some (Fin 0.15);
     w_relevance := Some (Fin 0.15);
     w_temporal := Some (Fin 0.1) |}.

(** One key of [{ ...this.defaultWeights, ...options.weights }]. *)
Definition merged_weight (key : WeightOptions -> option num) (user : option WeightOptions) : num :=
  match user with
  | Some w => match key w with
              | Some x => x
              | None => match key defaultWeights with Some d => d | None => NaN end
              end
  | None => match key defaultWeights with Some d => d | None => NaN end
  end.

(** The scores of one photo of the pool, as [selectHighlights] computes
    them. *)
Definition score_photo (this : Selector) (options : HighlightOptions)
    (p : EnhancedPhoto) : PhotoScores :=
  let quality := calculateQualityScore (quality (analysis p)) in
  let interest := calculateInterestScore (analysis p) in
  let emotion := calculateEmotionScore (faces (analysis p)) in
  let uniqueness := calculateUniquenessScore this p in
  let relevance := calculateRelevanceScore p (preferredTypes options) in
  let temporal := calculateTemporalScore (dateTime (photo p)) (timeRange options) in
  let final :=
    0 + quality * merged_weight w_quality (weights options)
      + interest * merged_weight w_interest (weights options)
      + emotion * merged_weight w_emotion (weights options)
      + uniqueness * merged_weight w_uniqueness (weights options)
      + relevance * merged_weight w_relevance (weights options)
      + temporal * merged_weight w_temporal (weights options) in
  {| score_quality := quality; score_interest := interest; score_emotion := emotion;
     score_uniqueness := uniqueness; score_relevance := relevance;
     score_temporal := temporal; final := final |}.

Definition scoredPhotos (this : Selector) (options : HighlightOptions) : list EnhancedPhoto :=
  map (fun p => {| photo := photo p; analysis := analysis p;
                   scores := Some (score_photo this options p) |})
      (photos this).

(** ** highlighter.ts: analysis, grouping and selection *)

(** What a call leaves: a value, a raised [TypeError], or a loop that
    was cut off before its condition turned false. *)
Inductive outcome (A : Type) : Type :=
| Returns (a : A)
| Raises
| OutOfFuel.
Arguments Returns {A} a.
Arguments Raises {A}.
Arguments OutOfFuel {A}.

#[global] Instance outcome_bind : MBind outcome :=
  fun A B (k : A -> outcome B) (c : outcome A) =>
    match c with
    | Returns a => k a
    | Raises => Raises
    | OutOfFuel => OutOfFuel
    end.

(** A value that a rejected call throws: an [Error], or any other value
    (kept as the text [String(value)]). *)
Inductive Thrown : Type :=
| ThrownError (e : Error)
| ThrownValue (text : string).

(** [error instanceof Error ? error : new Error(String(error))] *)
Definition as_Error (t : Thrown) : Error :=
  match t with
  | ThrownError e => e
  | ThrownValue text => {| message := text |}
  end.

Record TimeBucket := { bucket_start : Date; bucket_end : Date }.

(** The loop of [createTimeBuckets].  Each sum is rounded to a double:
    when the bucket length is small beside the time the sum is the time
    again and the loop does not end, and a sum that falls short of the end
    by the rounding gives one bucket more.  [fuel] bounds the iterations;
    a loop that is cut off is [OutOfFuel]. *)
Fixpoint createTimeBuckets_loop (fuel : nat) (time bucketDuration endTime : num)
  : outcome (list TimeBucket) :=
  if time <? endTime then
    match fuel with
    | O => OutOfFuel
    | S fuel' =>
        let next := rounded (time + bucketDuration) in
        buckets ← createTimeBuckets_loop fuel' next bucketDuration endTime;
        Returns ({| bucket_start := new_Date time;
                    bucket_end := new_Date (Math_min next endTime) |}
                 :: buckets)
    end
  else Returns [].

Definition createTimeBuckets (fuel : nat) (timeRange : TimeRange)
  : outcome (list TimeBucket) :=
  let totalDuration :=
    rounded (getTime (range_end timeRange) - getTime (range_start timeRange)) in
  let bucketDuration := rounded (totalDuration / 10) in
  createTimeBuckets_loop fuel (getTime (range_start timeRange)) bucketDuration
                         (getTime (range_end timeRange)).

Definition updateLabelFrequencies (frequencies : LabelFrequencies) (labels : list Label)
  : LabelFrequencies :=
  let individual :=
    fold_left
      (fun individual label =>
         let count := default 0%nat (individual !! description label) in
         <[description label := (count + 1)%nat]> individual)
      labels (individual frequencies) in
  let combinations :=
    fold_left
      (fun combinations '(label_i, label_j) =>
         let combo := combination_key (description label_i) (description label_j) in
         let count := default 0%nat (combinations !! combo) in
         <[combo := (count + 1)%nat]> combinations)
      (index_pairs labels) (combinations frequencies) in
  {| individual := individual; combinations := combinations |}.

Definition processImageProperties (properties : option GoogleImageProperties)
  : ImageProperties :=
  match properties with
  | Some {| g_dominantColors := Some {| colors := Some cs |} |} =>
      {| dominantColors :=
           map (fun c =>
                  {| color := {| red := opt_or (g_red (color_of c)) 0;
                                 green := opt_or (g_green (color_of c)) 0;
                                 blue := opt_or (g_blue (color_of c)) 0 |};
                     color_score := opt_or (info_score c) 0;
                     pixelFraction := opt_or (info_pixelFraction c) 0 |})
               cs;
         brightness := calculateBrightness cs;
         contrast := calculateContrast cs;
         sharpness := calculateSharpness cs |}
  | _ => {| dominantColors := []; brightness := 0; contrast := 0; sharpness := 0 |}
  end.

Definition emptyWebDetection : GoogleWebDetection :=
  {| webEntities := None; visuallySimilarImages := None; partialMatchingImages := None |}.

(** The analysis that [analyzePhoto] builds from a response. *)
Definition analysis_of (result : AnnotateImageResponse) : PhotoAnalysis :=
  {| faces :=
       map (fun face =>
              {| face_boundingBox := convertBoundingPoly (face_boundingPoly face);
                 emotions :=
                   {| joy := convertLikelihood (joyLikelihood face);
                      sorrow := convertLikelihood (sorrowLikelihood face);
                      anger := convertLikelihood (angerLikelihood face);
                      surprise := convertLikelihood (surpriseLikelihood face) |};
                 confidence := opt_or (detectionConfidence face) 0;
                 blurred := convertLikelihood (blurredLikelihood face) >? 0.5;
                 headwear := convertLikelihood (headwearLikelihood face) >? 0.5 |})
           (or_nil (faceAnnotations result));
     labels :=
       map (fun label =>
              {| description := or_empty (entity_description label);
                 score := opt_or (entity_score label) 0;
                 topicality := opt_or (entity_topicality label) 0 |})
           (or_nil (labelAnnotations result));
     landmarks :=
       map (fun landmark =>
              {| name := or_empty (entity_description landmark);
                 landmark_score := opt_or (entity_score landmark) 0;
                 landmark_boundingBox := convertBoundingPoly (entity_boundingPoly landmark);
                 locations :=
                   option_map
                     (map (fun location =>
                             {| latitude :=
                                  match latLng location with
                                  | Some l => opt_or (latLng_latitude l) 0
                                  | None => 0
                                  end;
                                longitude :=
                                  match latLng location with
                                  | Some l => opt_or (latLng_longitude l) 0
                                  | None => 0
                                  end |}))
                     (entity_locations landmark) |})
           (or_nil (landmarkAnnotations result));
     imageProperties := processImageProperties (imagePropertiesAnnotation result);
     webDetection :=
       match response_webDetection result with
       | Some w => w
       | None => emptyWebDetection
       end;
     quality :=
       {| blurScore := evaluateBlur result;
          exposureScore := evaluateExposure result;
          noiseScore := evaluateNoise result;
          compositionScore := evaluateComposition result |} |}.

Section Engine.

(** [calculateDistance] of [lib/distance.ts]: the great-circle distance
    of two locations in metres.  It is computed with trigonometric
    functions, which the number model does not have, and is taken as
    given. *)
Variable calculateDistance : Location -> Location -> num.

(** [visionClient.annotateImage]: the call is rejected with a thrown
    value, or resolves to a response that may be absent. *)
Variable annotateImage : Photo -> Thrown + option AnnotateImageResponse.

Definition analyzePhoto (p : Photo) : Thrown + EnhancedPhoto :=
  match annotateImage p with
  | inl thrown => inl thrown
  | inr None =>
      inl (ThrownError {| message := "Failed to analyze photo: No result returned" |})
  | inr (Some result) =>
      inr {| photo := p; analysis := analysis_of result; scores := None |}
  end.

(** One iteration of the loop of [addPhotos]. *)
Definition addPhotos_step (state : Selector * BatchProcessingResult) (p : Photo)
  : Selector * BatchProcessingResult :=
  let '(this, results) := state in
  match analyzePhoto p with
  | inr enhancedPhoto =>
      ({| photos := photos this ++ [enhancedPhoto];
          labelFrequencies :=
            updateLabelFrequencies (labelFrequencies this) (labels (analysis enhancedPhoto)) |},
       {| success := success results ++ [enhancedPhoto]; failed := failed results |})
  | inl error =>
      (this,
       {| success := success results; failed := failed results ++ [(p, as_Error error)] |})
  end.

(** [addPhotos] returns its result and leaves the selector in a new
    state. *)
Definition addPhotos (this : Selector) (ps : list Photo) : Selector * BatchProcessingResult :=
  fold_left addPhotos_step ps (this, {| success := []; failed := [] |}).

Definition calculateLabelSimilarity (photo1 photo2 : EnhancedPhoto) : num :=
  let labels1 : gset string := list_to_set (map description (labels (analysis photo1))) in
  let labels2 : gset string := list_to_set (map description (labels (analysis photo2))) in
  if (size labels1 =? 0)%nat || (size labels2 =? 0)%nat then 0
  else
    let intersection := labels1 ∩ labels2 in
    let union := labels1 ∪ labels2 in
    of_nat (size intersection) / of_nat (size union).

Definition checkPhotoSimilarity (photo1 photo2 : EnhancedPhoto) : bool :=
  let timeThreshold := of_Z (5 * 60 * 1000) in
  let timeDiff :=
    Math_abs (getTime (dateTime (photo photo1)) - getTime (dateTime (photo photo2))) in
  if timeDiff >? timeThreshold then false
  else
    let tooFar :=
      match photo_location (photo photo1), photo_location (photo photo2) with
      | Some location1, Some location2 =>
          let distanceThreshold : num := 100 in
          let distance := calculateDistance location1 location2 in
          distance >? distanceThreshold
      | _, _ => false
      end in
    if tooFar then false
    else
      let s_labels := calculateLabelSimilarity photo1 photo2 in
      let s_webEntities := calculateWebEntitySimilarity photo1 photo2 in
      let s_visualFeatures := calculateVisualFeatureSimilarity photo1 photo2 in
      let totalSimilarity :=
        s_labels * 0.4 + s_webEntities * 0.3 + s_visualFeatures * 0.3 in
      totalSimilarity >? 0.8.

Definition has (s : gset string) (k : string) : bool := bool_decide (k ∈ s).

Definition groupSimilarPhotos (photos : list EnhancedPhoto)
  : list (string * list EnhancedPhoto) :=
  fst
    (fold_left
       (fun '(groups, processedIds) p =>
          if has processedIds (id (photo p)) then (groups, processedIds)
          else
            let '(similarPhotos, processedIds) :=
              fold_left
                (fun '(similarPhotos, processedIds) otherPhoto =>
                   if String.eqb (id (photo p)) (id (photo otherPhoto))
                      || has processedIds (id (photo otherPhoto))
                   then (similarPhotos, processedIds)
                   else if checkPhotoSimilarity p otherPhoto
                   then (similarPhotos ++ [otherPhoto],
                         processedIds ∪ {[id (photo otherPhoto)]})
                   else (similarPhotos, processedIds))
                photos ([p], processedIds ∪ {[id (photo p)]}) in
            (map_set (id (photo p)) similarPhotos groups, processedIds))
       photos ([], ∅)).

Definition getEligibleGroupsForBucket (groups : list (string * list EnhancedPhoto))
    (bucket : TimeBucket) (usedGroups : gset string) (minQuality : num)
  : list (string * list EnhancedPhoto) :=
  fold_left
    (fun eligible '(groupId, photos) =>
       if has usedGroups groupId then eligible
       else
         let bucketPhotos :=
           List.filter
             (fun p =>
                (getTime (dateTime (photo p)) >=? getTime (bucket_start bucket))
                && (getTime (dateTime (photo p)) <=? getTime (bucket_end bucket))
                && (quality_or_0 p >=? minQuality))
             photos in
         if (0 <? length bucketPhotos)%nat then map_set groupId bucketPhotos eligible
         else eligible)
    groups [].

Definition isPhotoDiverse (p : EnhancedPhoto) (selectedPhotos : list EnhancedPhoto) : bool :=
  forallb (fun selected => negb (checkPhotoSimilarity p selected)) selectedPhotos.

(** The loop of [selectBestGroupsFromBucket] over the sorted groups. *)
Fixpoint selectBestGroups_loop (sortedGroups : list (list EnhancedPhoto * num))
    (count : num) (alreadySelected selections : list EnhancedPhoto)
  : outcome (list EnhancedPhoto) :=
  match sortedGroups with
  | [] => Returns selections
  | group :: rest =>
      if of_nat (length selections) >=? count then Returns selections
      else
        match reduce1 (fun best current =>
                         if final_or_0 current >? final_or_0 best then current else best)
                      (fst group) with
        | None => Raises
        | Some bestPhoto =>
            if isPhotoDiverse bestPhoto (alreadySelected ++ selections)
            then selectBestGroups_loop rest count alreadySelected (selections ++ [bestPhoto])
            else selectBestGroups_loop rest count alreadySelected selections
        end
  end.

Definition selectBestGroupsFromBucket (eligibleGroups : list (string * list EnhancedPhoto))
    (count : num) (alreadySelected : list EnhancedPhoto) : outcome (list EnhancedPhoto) :=
  let sortedGroups :=
    sort_by (fun a b => snd b - snd a)
            (map (fun photos => (photos, Math_max_list (map final_or_0 photos)))
                 (map snd eligibleGroups)) in
  selectBestGroups_loop sortedGroups count alreadySelected [].

Definition selectRemainingBestPhotos (groups : list (string * list EnhancedPhoto))
    (usedGroups : gset string) (count : num) (minQuality : num) : list EnhancedPhoto :=
  let candidates :=
    fold_left
      (fun candidates '(groupId, photos) =>
         if negb (has usedGroups groupId)
         then candidates ++ List.filter (fun p => quality_or_0 p >=? minQuality) photos
         else candidates)
      groups [] in
  slice0 count (sort_by (fun a b => final_or_0 b - final_or_0 a) candidates).

(** The loop over the time buckets; the state is [selectedPhotos] and
    [usedGroups]. *)
Fixpoint selectBuckets_loop (groups : list (string * list EnhancedPhoto))
    (options : HighlightOptions) (photosPerBucket : num) (timeBuckets : list TimeBucket)
    (selectedPhotos : list EnhancedPhoto) (usedGroups : gset string)
  : outcome (list EnhancedPhoto * gset string) :=
  match timeBuckets with
  | [] => Returns (selectedPhotos, usedGroups)
  | bucket :: rest =>
      let eligibleGroups :=
        getEligibleGroupsForBucket groups bucket usedGroups (minQuality options) in
      bucketSelections ←
        selectBestGroupsFromBucket eligibleGroups photosPerBucket selectedPhotos;
      let '(selectedPhotos, usedGroups) :=
        fold_left
          (fun '(selectedPhotos, usedGroups) p =>
             (selectedPhotos ++ [p], usedGroups ∪ {[id (photo p)]}))
          bucketSelections (selectedPhotos, usedGroups) in
      selectBuckets_loop groups options photosPerBucket rest selectedPhotos usedGroups
  end.

Definition selectDiverseHighlights (fuel : nat)
    (groups : list (string * list EnhancedPhoto)) (options : HighlightOptions)
  : outcome (list EnhancedPhoto) :=
  timeBuckets ← createTimeBuckets fuel (timeRange options);
  let photosPerBucket := Math_ceil (limit options / of_nat (length timeBuckets)) in
  '(selectedPhotos, usedGroups) ←
    selectBuckets_loop groups options photosPerBucket timeBuckets [] ∅;
  let selectedPhotos :=
    if of_nat (length selectedPhotos) <? limit options
    then selectedPhotos ++
         selectRemainingBestPhotos groups usedGroups
           (limit options - of_nat (length selectedPhotos)) (minQuality options)
    else selectedPhotos in
  Returns (slice0 (limit options) selectedPhotos).

(** The list that [selectHighlights] returns, from the pool and the
    tables of the selector. *)
Definition selectHighlights (fuel : nat) (this : Selector) (options : HighlightOptions)
  : outcome (list EnhancedPhoto) :=
  let scoredPhotos := scoredPhotos this options in
  let groups := groupSimilarPhotos scoredPhotos in
  selectDiverseHighlights fuel groups options.

End Engine.

(** ** The quantities the specification speaks of *)

(** The time value of a valid date. *)
Definition time_value (date : Date) : Q :=
  match date with
  | Time t => inject_Z t
  | InvalidDate => 0
  end.

(** The capture time mapped linearly onto a time range of valid dates:
    [0] at its start and [1] at its end. *)
Definition normalizedPosition (t : Z) (timeRange : TimeRange) : Q :=
  (inject_Z t - time_value (range_start timeRange)) /
  (time_value (range_end timeRange) - time_value (range_start timeRange)).

(** The arithmetic average of the sub-scores that are present, and 0.5
    when none is: the composition score in the words of the
    specification. *)
Definition average_composition (thirds prominence balance : option num) : num :=
  let present := omap (fun part => part) [thirds; prominence; balance] in
  if (length present =? 0)%nat then 0.5
  else JS.sum present / of_nat (length present).

(** The sub-scores that are present, weighted 0.4, 0.3 and 0.3, summed
    and divided by their number; 0.5 when none is present. *)
Definition weighted_composition (thirds prominence balance : option num) : num :=
  let parts :=
    omap (fun part => part)
         [option_map (fun s => s * 0.4) thirds;
             option_map (fun s => s * 0.3) prominence;
             option_map (fun s => s * 0.3) balance] in
  if (length parts =? 0)%nat then 0.5
  else JS.sum parts / of_nat (length parts).

(** [xs.reduce((sum, x) => sum + x, 0) / xs.length] *)
Definition average (xs : list num) : num := JS.sum xs / of_nat (length xs).

(** The per-face "not blurred" likelihoods of a response. *)
Definition faceBlurScores (result : AnnotateImageResponse) : list num :=
  map (fun face => 1 - convertLikelihood (blurredLikelihood face))
      (or_nil (faceAnnotations result)).

(** The temporal score of a photo at the given normalized position. *)
Definition temporal_score_at (position : Q) : num :=
  1 - Math_abs (0.5 - Fin position).

(** The ids of a list of photos. *)
Definition ids (ps : list EnhancedPhoto) : list string :=
  map (fun p => id (photo p)) ps.

(** The rational value of a finite number. *)
Definition value (x : num) : Q :=
  match x with Fin q => q | _ => 0 end.

(** The sum of the pixel fractions of a colour list. *)
Definition fraction_total (cs : list Color) : Q :=
  fold_right (fun c total => (value (pixelFraction c) + total)%Q) 0 cs.

(** ** Valid annotation input *)

(** A detected face: its confidence and its four emotion scores lie in
    the unit interval. *)
Definition valid_face (f : FaceAnalysis) : Prop :=
  in_unit (confidence f) /\
  in_unit (joy (emotions f)) /\
  in_unit (sorrow (emotions f)) /\
  in_unit (anger (emotions f)) /\
  in_unit (surprise (emotions f)).

(** A web entity: its score, when it has one, is finite and not
    negative. *)
Definition valid_web_entity (e : WebEntity) : Prop :=
  match web_score e with
  | Some (Fin s) => 0 <= s
  | Some _ => False
  | None => True
  end.

(** An analysis whose confidences, label and landmark scores and pixel
    fractions lie in the unit interval.  Any of its lists may be empty. *)
Record valid_analysis (a : PhotoAnalysis) : Prop := {
  valid_faces : Forall valid_face (faces a);
  valid_labels : Forall (fun l => in_unit (score l)) (labels a);
  valid_landmarks : Forall (fun l => in_unit (landmark_score l)) (landmarks a);
  valid_colors :
    Forall (fun c => in_unit (pixelFraction c)) (dominantColors (imageProperties a));
  valid_web : Forall valid_web_entity (or_nil (webEntities (webDetection a)))
}.

(** Quality metrics that lie in the unit interval. *)
Definition valid_quality (q : QualityMetrics) : Prop :=
  in_unit (blurScore q) /\ in_unit (exposureScore q) /\
  in_unit (noiseScore q) /\ in_unit (compositionScore q).

(** A time range of valid dates and of positive length that holds the
    capture time, a valid date too. *)
Definition within_range (dateTime : Date) (timeRange : TimeRange) : Prop :=
  exists t a b : Z,
    dateTime = Time t /\
    range_start timeRange = Time a /\ range_end timeRange = Time b /\
    (a < b)%Z /\ (a <= t <= b)%Z.

(** A score that is absent or lies in the unit interval. *)
Definition optional_unit (o : option num) : Prop :=
  match o with Some x => in_unit x | None => True end.

(** A response whose detection confidences, label and landmark scores and
    pixel fractions, where present, lie in the unit interval, and whose
    web-entity scores are finite and not negative. *)
Record valid_response (result : AnnotateImageResponse) : Prop := {
  valid_faceAnnotations :
    Forall (fun f => optional_unit (detectionConfidence f))
           (or_nil (faceAnnotations result));
  valid_labelAnnotations :
    Forall (fun l => optional_unit (entity_score l)) (or_nil (labelAnnotations result));
  valid_landmarkAnnotations :
    Forall (fun l => optional_unit (entity_score l)) (or_nil (landmarkAnnotations result));
  valid_dominantColors :
    Forall (fun c => optional_unit (info_pixelFraction c))
           (or_nil (response_colors result));
  valid_webEntities :
    Forall valid_web_entity
           (or_nil (webEntities (match response_webDetection result with
                                 | Some w => w
                                 | None => emptyWebDetection
                                 end)))
}.

(** A dominant colour with finite components and a pixel fraction in the
    unit interval. *)
Definition valid_color (c : Color) : Prop :=
  is_finite (red (color c)) = true /\
  is_finite (green (color c)) = true /\
  is_finite (blue (color c)) = true /\
  in_unit (pixelFraction c).

(** ** Sample inputs *)

Definition black (fraction : Q) : Color :=
  {| color := {| red := 0; green := 0; blue := 0 |};
     color_score := 0.5;
     pixelFraction := fraction |}.

(** Two dominant colours, each covering half of the pixels. *)
Definition two_halves : list Color := [black 0.5; black 0.5].

Definition response_of (fs : option (list FaceAnnotation))
    (properties : option GoogleImageProperties) : AnnotateImageResponse :=
  {| faceAnnotations := fs;
     labelAnnotations := None;
     landmarkAnnotations := None;
     localizedObjectAnnotations := None;
     imagePropertiesAnnotation := properties;
     response_webDetection := None |}.

(** A detected face with the given likelihood of being blurred. *)
Definition face_with_blur (l : Likelihood) : FaceAnnotation :=
  {| face_boundingPoly := None;
     joyLikelihood := Some POSSIBLE;
     sorrowLikelihood := Some VERY_UNLIKELY;
     angerLikelihood := Some VERY_UNLIKELY;
     surpriseLikelihood := Some VERY_UNLIKELY;
     blurredLikelihood := Some l;
     headwearLikelihood := Some VERY_UNLIKELY;
     detectionConfidence := Some (Fin 0.9) |}.

(** One sharp face and no dominant-colour data. *)
Definition one_face_no_colors : AnnotateImageResponse :=
  response_of (Some [face_with_blur VERY_UNLIKELY]) None.

(** A sharp face, a blurred face and no dominant-colour data. *)
Definition two_faces_no_colors : AnnotateImageResponse :=
  response_of (Some [face_with_blur VERY_UNLIKELY; face_with_blur VERY_LIKELY]) None.

Definition grey : ColorInfo :=
  {| info_color := Some {| g_red := Some (Fin 128); g_green := Some (Fin 128);
                           g_blue := Some (Fin 128) |};
     info_score := Some (Fin 1);
     info_pixelFraction := Some (Fin 1) |}.

(** One dominant colour; no face, landmark or object. *)
Definition one_color_only : AnnotateImageResponse :=
  response_of None (Some {| g_dominantColors := Some {| colors := Some [grey] |} |}).

(** A face whose bounding polygon is the whole frame, in coordinates
    from 0 to 1, and one dominant colour. *)
Definition corner (x y : Q) : Vertex :=
  {| vertex_x := Some (Fin x); vertex_y := Some (Fin y) |}.

Definition full_frame_face : AnnotateImageResponse :=
  response_of
    (Some [{| face_boundingPoly :=
                Some {| vertices := Some [corner 0 0; corner 1 0; corner 1 1; corner 0 1] |};
              joyLikelihood := Some POSSIBLE;
              sorrowLikelihood := Some VERY_UNLIKELY;
              angerLikelihood := Some VERY_UNLIKELY;
              surpriseLikelihood := Some VERY_UNLIKELY;
              blurredLikelihood := Some VERY_UNLIKELY;
              headwearLikelihood := Some VERY_UNLIKELY;
              detectionConfidence := Some (Fin 0.9) |}])
    (Some {| g_dominantColors := Some {| colors := Some [grey] |} |}).

(** One face that shows sorrow and anger, and no joy or surprise. *)
Definition sorrow_and_anger : AnnotateImageResponse :=
  response_of
    (Some [{| face_boundingPoly := None;
              joyLikelihood := Some VERY_UNLIKELY;
              sorrowLikelihood := Some VERY_LIKELY;
              angerLikelihood := Some VERY_LIKELY;
              surpriseLikelihood := Some VERY_UNLIKELY;
              blurredLikelihood := Some VERY_UNLIKELY;
              headwearLikelihood := Some VERY_UNLIKELY;
              detectionConfidence := Some (Fin 0.9) |}])
    (Some {| g_dominantColors := Some {| colors := Some [grey; grey] |} |}).

Definition joyful_face : FaceAnnotation :=
  {| face_boundingPoly := None;
     joyLikelihood := Some VERY_LIKELY;
     sorrowLikelihood := Some VERY_UNLIKELY;
     angerLikelihood := Some VERY_UNLIKELY;
     surpriseLikelihood := Some VERY_UNLIKELY;
     blurredLikelihood := Some VERY_UNLIKELY;
     headwearLikelihood := Some VERY_UNLIKELY;
     detectionConfidence := Some (Fin 1) |}.

(** Three joyful faces at a located landmark, a wedding label and a
    described web entity, each detected with full confidence. *)
Definition festive : AnnotateImageResponse :=
  {| faceAnnotations := Some [joyful_face; joyful_face; joyful_face];
     labelAnnotations :=
       Some [{| entity_description := Some "Wedding";
                entity_score := Some (Fin 1);
                entity_topicality := Some (Fin 1);
                entity_boundingPoly := None;
                entity_locations := None |}];
     landmarkAnnotations :=
       Some [{| entity_description := Some "Eiffel Tower";
                entity_score := Some (Fin 1);
                entity_topicality := None;
                entity_boundingPoly := None;
                entity_locations :=
                  Some [{| latLng := Some {| latLng_latitude := Some (Fin 48.858);
                                             latLng_longitude := Some (Fin 2.294) |} |}] |}];
     localizedObjectAnnotations := None;
     imagePropertiesAnnotation :=
       Some {| g_dominantColors := Some {| colors := Some [grey; grey] |} |};
     response_webDetection :=
       Some {| webEntities :=
                 Some [{| entityId := Some (Some "/m/02j81");
                          web_score := Some (Fin 1);
                          web_description := Some "Eiffel Tower" |}];
               visuallySimilarImages := None;
               partialMatchingImages := None |} |}.

(** A photo without a location, taken at the given time. *)
Definition photo_at (name : string) (t : Z) : Photo :=
  {| id := name; url := "https://photos.example/" ++ name; dateTime := t;
     photo_location := None |}.

(** The response for a beach photo whose label has the given score. *)
Definition beach_response (label_score : Q) : AnnotateImageResponse :=
  {| faceAnnotations := None;
     labelAnnotations :=
       Some [{| entity_description := Some "Beach";
                entity_score := Some (Fin label_score);
                entity_topicality := Some (Fin label_score);
                entity_boundingPoly := None;
                entity_locations := None |}];
     landmarkAnnotations := None;
     localizedObjectAnnotations := None;
     imagePropertiesAnnotation := None;
     response_webDetection :=
       Some {| webEntities :=
                 Some [{| entityId := Some (Some "/m/0b3yr");
                          web_score := Some (Fin 0.5);
                          web_description := Some "Beach" |}];
               visuallySimilarImages := None;
               partialMatchingImages := None |} |}.

(** An annotation service that knows two beach photos, ["A"] and ["B"],
    and rejects every other photo. *)
Definition beach_service (p : Photo) : Thrown + option AnnotateImageResponse :=
  if String.eqb (id p) "A" then inr (Some (beach_response 0.8))
  else if String.eqb (id p) "B" then inr (Some (beach_response 0.9))
  else inl (ThrownValue "503 Service Unavailable").

Definition new_selector : Selector :=
  {| photos := []; labelFrequencies := {| individual := ∅; combinations := ∅ |} |}.

(** The selector after [addPhotos] of ["A"], taken at 110 ms, and ["B"],
    taken at 150 ms. *)
Definition beach_selector : Selector :=
  fst (addPhotos beach_service new_selector [photo_at "A" 110; photo_at "B" 150]).

Definition beach_options : HighlightOptions :=
  {| limit := 3;
     timeRange := {| range_start := 0; range_end := 1000 |};
     minQuality := 0;
     preferredTypes := [];
     weights := None |}.

(** The same options with a negative limit. *)
Definition negative_limit_options : HighlightOptions :=
  {| limit := -1;
     timeRange := {| range_start := 0; range_end := 1000 |};
     minQuality := 0;
     preferredTypes := [];
     weights := None |}.

(** The same options over the single instant at which ["A"] was taken. *)
Definition instant_options : HighlightOptions :=
  {| limit := 3;
     timeRange := {| range_start := 110; range_end := 110 |};
     minQuality := 0;
     preferredTypes := [];
     weights := None |}.

(** The beach photo ["A"] as [addPhotos] stores it. *)
Definition beach_photo : EnhancedPhoto :=
  {| photo := photo_at "A" 110;
     analysis := analysis_of (beach_response 0.8);
     scores := None |}.

(** ** Loops and predicates of the grouping and selection properties *)

(** The photos of the groups, in group order. *)
Definition grouped (groups : list (string * list EnhancedPhoto)) : list EnhancedPhoto :=
  concat (map snd groups).

(** The body of the inner loop of [groupSimilarPhotos] for the anchor
    [p], and the body of its outer loop over [photos]. *)
Definition group_member_step (calculateDistance : Location -> Location -> num)
    (p : EnhancedPhoto) (state : list EnhancedPhoto * gset string)
    (otherPhoto : EnhancedPhoto) : list EnhancedPhoto * gset string :=
  let '(similarPhotos, processedIds) := state in
  if String.eqb (id (photo p)) (id (photo otherPhoto))
     || has processedIds (id (photo otherPhoto))
  then (similarPhotos, processedIds)
  else if checkPhotoSimilarity calculateDistance p otherPhoto
  then (similarPhotos ++ [otherPhoto], processedIds ∪ {[id (photo otherPhoto)]})
  else (similarPhotos, processedIds).

Definition group_step (calculateDistance : Location -> Location -> num)
    (photos : list EnhancedPhoto)
    (state : list (string * list EnhancedPhoto) * gset string) (p : EnhancedPhoto)
  : list (string * list EnhancedPhoto) * gset string :=
  let '(groups, processedIds) := state in
  if has processedIds (id (photo p)) then (groups, processedIds)
  else
    let '(similarPhotos, processedIds) :=
      fold_left (group_member_step calculateDistance p) photos
                ([p], processedIds ∪ {[id (photo p)]}) in
    (map_set (id (photo p)) similarPhotos groups, processedIds).

(** A group led by its anchor: the key is the id of the first photo, and
    every photo after it was found similar to it. *)
Definition anchored (similar : EnhancedPhoto -> EnhancedPhoto -> bool)
    (group : string * list EnhancedPhoto) : Prop :=
  match snd group with
  | [] => False
  | p :: rest =>
      id (photo p) = fst group /\ Forall (fun q => similar p q = true) rest
  end.

(** What the outer loop of [groupSimilarPhotos] keeps: no id occurs twice
    among the groups, the processed ids are the ids of the grouped photos,
    every group is led by its anchor, and every grouped photo comes from
    [photos]. *)
Definition grouping_invariant (similar : EnhancedPhoto -> EnhancedPhoto -> bool)
    (photos : list EnhancedPhoto)
    (state : list (string * list EnhancedPhoto) * gset string) : Prop :=
  NoDup (ids (grouped (fst state))) /\
  (forall k, k ∈ snd state <-> k ∈ ids (grouped (fst state))) /\
  Forall (anchored similar) (fst state) /\
  Forall (fun q => q ∈ photos) (grouped (fst state)).

(** A list of photos in which each one passed the diversity test against
    all the photos before it. *)
Definition accepted_in_turn (similar : EnhancedPhoto -> EnhancedPhoto -> bool)
    (selected : list EnhancedPhoto) : Prop :=
  forall earlier p later,
    selected = earlier ++ p :: later ->
    forallb (fun q => negb (similar p q)) earlier = true.

(** Numbers in non-increasing order. *)
Fixpoint descending (xs : list num) : Prop :=
  match xs with
  | [] => True
  | x :: tl => Forall (fun y => (x <? y) = false) tl /\ descending tl
  end.

(** [n] time buckets of [d] milliseconds each, laid end to end from the
    time [t]. *)
Fixpoint tiles (n : nat) (t d : Z) : list TimeBucket :=
  match n with
  | O => []
  | S n' => {| bucket_start := t; bucket_end := t + d |} :: tiles n' (t + d) d
  end.

(** ** Outcomes of a batch and label counts *)

(** The photos of a batch that [analyzePhoto] analyses, and the ones it
    rejects with their errors, each in batch order. *)
Fixpoint analysed (annotateImage : Photo -> Thrown + option AnnotateImageResponse)
    (ps : list Photo) : list EnhancedPhoto :=
  match ps with
  | [] => []
  | p :: rest =>
      match analyzePhoto annotateImage p with
      | inr enhancedPhoto => enhancedPhoto :: analysed annotateImage rest
      | inl _ => analysed annotateImage rest
      end
  end.

Fixpoint rejected (annotateImage : Photo -> Thrown + option AnnotateImageResponse)
    (ps : list Photo) : list (Photo * Error) :=
  match ps with
  | [] => []
  | p :: rest =>
      match analyzePhoto annotateImage p with
      | inr _ => rejected annotateImage rest
      | inl error => (p, as_Error error) :: rejected annotateImage rest
      end
  end.

(** The key of a pair of labels in the table of combinations. *)
Definition pair_key (pair : Label * Label) : string :=
  combination_key (description (fst pair)) (description (snd pair)).

(** How many labels of a photo carry the description [d], and how many
    pairs of its labels have the combination key [combo]. *)
Definition label_count (d : string) (labels : list Label) : nat :=
  length (List.filter (fun label => String.eqb (description label) d) labels).

Definition pair_count (combo : string) (labels : list Label) : nat :=
  length (List.filter (fun pair => String.eqb (pair_key pair) combo) (index_pairs labels)).

(** The same counts over all the photos of a pool. *)
Definition pool_label_count (d : string) (pool : list EnhancedPhoto) : nat :=
  fold_right (fun p n => (label_count d (labels (analysis p)) + n)%nat) 0%nat pool.

Definition pool_pair_count (combo : string) (pool : list EnhancedPhoto) : nat :=
  fold_right (fun p n => (pair_count combo (labels (analysis p)) + n)%nat) 0%nat pool.

(** The frequency tables of a selector count the labels of its pool. *)
Definition frequencies_match_pool (this : Selector) : Prop :=
  (forall d, default 0%nat (individual (labelFrequencies this) !! d) =
             pool_label_count d (photos this)) /\
  (forall combo, default 0%nat (combinations (labelFrequencies this) !! combo) =
                 pool_pair_count combo (photos this)).

(** ** Colour and vertex data of a response *)

(** A colour entry whose channels and pixel fraction, where they are
    present, are finite numbers. *)
Definition finite_color_info (c : ColorInfo) : Prop :=
  exists r g b f : Q,
    opt_or (g_red (color_of c)) 0 = Fin r /\
    opt_or (g_green (color_of c)) 0 = Fin g /\
    opt_or (g_blue (color_of c)) 0 = Fin b /\
    opt_or (info_pixelFraction c) 0 = Fin f.

(** A colour entry with channels from 0 to 255 and a pixel fraction that
    is not negative. *)
Definition valid_color_info (c : ColorInfo) : Prop :=
  exists r g b f : Q,
    opt_or (g_red (color_of c)) 0 = Fin r /\
    opt_or (g_green (color_of c)) 0 = Fin g /\
    opt_or (g_blue (color_of c)) 0 = Fin b /\
    opt_or (info_pixelFraction c) 0 = Fin f /\
    0 <= r <= 255 /\ 0 <= g <= 255 /\ 0 <= b <= 255 /\ 0 <= f.

(** A vertex whose coordinates, where they are present, are finite, and
    the coordinates as [convertBoundingPoly] reads them. *)
Definition vertex_at (v : Vertex) (x y : Q) : Prop :=
  opt_or (vertex_x v) 0 = Fin x /\ opt_or (vertex_y v) 0 = Fin y.

Definition finite_vertex (v : Vertex) : Prop := exists x y : Q, vertex_at v x y.

(** The vertices of a bounding polygon that may be absent. *)
Definition poly_vertices (poly : option BoundingPoly) : list Vertex :=
  match poly with
  | Some {| vertices := Some vs |} => vs
  | _ => []
  end.

(** A response in which every bounding polygon has finite vertices. *)
Definition finite_subjects (result : AnnotateImageResponse) : Prop :=
  Forall (fun face => Forall finite_vertex (poly_vertices (face_boundingPoly face)))
         (or_nil (faceAnnotations result)) /\
  Forall (fun landmark => Forall finite_vertex (poly_vertices (entity_boundingPoly landmark)))
         (or_nil (landmarkAnnotations result)) /\
  Forall (fun object => Forall finite_vertex (poly_vertices (object_boundingPoly object)))
         (or_nil (localizedObjectAnnotations result)).

(** A box with finite sides that are not negative. *)
Definition proper_box (box : BoundingBox) : Prop :=
  exists l t w h : Q,
    box = {| box_left := l; box_top := t; box_width := w; box_height := h |} /\
    0 <= w /\ 0 <= h.

(** A response whose dominant colours, if it has any, are finite. *)
Definition finite_color_data (result : AnnotateImageResponse) : Prop :=
  Forall finite_color_info (or_nil (response_colors result)).

(** A response whose dominant colours, if it has any, have channels from
    0 to 255 and pixel fractions that are not negative. *)
Definition valid_color_data (result : AnnotateImageResponse) : Prop :=
  Forall valid_color_info (or_nil (response_colors result)).

(** A colour entry in the ranges of the vision service: channels from 0
    to 255 and a pixel fraction from 0 to 1.  On such entries no sum or
    product of the quality metrics leaves the range of a double. *)
Definition ranged_color_info (c : ColorInfo) : Prop :=
  exists r g b f : Q,
    opt_or (g_red (color_of c)) 0 = Fin r /\
    opt_or (g_green (color_of c)) 0 = Fin g /\
    opt_or (g_blue (color_of c)) 0 = Fin b /\
    opt_or (info_pixelFraction c) 0 = Fin f /\
    0 <= r <= 255 /\ 0 <= g <= 255 /\ 0 <= b <= 255 /\ 0 <= f <= 1.

Definition ranged_color_data (result : AnnotateImageResponse) : Prop :=
  Forall ranged_color_info (or_nil (response_colors result)).

(** A vertex with coordinates of at most [2^53] in magnitude: positions
    in an image, far from the range in which a width, an area or a
    squared distance overflows. *)
Definition max_coordinate : Q := inject_Z (2 ^ 53).

Definition ranged_vertex (v : Vertex) : Prop :=
  exists x y : Q,
    vertex_at v x y /\ Qabs x <= max_coordinate /\ Qabs y <= max_coordinate.

(** A response in which every bounding polygon has such vertices. *)
Definition ranged_subjects (result : AnnotateImageResponse) : Prop :=
  Forall (fun face => Forall ranged_vertex (poly_vertices (face_boundingPoly face)))
         (or_nil (faceAnnotations result)) /\
  Forall (fun landmark => Forall ranged_vertex (poly_vertices (entity_boundingPoly landmark)))
         (or_nil (landmarkAnnotations result)) /\
  Forall (fun object => Forall ranged_vertex (poly_vertices (object_boundingPoly object)))
         (or_nil (localizedObjectAnnotations result)).

(** The sum of the pixel fractions of the colour entries of a response. *)
Definition info_fraction_total (cs : list ColorInfo) : Q :=
  fold_right (fun c total => (value (opt_or (info_pixelFraction c) 0) + total)%Q) 0 cs.

(** A photo whose dominant colours are valid and cover the image once
    at most. *)
Definition valid_palette (p : EnhancedPhoto) : Prop :=
  Forall valid_color (dominantColors (imageProperties (analysis p))) /\
  fraction_total (dominantColors (imageProperties (analysis p))) <= 1.

(** The second beach photo of the sample pool, as [addPhotos] stores it. *)
Definition second_beach_photo : EnhancedPhoto :=
  {| photo := photo_at "B" 150;
     analysis := analysis_of (beach_response 0.9);
     scores := None |}.

(** A response with a face, two dominant colours and nothing else. *)
Definition portrait : AnnotateImageResponse :=
  response_of (Some [joyful_face])
              (Some {| g_dominantColors := Some {| colors := Some [grey; grey] |} |}).

(** ** Text

    A text of ASCII characters: each of its characters is below 128. *)
Definition ascii_text (s : string) : Prop :=
  forallb (fun a => (nat_of_ascii a <? 128)%nat) (list_ascii_of_string s) = true.

(** ** The driver script

    [selectHighlightsFromUrls] once it has built its photos: it adds them
    to a new selector and asks for ten highlights over the time from the
    earliest photo to the latest.  With no photo, or with a photo whose
    date is invalid, the bounds of the range are invalid dates. *)
Definition script_options (photos : list Photo) : HighlightOptions :=
  {| limit := 10;
     timeRange :=
       {| range_start :=
            new_Date (Math_min_list (map (fun p => getTime (dateTime p)) photos));
          range_end :=
            new_Date (Math_max_list (map (fun p => getTime (dateTime p)) photos)) |};
     minQuality := 0.6;
     preferredTypes := ["person"; "landscape"; "food"; "architecture"]%string;
     weights :=
       Some {| w_quality := Some (Fin 0.3);
               w_interest := Some (Fin 0.2);
               w_emotion := Some (Fin 0.15);
               w_uniqueness := Some (Fin 0.15);
               w_relevance := Some (Fin 0.1);
               w_temporal := Some (Fin 0.1) |} |}.

Definition selectHighlightsFromPhotos
    (annotateImage : Photo -> Thrown + option AnnotateImageResponse)
    (calculateDistance : Location -> Location -> num)
    (fuel : nat) (photos : list Photo) : outcome (list EnhancedPhoto) :=
  let '(highlightSelector, processingResult) :=
    addPhotos annotateImage new_selector photos in
  selectHighlights calculateDistance fuel highlightSelector (script_options photos).

(** A highlight with a capture time inside the range and a temporal
    score from 0.5 to 1. *)
Definition placed_in (range : TimeRange) (highlight : EnhancedPhoto) : Prop :=
  within_range (dateTime (photo highlight)) range /\
  exists s, scores highlight = Some s /\ between 0.5 1 (score_temporal s).

(** ** The selection pass in memory

    The definitions above take the arrays of the engine as values.  Here
    the arrays of photos live in a memory, each under its own reference,
    as the objects of the engine do: [push] and [sort] change an array in
    place, for every holder of its reference, while an array literal,
    [map], [filter] and [slice] make a new array.  The pool
    [this.photos] is one of the arrays, and the two frequency tables are
    part of the memory; the selection reads them and has no statement
    that writes to them.  A [forEach] reads the elements of its array
    when it starts.  No statement of the engine assigns to a property of
    a photo (the scored photos are new objects), so the photos in the
    arrays are values.  The maps and sets that a call makes for itself
    ([groups], [eligible], [usedGroups], [processedIds]) are the state
    of its loops. *)

Definition ref : Type := nat.

Record Memory := {
  arrays : list (list EnhancedPhoto);
  tables : LabelFrequencies
}.

(** A computation that reads and changes the memory. *)
Definition Mem (A : Type) : Type := Memory -> outcome (A * Memory).

#[global] Instance mem_ret : MRet Mem := fun A a memory => Returns (a, memory).

#[global] Instance mem_bind : MBind Mem :=
  fun A B (k : A -> Mem B) (c : Mem A) memory =>
    match c memory with
    | Returns (a, memory') => k a memory'
    | Raises => Raises
    | OutOfFuel => OutOfFuel
    end.

(** The result of a computation that does not touch the memory. *)
Definition lift {A} (o : outcome A) : Mem A :=
  fun memory =>
    match o with
    | Returns a => Returns (a, memory)
    | Raises => Raises
    | OutOfFuel => OutOfFuel
    end.

(** The elements of the array under a reference. *)
Definition content (memory : Memory) (r : ref) : list EnhancedPhoto :=
  default [] (arrays memory !! r).

Definition elements (r : ref) : Mem (list EnhancedPhoto) :=
  fun memory => Returns (content memory r, memory).

(** A new array. *)
Definition new_array (xs : list EnhancedPhoto) : Mem ref :=
  fun memory =>
    Returns (length (arrays memory),
             {| arrays := arrays memory ++ [xs]; tables := tables memory |}).

(** The array under [r], changed in place. *)
Definition update (r : ref) (change : list EnhancedPhoto -> list EnhancedPhoto) : Mem unit :=
  fun memory =>
    Returns (tt, {| arrays := <[r := change (content memory r)]> (arrays memory);
                    tables := tables memory |}).

(** [array.push(p)] and [array.sort(cmp)] *)
Definition push (r : ref) (p : EnhancedPhoto) : Mem unit :=
  update r (fun xs => xs ++ [p]).

Definition sort_in_place (r : ref) (cmp : EnhancedPhoto -> EnhancedPhoto -> num) : Mem unit :=
  update r (sort_by cmp).

(** [this.labelFrequencies], for reading. *)
Definition frequencies : Mem LabelFrequencies :=
  fun memory => Returns (tables memory, memory).

(** A loop over the elements [xs] with a state. *)
Fixpoint forEach {A S} (body : S -> A -> Mem S) (xs : list A) (state : S) : Mem S :=
  match xs with
  | [] => mret state
  | x :: rest => state ← body state x; forEach body rest state
  end.

(** The list that a call returns, read from the memory it leaves. *)
Definition returned (run : outcome (ref * Memory)) : outcome (list EnhancedPhoto) :=
  match run with
  | Returns (r, memory) => Returns (content memory r)
  | Raises => Raises
  | OutOfFuel => OutOfFuel
  end.

(** The groups of a [Map] from ids to arrays, with the arrays read from
    the memory. *)
Definition resolve (memory : Memory) (groups : list (string * ref))
  : list (string * list EnhancedPhoto) :=
  map (fun '(groupId, photos) => (groupId, content memory photos)) groups.

Section InMemory.

Variable calculateDistance : Location -> Location -> num.

Definition groupSimilarPhotos_mem (photos : ref) : Mem (list (string * ref)) :=
  all ← elements photos;
  '(groups, processedIds) ←
    forEach
      (fun '(groups, processedIds) p =>
         if has processedIds (id (photo p)) then mret (groups, processedIds)
         else
           similarPhotos ← new_array [p];
           others ← elements photos;
           processedIds ←
             forEach
               (fun processedIds otherPhoto =>
                  if String.eqb (id (photo p)) (id (photo otherPhoto))
                     || has processedIds (id (photo otherPhoto))
                  then mret processedIds
                  else if checkPhotoSimilarity calculateDistance p otherPhoto
                  then push similarPhotos otherPhoto;;
                       mret (processedIds ∪ {[id (photo otherPhoto)]})
                  else mret processedIds)
               others (processedIds ∪ {[id (photo p)]});
           mret (map_set (id (photo p)) similarPhotos groups, processedIds))
      all ([], ∅);
  mret groups.

Definition getEligibleGroupsForBucket_mem (groups : list (string * ref))
    (bucket : TimeBucket) (usedGroups : gset string) (minQuality : num)
  : Mem (list (string * ref)) :=
  forEach
    (fun eligible '(groupId, photos) =>
       if has usedGroups groupId then mret eligible
       else
         members ← elements photos;
         bucketPhotos ←
           new_array
             (List.filter
                (fun p =>
                   (getTime (dateTime (photo p)) >=? getTime (bucket_start bucket))
                   && (getTime (dateTime (photo p)) <=? getTime (bucket_end bucket))
                   && (quality_or_0 p >=? minQuality))
                members);
         kept ← elements bucketPhotos;
         if (0 <? length kept)%nat then mret (map_set groupId bucketPhotos eligible)
         else mret eligible)
    groups [].

(** The loop of [selectBestGroupsFromBucket]; [selections] is the array
    it pushes to. *)
Fixpoint selectBestGroups_loop_mem (sortedGroups : list (ref * num)) (count : num)
    (alreadySelected selections : ref) : Mem unit :=
  match sortedGroups with
  | [] => mret tt
  | group :: rest =>
      chosen ← elements selections;
      if of_nat (length chosen) >=? count then mret tt
      else
        members ← elements (fst group);
        match reduce1 (fun best current =>
                         if final_or_0 current >? final_or_0 best then current else best)
                      members with
        | None => lift Raises
        | Some bestPhoto =>
            already ← elements alreadySelected;
            chosen ← elements selections;
            if isPhotoDiverse calculateDistance bestPhoto (already ++ chosen)
            then push selections bestPhoto;;
                 selectBestGroups_loop_mem rest count alreadySelected selections
            else selectBestGroups_loop_mem rest count alreadySelected selections
        end
  end.

(** The array of the groups with their best scores is a new array of
    records; it holds no photos and is sorted where it is made. *)
Definition selectBestGroupsFromBucket_mem (eligibleGroups : list (string * ref))
    (count : num) (alreadySelected : ref) : Mem ref :=
  selections ← new_array [];
  scoredGroups ←
    forEach
      (fun scoredGroups photos =>
         members ← elements photos;
         mret (scoredGroups ++ [(photos, Math_max_list (map final_or_0 members))]))
      (map snd eligibleGroups) [];
  let sortedGroups := sort_by (fun a b => snd b - snd a) scoredGroups in
  selectBestGroups_loop_mem sortedGroups count alreadySelected selections;;
  mret selections.

Definition selectRemainingBestPhotos_mem (groups : list (string * ref))
    (usedGroups : gset string) (count : num) (minQuality : num) : Mem ref :=
  candidates ← new_array [];
  forEach
    (fun (_ : unit) '(groupId, photos) =>
       if negb (has usedGroups groupId)
       then
         members ← elements photos;
         fit ← new_array (List.filter (fun p => quality_or_0 p >=? minQuality) members);
         pushed ← elements fit;
         forEach (fun (_ : unit) p => push candidates p) pushed tt
       else mret tt)
    groups tt;;
  sort_in_place candidates (fun a b => final_or_0 b - final_or_0 a);;
  sorted ← elements candidates;
  new_array (slice0 count sorted).

Definition selectDiverseHighlights_mem (fuel : nat) (groups : list (string * ref))
    (options : HighlightOptions) : Mem ref :=
  timeBuckets ← lift (createTimeBuckets fuel (timeRange options));
  let photosPerBucket := Math_ceil (limit options / of_nat (length timeBuckets)) in
  selectedPhotos ← new_array [];
  usedGroups ←
    forEach
      (fun usedGroups bucket =>
         eligibleGroups ←
           getEligibleGroupsForBucket_mem groups bucket usedGroups (minQuality options);
         bucketSelections ←
           selectBestGroupsFromBucket_mem eligibleGroups photosPerBucket selectedPhotos;
         chosen ← elements bucketSelections;
         forEach
           (fun usedGroups p =>
              push selectedPhotos p;; mret (usedGroups ∪ {[id (photo p)]}))
           chosen usedGroups)
      timeBuckets ∅;
  selected ← elements selectedPhotos;
  (if of_nat (length selected) <? limit options
   then
     remainingSelections ←
       selectRemainingBestPhotos_mem groups usedGroups
         (limit options - of_nat (length selected)) (minQuality options);
     remaining ← elements remainingSelections;
     forEach (fun (_ : unit) p => push selectedPhotos p) remaining tt
   else mret tt);;
  selected ← elements selectedPhotos;
  new_array (slice0 (limit options) selected).

(** [selectHighlights] on the selector whose pool is the array under
    [pool]: the scored photos are a new array of new objects. *)
Definition selectHighlights_mem (fuel : nat) (pool : ref) (options : HighlightOptions)
  : Mem ref :=
  photos ← elements pool;
  labelFrequencies ← frequencies;
  scoredPhotos ←
    new_array (scoredPhotos {| photos := photos; labelFrequencies := labelFrequencies |}
                            options);
  groups ← groupSimilarPhotos_mem scoredPhotos;
  selectDiverseHighlights_mem fuel groups options.

End InMemory.

(** The memory of the beach selector: its pool is the array under the
    reference 0. *)
Definition beach_memory : Memory :=
  {| arrays := [photos beach_selector]; tables := labelFrequencies beach_selector |}.

(** * Properties *)

(** ** Numbers *)

Lemma num_eq_refl (x : num) : x =n= x.
Proof. destruct x; simpl; auto. reflexivity. Qed.

Lemma num_eq_sym (x y : num) : x =n= y -> y =n= x.
Proof. destruct x, y; simpl; auto. intros H; now symmetry. Qed.

Lemma num_eq_trans (x y z : num) : x =n= y -> y =n= z -> x =n= z.
Proof.
  destruct x, y, z; simpl; auto; try contradiction.
  intros H1 H2. now rewrite H1.
Qed.

Lemma Qeq_bool_false (b : Q) : ~ b == 0 -> Qeq_bool b 0 = false.
Proof.
  intros H. destruct (Qeq_bool b 0) eqn:E; auto.
  apply Qeq_bool_iff in E. contradiction.
Qed.

Lemma Qeq_bool_true (b : Q) : b == 0 -> Qeq_bool b 0 = true.
Proof. intros H. now apply Qeq_bool_iff. Qed.

Lemma div_fin (a b : Q) : ~ b == 0 -> (Fin a / Fin b)%js = Fin (a / b).
Proof. intros H. simpl. now rewrite Qeq_bool_false. Qed.

Lemma div_zero_zero (a b : Q) : a == 0 -> b == 0 -> (Fin a / Fin b)%js = NaN.
Proof.
  intros Ha Hb. simpl. rewrite Qeq_bool_true by assumption.
  now rewrite (proj1 (Qeq_alt a 0) Ha).
Qed.

Lemma div_pos_zero (a b : Q) : 0 < a -> b == 0 -> (Fin a / Fin b)%js = PInf.
Proof.
  intros Ha Hb. simpl. rewrite Qeq_bool_true by assumption.
  now rewrite (proj1 (Qgt_alt a 0) Ha).
Qed.

Lemma div_neg_zero (a b : Q) : a < 0 -> b == 0 -> (Fin a / Fin b)%js = NInf.
Proof.
  intros Ha Hb. simpl. rewrite Qeq_bool_true by assumption.
  now rewrite (proj1 (Qlt_alt a 0) Ha).
Qed.

Lemma add_NaN_l (x : num) : (NaN + x)%js = NaN.
Proof. now destruct x. Qed.

Lemma add_NaN_r (x : num) : (x + NaN)%js = NaN.
Proof. now destruct x. Qed.

Lemma mul_NaN_l (x : num) : (NaN * x)%js = NaN.
Proof. now destruct x. Qed.

Lemma lt_fin (a b : Q) : a < b -> (Fin a <? Fin b)%js = true.
Proof.
  intros H. simpl. destruct (Qle_bool b a) eqn:E; auto.
  apply Qle_bool_iff in E. lra.
Qed.

Lemma lt_fin_false (a b : Q) : b <= a -> (Fin a <? Fin b)%js = false.
Proof. intros H. simpl. now rewrite (proj2 (Qle_bool_iff b a) H). Qed.

Lemma add_num_eq (x x' y y' : num) :
  x =n= x' -> y =n= y' -> (x + y)%js =n= (x' + y')%js.
Proof.
  destruct x, x', y, y'; simpl; try contradiction; auto.
  intros H1 H2. now rewrite H1, H2.
Qed.

Lemma mul_num_eq (x x' y y' : num) :
  x =n= x' -> y =n= y' -> (x * y)%js =n= (x' * y')%js.
Proof.
  destruct x, x', y, y'; simpl; try contradiction; auto;
    intros H1 H2;
    try (rewrite H1; apply num_eq_refl);
    try (rewrite H2; apply num_eq_refl).
  now rewrite H1, H2.
Qed.

Lemma sum_app (xs ys : list num) :
  JS.sum (xs ++ ys) = fold_left JS.add ys (JS.sum xs).
Proof. unfold JS.sum. apply fold_left_app. Qed.

Lemma removelast_snoc {A} (xs : list A) (x : A) : removelast (xs ++ [x]) = xs.
Proof. apply removelast_last. Qed.

Lemma last_snoc {A} (xs : list A) (x d : A) : List.last (xs ++ [x]) d = x.
Proof. apply last_last. Qed.

Lemma below_unit (x : num) (q : Q) : x =n= Fin q -> q < 0 -> ~ in_unit x.
Proof.
  destruct x; unfold in_unit; simpl; try tauto.
  intros E Hq [H _]. rewrite E in H. lra.
Qed.

Lemma above_unit (x : num) (q : Q) : x =n= Fin q -> 1 < q -> ~ in_unit x.
Proof.
  destruct x; unfold in_unit; simpl; try tauto.
  intros E Hq [_ H]. rewrite E in H. lra.
Qed.

(** ** Maps and sorting *)

Lemma map_set_Forall {V} (P : string * V -> Prop) (k : string) (v : V)
    (m : list (string * V)) :
  P (k, v) -> Forall P m -> Forall P (map_set k v m).
Proof.
  intros Hv Hm. induction Hm as [|[k' v'] m Hx Hm IH]; simpl.
  - now constructor.
  - destruct (String.eqb k k'); constructor; auto.
Qed.

Lemma sort_insert_Forall {A} (P : A -> Prop) (cmp : A -> A -> num) (x : A)
    (sorted : list A) :
  P x -> Forall P sorted -> Forall P (sort_insert cmp x sorted).
Proof.
  intros Hx Hs. induction Hs as [|y tl Hy Htl IH]; cbn [sort_insert].
  - now constructor.
  - destruct (JS.gt (cmp x y) 0); repeat constructor; assumption.
Qed.

Lemma sort_by_Forall {A} (P : A -> Prop) (cmp : A -> A -> num) (xs : list A) :
  Forall P xs -> Forall P (sort_by cmp xs).
Proof.
  intros H. induction H as [|x xs Hx Hxs IH]; simpl.
  - constructor.
  - now apply sort_insert_Forall.
Qed.

Lemma fold_left_invariant {A B} (P : A -> Prop) (f : A -> B -> A) (xs : list B) (a : A) :
  P a -> (forall a x, P a -> P (f a x)) -> P (fold_left f xs a).
Proof.
  intros Ha Hf. revert a Ha. induction xs as [|x xs IH]; intros a Ha; simpl; auto.
Qed.

(** The square root is exact on squares and never above the root. *)
Lemma Qsqrt_square (q : Q) : 0 <= q -> Qsqrt (q * q) == q.
Proof.
  intros H. destruct q as [n d]. unfold Qle in H. cbn in H.
  assert (Hn : (0 <= n)%Z) by lia.
  unfold Qsqrt, Qeq. cbn [Qnum Qden Qmult].
  replace (n * n * Z.pos (d * d) * (Z.pos sqrt_scale * Z.pos sqrt_scale))%Z
    with ((n * Z.pos d * Z.pos sqrt_scale) * (n * Z.pos d * Z.pos sqrt_scale))%Z
    by (rewrite Pos2Z.inj_mul; ring).
  rewrite Z.sqrt_square by (repeat apply Z.mul_nonneg_nonneg; lia).
  rewrite !Pos2Z.inj_mul. ring.
Qed.

Lemma Qsqrt_nonneg (q : Q) : 0 <= Qsqrt q.
Proof.
  unfold Qsqrt, Qle. cbn [Qnum Qden]. rewrite Z.mul_1_r.
  apply Z.sqrt_nonneg.
Qed.

Lemma Qsqrt_below_root (q : Q) : 0 <= q -> Qsqrt q * Qsqrt q <= q.
Proof.
  intros H. destruct q as [n d]. unfold Qle in H. cbn in H.
  assert (Hn : (0 <= n)%Z) by lia.
  unfold Qsqrt, Qle. cbn [Qnum Qden Qmult].
  set (s := Z.pos sqrt_scale). set (m := (n * Z.pos d * (s * s))%Z).
  assert (Hm : (0 <= m)%Z) by (unfold m, s; repeat apply Z.mul_nonneg_nonneg; lia).
  pose proof (Z.sqrt_spec m Hm) as [Hlo _].
  rewrite !Pos2Z.inj_mul. fold s.
  transitivity (m * Z.pos d)%Z.
  - apply Z.mul_le_mono_nonneg_r; [lia|]. exact Hlo.
  - unfold m. apply Z.eq_le_incl. ring.
Qed.

Lemma sort_insert_perm {A} (cmp : A -> A -> num) (x : A) (sorted : list A) :
  Permutation (x :: sorted) (sort_insert cmp x sorted).
Proof.
  induction sorted as [|y tl IH]; cbn [sort_insert]; [reflexivity|].
  destruct (JS.gt (cmp x y) 0); [|reflexivity].
  rewrite perm_swap. now constructor.
Qed.

Lemma sort_by_perm {A} (cmp : A -> A -> num) (xs : list A) :
  Permutation xs (sort_by cmp xs).
Proof.
  induction xs as [|x xs IH]; cbn; [constructor|].
  rewrite <- sort_insert_perm. now constructor.
Qed.

(** ** Bounds *)

Lemma between_fin (lo hi : Q) (x : num) :
  between lo hi x -> exists q, x = Fin q /\ lo <= q <= hi.
Proof. destruct x; simpl; try tauto. intros H. now exists q. Qed.

Lemma between_weaken (lo hi lo' hi' : Q) (x : num) :
  between lo hi x -> lo' <= lo -> hi <= hi' -> between lo' hi' x.
Proof. destruct x; simpl; try tauto. intros; lra. Qed.

Lemma between_add (a b c d : Q) (x y : num) :
  between a b x -> between c d y -> between (a + c) (b + d) (x + y).
Proof. destruct x, y; simpl; try tauto. intros; lra. Qed.

Lemma between_scale (lo hi k : Q) (x : num) :
  0 <= k -> between lo hi x -> between (lo * k) (hi * k) (x * Fin k).
Proof. destruct x; simpl; try tauto. intros; nra. Qed.

Lemma between_mul (a b : Q) (x y : num) :
  between 0 a x -> between 0 b y -> between 0 (a * b) (x * y).
Proof. destruct x, y; simpl; try tauto. intros; nra. Qed.

Lemma Math_min_fin (a b : Q) :
  exists c, Math_min (Fin a) (Fin b) = Fin c /\ c <= a /\ c <= b /\ (c = a \/ c = b).
Proof.
  unfold Math_min, JS.lt. destruct (Qle_bool a b) eqn:E; cbn [negb].
  - apply Qle_bool_iff in E. exists a. repeat split; auto; lra.
  - exists b. repeat split; auto; try lra.
    destruct (Qlt_le_dec b a) as [H|H]; [lra|].
    apply Qle_bool_iff in H. congruence.
Qed.

Lemma Math_max_fin (a b : Q) :
  exists c, Math_max (Fin a) (Fin b) = Fin c /\ a <= c /\ b <= c /\ (c = a \/ c = b).
Proof.
  unfold Math_max, JS.lt. destruct (Qle_bool b a) eqn:E; cbn [negb].
  - apply Qle_bool_iff in E. exists a. repeat split; auto; lra.
  - exists b. repeat split; auto; try lra.
    destruct (Qlt_le_dec a b) as [H|H]; [lra|].
    apply Qle_bool_iff in H. congruence.
Qed.

Lemma between_min (lo hi cap : Q) (x : num) :
  between lo hi x -> lo <= cap -> between lo cap (Math_min x (Fin cap)).
Proof.
  intros H Hc. apply between_fin in H as (q & -> & Hq).
  destruct (Math_min_fin q cap) as (c & -> & H1 & H2 & [-> | ->]); simpl; lra.
Qed.

Lemma between_max (lo hi x0 : Q) (x y : num) :
  between lo hi x -> between lo hi y -> between lo hi (Math_max x y).
Proof.
  intros Hx Hy. apply between_fin in Hx as (a & -> & Ha).
  apply between_fin in Hy as (b & -> & Hb).
  destruct (Math_max_fin a b) as (c & -> & H1 & H2 & [-> | ->]); simpl; lra.
Qed.

Lemma of_nat_pos (n : nat) : n <> 0%nat -> 0 < inject_Z (Z.of_nat n).
Proof. intros H. change 0 with (inject_Z 0). rewrite <- Zlt_Qlt. lia. Qed.

Lemma div_of_nat (q : Q) (n : nat) :
  n <> 0%nat -> Fin q / of_nat n = Fin (q / inject_Z (Z.of_nat n)).
Proof.
  intros H. unfold of_nat, of_Z. apply div_fin.
  pose proof (of_nat_pos n H). lra.
Qed.

Lemma inject_nat_succ (n : nat) :
  inject_Z (Z.of_nat (S n)) == inject_Z (Z.of_nat n) + 1.
Proof. rewrite Nat2Z.inj_succ. unfold Z.succ. now rewrite inject_Z_plus. Qed.

(** A sum of numbers between [0] and [M] grows by at most [M] a term. *)
Lemma sum_from_between (M : Q) (xs : list num) (a : Q) :
  Forall (between 0 M) xs ->
  exists q, fold_left JS.add xs (Fin a) = Fin q /\
            a <= q <= a + M * inject_Z (Z.of_nat (length xs)).
Proof.
  intros H. revert a. induction H as [|x xs Hx Hxs IH]; intros a.
  - exists a. split; [reflexivity|].
    cbn [length]. change (inject_Z (Z.of_nat 0)) with 0. lra.
  - apply between_fin in Hx as (v & -> & Hv).
    cbn [fold_left JS.add]. destruct (IH (a + v)%Q) as (q & -> & Hq).
    exists q. split; [reflexivity|].
    cbn [length]. rewrite inject_nat_succ. nra.
Qed.

Lemma sum_between (M : Q) (xs : list num) :
  Forall (between 0 M) xs ->
  between 0 (M * inject_Z (Z.of_nat (length xs))) (JS.sum xs).
Proof.
  intros H. destruct (sum_from_between M xs 0 H) as (q & Hq & Hb).
  unfold JS.sum. rewrite Hq. simpl. lra.
Qed.

Lemma average_between (M : Q) (xs : list num) :
  xs <> [] -> Forall (between 0 M) xs ->
  between 0 M (JS.sum xs / of_nat (length xs)).
Proof.
  intros Hne H. pose proof (sum_between M xs H) as Hs.
  apply between_fin in Hs as (q & -> & Hq).
  assert (Hn : length xs <> 0%nat) by (destruct xs; [contradiction | discriminate]).
  rewrite div_of_nat by assumption.
  pose proof (of_nat_pos _ Hn) as Hp. simpl.
  set (n := inject_Z (Z.of_nat (length xs))) in *.
  split.
  - apply Qle_shift_div_l; lra.
  - apply Qle_shift_div_r; lra.
Qed.

Lemma fold_add_map {A} (f : A -> num) (xs : list A) (a : num) :
  fold_left (fun acc x => acc + f x) xs a = fold_left JS.add (map f xs) a.
Proof. revert a. induction xs as [|x xs IH]; intros a; simpl; auto. Qed.

Lemma length_zero_eqb {A} (xs : list A) : (length xs =? 0)%nat = false -> xs <> [].
Proof. destruct xs; [discriminate | discriminate]. Qed.

(** ** Doubles *)

Lemma pow2_pos (e : Z) : 0 < pow2 e.
Proof. apply Qpower_0_lt. reflexivity. Qed.

Lemma pow2_plus (a b : Z) : pow2 (a + b) == pow2 a * pow2 b.
Proof. apply Qpower_plus. discriminate. Qed.

Lemma pow2_of_Z (k : Z) : (0 <= k)%Z -> pow2 k == inject_Z (2 ^ k).
Proof. intros H. symmetry. now apply Zpower_Qpower. Qed.

Lemma pow2_le (a b : Z) : (a <= b)%Z -> pow2 a <= pow2 b.
Proof. intros H. apply Qpower_le_compat_l; [assumption | discriminate]. Qed.

(** [binade q] is not above the binary logarithm of [q]. *)
Lemma binade_below (q : Q) : 0 < q -> pow2 (binade q) <= q.
Proof.
  intros Hq. unfold binade.
  set (a := Z.log2 (Qnum q)). set (b := Z.log2 (Zpos (Qden q))).
  destruct (Qle_bool (pow2 (a - b)) q) eqn:E; [now apply Qle_bool_iff|].
  destruct q as [n d]. cbn [Qnum Qden] in *.
  assert (Hn : (0 < n)%Z) by (unfold Qlt in Hq; simpl in Hq; lia).
  destruct (Z.log2_spec n Hn) as [Ha _]. fold a in Ha.
  destruct (Z.log2_spec (Zpos d) eq_refl) as [_ Hb]. fold b in Hb.
  assert (Ha0 : (0 <= a)%Z) by apply Z.log2_nonneg.
  assert (Hb0 : (0 <= b)%Z) by apply Z.log2_nonneg.
  replace (a - b - 1)%Z with (a - (b + 1))%Z by lia.
  unfold pow2. rewrite Qpower_minus by discriminate.
  fold (pow2 a). fold (pow2 (b + 1)).
  rewrite (pow2_of_Z a), (pow2_of_Z (b + 1)) by lia.
  rewrite (Qmake_Qdiv n d).
  assert (Hp : (0 < 2 ^ (b + 1))%Z) by (apply Z.pow_pos_nonneg; lia).
  assert (Hp' : 0 < inject_Z (2 ^ (b + 1))) by (change 0 with (inject_Z 0); now rewrite <- Zlt_Qlt).
  assert (Hd : 0 < inject_Z (Zpos d)) by reflexivity.
  apply Qle_shift_div_l; [assumption|].
  unfold Qdiv. rewrite <- Qmult_assoc, (Qmult_comm (/ _)), Qmult_assoc.
  apply Qle_shift_div_r; [assumption|].
  rewrite <- !inject_Z_mult, <- Zle_Qle.
  unfold Z.succ in Hb. nia.
Qed.

(** A rational below [2^k] has a binade below [k]. *)
Lemma binade_lt (q : Q) (k : Z) : 0 < q -> q < pow2 k -> (binade q < k)%Z.
Proof.
  intros Hq Hk.
  destruct (Z.lt_ge_cases (binade q) k) as [H | H]; [assumption|].
  pose proof (binade_below q Hq). pose proof (pow2_le _ _ H). lra.
Qed.

Lemma round_half_even_integer (m : Q) (z : Z) : m == inject_Z z -> round_half_even m = z.
Proof.
  intros H. unfold round_half_even.
  rewrite (Qfloor_comp _ _ H), Qfloor_Z.
  assert (E : m - inject_Z z == 0) by lra.
  now rewrite (Qcompare_comp _ _ E _ _ (Qeq_refl (1 # 2))).
Qed.

Lemma Qred_integer (q : Q) (z : Z) : q == inject_Z z -> Qred q = inject_Z z.
Proof.
  intros H.
  pose proof (Qred_correct q) as Hc. pose proof (gcd_Qred q) as Hg.
  destruct (Qred q) as [n d]. cbn [Qnum Qden] in Hg.
  rewrite H in Hc. unfold Qeq, inject_Z in Hc. cbn [Qnum Qden] in Hc.
  rewrite Z.mul_1_r in Hc. subst n.
  rewrite Z.gcd_comm, (Z.mul_comm z), Z.gcd_mul_diag_l in Hg by lia.
  injection Hg as ->. unfold inject_Z. f_equal. lia.
Qed.

(** An integer below [2^53] in magnitude, times a power of two, is a
    double. *)
Lemma to_double_exact (q : Q) (z k : Z) :
  q == inject_Z (z * 2 ^ k) -> (0 <= k <= 900)%Z -> (Z.abs z < 2 ^ 53)%Z ->
  to_double q = Fin (inject_Z (z * 2 ^ k)).
Proof.
  intros Hq Hk Hz. unfold to_double.
  assert (Hpk : (0 < 2 ^ k)%Z) by (apply Z.pow_pos_nonneg; lia).
  destruct (Qeq_bool q 0) eqn:E0.
  { apply Qeq_bool_iff in E0.
    assert (Hz0 : (z * 2 ^ k = 0)%Z).
    { apply (proj1 (inject_Z_injective _ _)). now rewrite <- Hq. }
    now rewrite Hz0. }
  assert (Hnz : ~ q == 0) by (intros H; apply Qeq_bool_iff in H; congruence).
  assert (Habs : 0 < Qabs q).
  { apply Qabs_case; intros; [|assert (~ q == 0) by assumption]; lra. }
  assert (Hbound : Qabs q < pow2 (53 + k)).
  { apply Qabs_Qlt_condition. rewrite Hq, pow2_of_Z by lia.
    rewrite <- inject_Z_opp, <- !Zlt_Qlt, Z.pow_add_r by lia. nia. }
  pose proof (binade_lt _ _ Habs Hbound) as He.
  set (e := Z.max (binade (Qabs q)) (-1022)) in *.
  assert (He' : (e <= 52 + k)%Z) by lia.
  set (m := (z * 2 ^ (52 + k - e))%Z).
  assert (Hm : q / pow2 (e - 52) == inject_Z m).
  { unfold m. rewrite inject_Z_mult, <- pow2_of_Z by lia.
    rewrite Hq, inject_Z_mult, <- pow2_of_Z by lia.
    replace (52 + k - e)%Z with (k + - (e - 52))%Z by lia.
    rewrite pow2_plus. unfold pow2 at 4. rewrite Qpower_opp. fold (pow2 (e - 52)).
    field. pose proof (pow2_pos (e - 52)). lra. }
  rewrite (round_half_even_integer _ _ Hm).
  assert (Hnear : inject_Z m * pow2 (e - 52) == inject_Z (z * 2 ^ k)).
  { rewrite <- Hm, <- Hq. field. pose proof (pow2_pos (e - 52)). lra. }
  assert (Hfits : Qle_bool (pow2 1024) (Qabs (inject_Z m * pow2 (e - 52))) = false).
  { destruct (Qle_bool _ _) eqn:E; [|reflexivity].
    apply Qle_bool_iff in E. rewrite Hnear, <- Hq in E.
    pose proof (pow2_le (53 + k) 1024 ltac:(lia)). lra. }
  rewrite Hfits. f_equal. now apply Qred_integer.
Qed.

Lemma rounded_integer (z : Z) : (Z.abs z < 2 ^ 53)%Z -> rounded (of_Z z) = of_Z z.
Proof.
  intros Hz. unfold rounded, of_Z.
  rewrite (to_double_exact _ z 0); [now rewrite Z.mul_1_r | | lia | assumption].
  now rewrite Z.mul_1_r.
Qed.

(** ** The temporal score *)

Lemma temporal_formula (t a b : Z) :
  (a < b)%Z ->
  calculateTemporalScore t {| range_start := a; range_end := b |} =
  Fin (1 - Qabs (0.5 - normalizedPosition t {| range_start := a; range_end := b |})).
Proof.
  intros H. unfold calculateTemporalScore, normalizedPosition.
  cbn [getTime range_start range_end time_value]. unfold of_Z.
  cbn [JS.sub JS.neg JS.add].
  rewrite div_fin; [reflexivity|].
  rewrite Zlt_Qlt in H. lra.
Qed.

(** The position is the capture time's offset times the inverse of the
    range length. *)
Lemma normalizedPosition_scaled (a b : Z) :
  (a < b)%Z ->
  exists k : Q,
    0 < k /\
    (inject_Z b - inject_Z a) * k == 1 /\
    forall t, normalizedPosition t {| range_start := a; range_end := b |}
              == (inject_Z t - inject_Z a) * k.
Proof.
  intros H. rewrite Zlt_Qlt in H.
  exists (/ (inject_Z b - inject_Z a)).
  split; [apply Qinv_lt_0_compat; lra|].
  split; [apply Qmult_inv_r; lra|].
  intros t. reflexivity.
Qed.

(** C3 (as amended): over a range with [end > start] the temporal score is
    [1 - |0.5 - normalizedPosition|]; it is [1] for a photo taken at the
    midpoint, falls strictly on either side of the midpoint, and is [0.5]
    (not [0]) for a photo taken exactly at the start or at the end.  The
    range runs from the time [a] to the time [b]. *)
Theorem temporal_score_profile (a b : Z) :
  let tr := {| range_start := a; range_end := b |} in
  (a < b)%Z ->
  (forall t : Z,
      calculateTemporalScore t tr = Fin (1 - Qabs (0.5 - normalizedPosition t tr))) /\
  (forall t, (2 * t = a + b)%Z -> calculateTemporalScore t tr =n= 1) /\
  (forall t1 t2, (t1 < t2)%Z -> (2 * t2 <= a + b)%Z ->
                 (calculateTemporalScore t1 tr <? calculateTemporalScore t2 tr)%js = true) /\
  (forall t1 t2, (a + b <= 2 * t1)%Z -> (t1 < t2)%Z ->
                 (calculateTemporalScore t2 tr <? calculateTemporalScore t1 tr)%js = true) /\
  calculateTemporalScore a tr =n= 0.5 /\
  calculateTemporalScore b tr =n= 0.5.
Proof.
  intros tr H. subst tr.
  destruct (normalizedPosition_scaled a b H) as (k & Hk & Hinv & Hpos).
  assert (Hq : inject_Z a < inject_Z b) by now rewrite <- Zlt_Qlt.
  split; [intros t; now apply temporal_formula|].
  split.
  { intros t Ht. rewrite temporal_formula by assumption. unfold num_eq.
    assert (E : 2 * inject_Z t == inject_Z a + inject_Z b).
    { rewrite <- inject_Z_plus, <- Ht, inject_Z_mult. reflexivity. }
    rewrite (Hpos t). apply Qabs_case; intros; nra. }
  split.
  { intros t1 t2 H12 Hmid. rewrite !temporal_formula by assumption.
    apply lt_fin. rewrite (Hpos t1), (Hpos t2).
    rewrite Zlt_Qlt in H12. rewrite Zle_Qle in Hmid.
    rewrite inject_Z_mult, inject_Z_plus in Hmid.
    change (inject_Z 2) with 2 in Hmid.
    do 2 (apply Qabs_case; intros); nra. }
  split.
  { intros t1 t2 Hmid H12. rewrite !temporal_formula by assumption.
    apply lt_fin. rewrite (Hpos t1), (Hpos t2).
    rewrite Zlt_Qlt in H12. rewrite Zle_Qle in Hmid.
    rewrite inject_Z_mult, inject_Z_plus in Hmid.
    change (inject_Z 2) with 2 in Hmid.
    do 2 (apply Qabs_case; intros); nra. }
  split.
  { rewrite temporal_formula by assumption. unfold num_eq.
    rewrite (Hpos a). apply Qabs_case; intros; nra. }
  { rewrite temporal_formula by assumption. unfold num_eq.
    rewrite (Hpos b). apply Qabs_case; intros; nra. }
Qed.

(** A range of ten days, a photo at each end and one in the middle. *)
Lemma temporal_score_profile_witness :
  (0 < 864000000)%Z /\
  calculateTemporalScore 432000000 {| range_start := 0; range_end := 864000000 |} =n= 1 /\
  calculateTemporalScore 0 {| range_start := 0; range_end := 864000000 |} =n= 0.5 /\
  calculateTemporalScore 864000000 {| range_start := 0; range_end := 864000000 |} =n= 0.5.
Proof.
  split; [lia|].
  pose proof (temporal_score_profile 0 864000000) as P.
  destruct P as (_ & Hmid & _ & _ & Hs & He); [lia|].
  split; [apply Hmid; reflexivity|].
  split; [exact Hs | exact He].
Defined.

(** C3 (as stated) fails: over the ten days from [t0 = 0] a photo taken
    at the start, or at the end, does not score [0]. *)
Lemma temporal_score_at_ends_not_zero :
  ~ (calculateTemporalScore 0 {| range_start := 0; range_end := 864000000 |} =n= 0) /\
  ~ (calculateTemporalScore 864000000 {| range_start := 0; range_end := 864000000 |} =n= 0).
Proof. split; vm_compute; discriminate. Qed.

(** ** Colour and layout similarity *)

Lemma Qsqrt_zero (x : Q) : x == 0 -> Qsqrt x == 0.
Proof.
  intros H. unfold Qsqrt.
  assert (E : Qnum x = 0%Z).
  { unfold Qeq in H. simpl in H. lia. }
  rewrite E. reflexivity.
Qed.

Lemma Math_sqrt_zero (x : Q) : x == 0 -> Math_sqrt (Fin x) =n= 0.
Proof.
  intros H. unfold Math_sqrt.
  rewrite (proj2 (Qle_bool_iff 0 x)) by lra.
  now apply Qsqrt_zero.
Qed.

Lemma split_not_nil (c : ascii) (s : string) : split c s <> [].
Proof.
  induction s as [|a s IH]; simpl; [discriminate|].
  destruct (Ascii.eqb a c); [discriminate|].
  destruct (split c s); discriminate.
Qed.

Lemma array_includes_member (xs : list string) (x : string) :
  In x xs -> array_includes xs x = true.
Proof.
  intros H. unfold array_includes. apply existsb_exists.
  exists x. split; [assumption | apply String.eqb_refl].
Qed.

Lemma filter_keeps_all {A} (p : A -> bool) (xs : list A) :
  (forall x, In x xs -> p x = true) -> List.filter p xs = xs.
Proof.
  induction xs as [|x xs IH]; intros H; simpl; [reflexivity|].
  rewrite (H x) by now left.
  f_equal. apply IH. intros y Hy. apply H. now right.
Qed.

Lemma of_nat_ratio_one (n : nat) : n <> 0%nat -> (of_nat n / of_nat n)%js =n= 1.
Proof.
  intros H. unfold of_nat, of_Z.
  assert (Hq : ~ inject_Z (Z.of_nat n) == 0).
  { change 0 with (inject_Z 0). rewrite inject_Z_injective. lia. }
  rewrite div_fin by assumption.
  unfold num_eq. now field.
Qed.

Lemma Math_max_same (x : Q) : Math_max (Fin x) (Fin x) = Fin x.
Proof. unfold Math_max. rewrite lt_fin_false by lra. reflexivity. Qed.

Lemma layout_similarity_reflexive (layout : string) :
  calculateLayoutSimilarity layout layout =n= 1.
Proof.
  unfold calculateLayoutSimilarity.
  pose proof (split_not_nil "|" layout) as Hne.
  destruct (split "|" layout) as [|e es] eqn:E; [contradiction|].
  cbn [length Nat.eqb orb].
  rewrite filter_keeps_all by (intros x Hx; now apply array_includes_member).
  unfold of_nat at 2 3, of_Z. rewrite Math_max_same.
  apply of_nat_ratio_one. discriminate.
Qed.

Lemma color_similarity_single (r g b f : Q) (s : num) :
  f == 1 ->
  let c := {| color := {| red := r; green := g; blue := b |};
              color_score := s; pixelFraction := f |} in
  calculateColorSimilarity [c] [c] =n= 1.
Proof.
  intros Hf c. unfold calculateColorSimilarity, calculateColorDistance.
  cbn [length Nat.eqb orb fold_left Nat.ltb Nat.leb color red green blue pixelFraction c
       JS.sub JS.neg JS.add JS.sq JS.mul].
  set (x := ((r + - r) * (r + - r) + (g + - g) * (g + - g) + (b + - b) * (b + - b))%Q).
  assert (Hx : x == 0) by (unfold x; ring).
  pose proof (Math_sqrt_zero x Hx) as Hs.
  destruct (Math_sqrt x) as [d| | |]; try contradiction.
  unfold num_eq in Hs.
  rewrite div_fin by (intros Hz; discriminate Hz).
  cbn [JS.sub JS.neg JS.add JS.mul].
  unfold of_nat, of_Z. rewrite div_fin by (intros Hz; discriminate Hz).
  unfold num_eq. rewrite Hs, Hf. reflexivity.
Qed.

(** *** Lists of several colours *)

Lemma fraction_total_nonneg (cs : list Color) :
  Forall valid_color cs -> 0 <= fraction_total cs.
Proof.
  intros H. induction H as [|c cs (_ & _ & _ & Hf) Hcs IH]; cbn [fraction_total fold_right].
  - lra.
  - fold (fraction_total cs). apply between_fin in Hf as (f & -> & Hf). cbn [value]. lra.
Qed.

Lemma Qsquare_nonneg (a : Q) : 0 <= a * a.
Proof. destruct (Qlt_le_dec a 0); nra. Qed.

(** The similarity of two valid colours is finite and at most 1. *)
Lemma color_pair_similarity (c1 c2 : Color) :
  valid_color c1 -> valid_color c2 ->
  exists s : Q,
    (1 - calculateColorDistance c1 c2 / 441.67)%js = Fin s /\ s <= 1.
Proof.
  intros (Hr1 & Hg1 & Hb1 & _) (Hr2 & Hg2 & Hb2 & _).
  unfold calculateColorDistance.
  destruct (red (color c1)) as [r1| | |]; try discriminate.
  destruct (green (color c1)) as [g1| | |]; try discriminate.
  destruct (blue (color c1)) as [b1| | |]; try discriminate.
  destruct (red (color c2)) as [r2| | |]; try discriminate.
  destruct (green (color c2)) as [g2| | |]; try discriminate.
  destruct (blue (color c2)) as [b2| | |]; try discriminate.
  cbn [JS.sub JS.neg JS.add JS.sq JS.mul].
  set (x := ((r1 + - r2) * (r1 + - r2) + (g1 + - g2) * (g1 + - g2)
             + (b1 + - b2) * (b1 + - b2))%Q).
  assert (Hx : 0 <= x).
  { pose proof (Qsquare_nonneg (r1 + - r2)). pose proof (Qsquare_nonneg (g1 + - g2)).
    pose proof (Qsquare_nonneg (b1 + - b2)). unfold x. lra. }
  unfold Math_sqrt. rewrite (proj2 (Qle_bool_iff 0 x) Hx).
  rewrite div_fin by (intros Hz; discriminate Hz).
  eexists. split; [reflexivity|].
  pose proof (Qsqrt_nonneg x) as Hs.
  assert (0 <= Qsqrt x / 441.67) by (apply Qle_shift_div_l; lra).
  lra.
Qed.

Lemma color_row_bound (c1 : Color) (cs : list Color) (t : Q) (k : nat) :
  valid_color c1 -> Forall valid_color cs ->
  exists t' : Q,
    fold_left
      (fun '(totalSimilarity, comparisons) color2 =>
         (totalSimilarity +
          (1 - calculateColorDistance c1 color2 / 441.67)
          * (pixelFraction c1 * pixelFraction color2),
          S comparisons))
      cs (Fin t, k)
    = (Fin t', (k + length cs)%nat) /\
    t' <= t + value (pixelFraction c1) * fraction_total cs.
Proof.
  intros H1 H. revert t k. induction H as [|c2 cs H2 Hcs IH]; intros t k.
  - exists t. cbn [fold_left length fraction_total fold_right].
    rewrite Nat.add_0_r. split; [reflexivity | lra].
  - cbn [fold_left].
    destruct (color_pair_similarity c1 c2 H1 H2) as (s & -> & Hs).
    pose proof H1 as (_ & _ & _ & Hf1). pose proof H2 as (_ & _ & _ & Hf2).
    apply between_fin in Hf1 as (f1 & E1 & Hf1).
    apply between_fin in Hf2 as (f2 & E2 & Hf2).
    assert (Hstep : (Fin t + Fin s * (pixelFraction c1 * pixelFraction c2))%js
                    = Fin (t + s * (f1 * f2))) by (rewrite E1, E2; reflexivity).
    rewrite Hstep.
    destruct (IH (t + s * (f1 * f2))%Q (S k)) as (t' & Ht & Hb).
    rewrite Ht. exists t'. split.
    + f_equal. cbn [length]. lia.
    + cbn [fraction_total fold_right]. fold (fraction_total cs).
      rewrite E1 in *. rewrite E2. cbn [value] in *.
      pose proof (fraction_total_nonneg cs Hcs).
      assert (Hp : 0 <= f1 * f2) by nra.
      assert (Hsp : s * (f1 * f2) <= f1 * f2) by nra.
      lra.
Qed.

Lemma color_table_bound (cs1 cs2 : list Color) (t : Q) (k : nat) :
  Forall valid_color cs1 -> Forall valid_color cs2 ->
  exists t' : Q,
    fold_left
      (fun acc color1 =>
         fold_left
           (fun '(totalSimilarity, comparisons) color2 =>
              (totalSimilarity +
               (1 - calculateColorDistance color1 color2 / 441.67)
               * (pixelFraction color1 * pixelFraction color2),
               S comparisons))
           cs2 acc)
      cs1 (Fin t, k)
    = (Fin t', (k + length cs1 * length cs2)%nat) /\
    t' <= t + fraction_total cs1 * fraction_total cs2.
Proof.
  intros H1 H2. revert t k. induction H1 as [|c1 cs1 Hc1 Hcs1 IH]; intros t k.
  - exists t. cbn [fold_left length fraction_total fold_right Nat.mul].
    rewrite Nat.add_0_r. split; [reflexivity | lra].
  - cbn [fold_left].
    destruct (color_row_bound c1 cs2 t k Hc1 H2) as (t1 & -> & Hb1).
    destruct (IH t1 (k + length cs2)%nat) as (t' & -> & Hb).
    exists t'. split.
    + f_equal. cbn [length]. lia.
    + cbn [fraction_total fold_right]. fold (fraction_total cs1). nra.
Qed.

(** The colour similarity of a list of [n] valid colours with itself is
    at most the square of the sum of the pixel fractions over [n * n]. *)
Lemma color_self_similarity_bound (cs : list Color) :
  cs <> [] -> Forall valid_color cs -> fraction_total cs == 1 ->
  exists q : Q,
    calculateColorSimilarity cs cs = Fin q /\
    q * (inject_Z (Z.of_nat (length cs)) * inject_Z (Z.of_nat (length cs))) <= 1.
Proof.
  intros Hne H Hsum. unfold calculateColorSimilarity.
  assert (Hn : length cs <> 0%nat) by (destruct cs; [contradiction | discriminate]).
  replace (length cs =? 0)%nat with false by (symmetry; now apply Nat.eqb_neq).
  cbn [orb]. cbv zeta.
  destruct (color_table_bound cs cs 0 0 H H) as (t & -> & Hb).
  cbn [Nat.add].
  assert (Hnn : (length cs * length cs)%nat <> 0%nat) by nia.
  replace (0 <? length cs * length cs)%nat with true
    by (symmetry; apply Nat.ltb_lt; lia).
  unfold of_nat, of_Z.
  assert (Hp : 0 < inject_Z (Z.of_nat (length cs * length cs))).
  { change 0 with (inject_Z 0). rewrite <- Zlt_Qlt. lia. }
  rewrite div_fin by lra.
  eexists. split; [reflexivity|].
  rewrite <- inject_Z_mult, <- Nat2Z.inj_mul.
  rewrite Hsum in Hb.
  set (m := inject_Z (Z.of_nat (length cs * length cs))) in *.
  assert (E : t / m * m == t) by (field; lra).
  rewrite E. lra.
Qed.

(** With two or more colours the similarity of a list with itself is at
    most 1/4. *)
Lemma color_self_similarity_below_one (cs : list Color) :
  (2 <= length cs)%nat -> Forall valid_color cs -> fraction_total cs == 1 ->
  exists q : Q, calculateColorSimilarity cs cs = Fin q /\ q <= 0.25.
Proof.
  intros Hlen H Hsum.
  destruct (color_self_similarity_bound cs) as (q & Hq & Hb); try assumption.
  - destruct cs; [simpl in Hlen; lia | discriminate].
  - exists q. split; [exact Hq|].
    assert (Hn : 2 <= inject_Z (Z.of_nat (length cs))).
    { change 2 with (inject_Z 2). rewrite <- Zle_Qle. lia. }
    set (n := inject_Z (Z.of_nat (length cs))) in *.
    destruct (Qlt_le_dec 0.25 q) as [Hgt|Hle]; [|exact Hle].
    exfalso. assert (4 <= n * n) by nra. nra.
Qed.

(** C9 (as amended): a dominant-colour list of one colour whose pixel
    fraction is 1 has colour similarity 1 with itself, and every layout
    fingerprint has layout similarity 1 with itself. *)
Theorem self_similarity (r g b f : Q) (s : num) (layout : string) :
  f == 1 ->
  calculateColorSimilarity
    [{| color := {| red := r; green := g; blue := b |};
        color_score := s; pixelFraction := f |}]
    [{| color := {| red := r; green := g; blue := b |};
        color_score := s; pixelFraction := f |}] =n= 1 /\
  calculateLayoutSimilarity layout layout =n= 1.
Proof.
  intros Hf. split.
  - now apply color_similarity_single.
  - apply layout_similarity_reflexive.
Qed.

Lemma self_similarity_witness :
  1 == 1 /\
  calculateColorSimilarity [black 1] [black 1] =n= 1 /\
  calculateLayoutSimilarity "10,20,30,40|50,60,70,80" "10,20,30,40|50,60,70,80" =n= 1.
Proof.
  split; [reflexivity|].
  apply (self_similarity 0 0 0 1 0.5 "10,20,30,40|50,60,70,80"). reflexivity.
Defined.

(** C9 (as stated) fails: two dominant colours whose pixel fractions sum
    to 1 have colour similarity 1/4 with themselves. *)
Lemma color_self_similarity_not_one :
  JS.sum (map pixelFraction two_halves) =n= 1 /\
  calculateColorSimilarity two_halves two_halves =n= 0.25 /\
  ~ (calculateColorSimilarity two_halves two_halves =n= 1).
Proof.
  split; [vm_compute; reflexivity|].
  split; [vm_compute; reflexivity|].
  vm_compute. discriminate.
Qed.

(** ** The quality evaluators *)

Lemma composition_weighted (result : AnnotateImageResponse) :
  evaluateComposition result =
  weighted_composition (evaluateRuleOfThirds result) (evaluateSubjectProminence result)
                       (evaluateVisualBalance result).
Proof.
  unfold evaluateComposition, weighted_composition.
  destruct (evaluateRuleOfThirds result), (evaluateSubjectProminence result),
    (evaluateVisualBalance result); reflexivity.
Qed.

Lemma weighted_composition_equal_parts (s : Q) :
  weighted_composition (Some (Fin s)) (Some (Fin s)) (Some (Fin s)) =n= (s / 3)%Q.
Proof.
  change (weighted_composition (Some (Fin s)) (Some (Fin s)) (Some (Fin s)))
    with ((0 + Fin s * 0.4 + Fin s * 0.3 + Fin s * 0.3) / of_nat 3)%js.
  cbn [JS.add JS.mul]. unfold of_nat, of_Z.
  rewrite div_fin by (intros Hz; discriminate Hz).
  unfold num_eq. change (inject_Z (Z.of_nat 3)) with 3. field.
Qed.

(** Each sub-score is absent exactly when the annotations it reads are:
    no subject for the rule of thirds and the prominence, no dominant
    colour for the balance. *)
Lemma composition_parts_presence (result : AnnotateImageResponse) :
  (evaluateRuleOfThirds result = None <-> subjects result = []) /\
  (evaluateSubjectProminence result = None <-> subjects result = []) /\
  (evaluateVisualBalance result = None <->
   response_colors result = None \/ response_colors result = Some []).
Proof.
  unfold evaluateRuleOfThirds, evaluateSubjectProminence, evaluateVisualBalance.
  repeat split.
  - destruct (subjects result); [reflexivity | discriminate].
  - intros ->. reflexivity.
  - destruct (subjects result); [reflexivity | discriminate].
  - intros ->. reflexivity.
  - destruct (response_colors result) as [[|c cs]|]; auto.
    destruct (fold_left _ _ _) as [[[? ?] ?] ?]. discriminate.
  - intros [-> | ->]; reflexivity.
Qed.

(** The composition score in full: the sub-scores that are present,
    weighted 0.4 (rule of thirds), 0.3 (prominence) and 0.3 (balance),
    summed and divided by their number; 0.5 when all three are absent. *)
Lemma composition_weighted_parts :
  (forall result,
      (evaluateRuleOfThirds result = None <-> subjects result = []) /\
      (evaluateSubjectProminence result = None <-> subjects result = []) /\
      (evaluateVisualBalance result = None <->
       response_colors result = None \/ response_colors result = Some []) /\
      evaluateComposition result =
      weighted_composition (evaluateRuleOfThirds result)
                           (evaluateSubjectProminence result)
                           (evaluateVisualBalance result)) /\
  weighted_composition None None None = 0.5.
Proof.
  split; [|reflexivity].
  intros result.
  destruct (composition_parts_presence result) as (H1 & H2 & H3).
  repeat split; try apply H1; try apply H2; try apply H3.
  apply composition_weighted.
Qed.

(** A photo with one dominant colour and no subject has the visual
    balance, 1, as its only sub-score, and its composition score is 0.3,
    not the average 1. *)
Lemma composition_not_average :
  evaluateRuleOfThirds one_color_only = None /\
  evaluateSubjectProminence one_color_only = None /\
  (exists balance, evaluateVisualBalance one_color_only = Some balance /\ balance =n= 1) /\
  evaluateComposition one_color_only =n= 0.3 /\
  average_composition (evaluateRuleOfThirds one_color_only)
                      (evaluateSubjectProminence one_color_only)
                      (evaluateVisualBalance one_color_only) =n= 1 /\
  ~ (evaluateComposition one_color_only =n=
     average_composition (evaluateRuleOfThirds one_color_only)
                         (evaluateSubjectProminence one_color_only)
                         (evaluateVisualBalance one_color_only)).
Proof.
  split; [reflexivity|].
  split; [reflexivity|].
  split; [eexists; split; [reflexivity | vm_compute; reflexivity]|].
  split; [vm_compute; reflexivity|].
  split; [vm_compute; reflexivity|].
  vm_compute. discriminate.
Qed.

Lemma average_composition_equal_parts (s : Q) :
  average_composition (Some (Fin s)) (Some (Fin s)) (Some (Fin s)) =n= s.
Proof.
  change (average_composition (Some (Fin s)) (Some (Fin s)) (Some (Fin s)))
    with ((0 + Fin s + Fin s + Fin s) / of_nat 3)%js.
  cbn [JS.add]. unfold of_nat, of_Z.
  rewrite div_fin by (intros Hz; discriminate Hz).
  unfold num_eq. change (inject_Z (Z.of_nat 3)) with 3. field.
Qed.

(** C2: the composition score is not the average of the sub-scores.
    [evaluateComposition] weights the sub-scores that are present 0.4, 0.3
    and 0.3 and then divides the weighted sum by their number: three
    sub-scores equal to [s] give [s / 3], where their average is [s].  For
    a face that fills the frame, with one dominant colour, the sub-scores
    are 0.83, 1 and 1; their average is 2.83 / 3, their weighted sum is
    0.932, and the score is 0.932 / 3. *)
Theorem composition_divides_weighted_sum :
  (forall result,
      evaluateComposition result =
      weighted_composition (evaluateRuleOfThirds result)
                           (evaluateSubjectProminence result)
                           (evaluateVisualBalance result)) /\
  (forall s : Q,
      weighted_composition (Some (Fin s)) (Some (Fin s)) (Some (Fin s)) =n= (s / 3)%Q /\
      average_composition (Some (Fin s)) (Some (Fin s)) (Some (Fin s)) =n= s) /\
  (exists thirds prominence balance,
      evaluateRuleOfThirds full_frame_face = Some thirds /\ thirds =n= 0.83 /\
      evaluateSubjectProminence full_frame_face = Some prominence /\ prominence =n= 1 /\
      evaluateVisualBalance full_frame_face = Some balance /\ balance =n= 1 /\
      average_composition (Some thirds) (Some prominence) (Some balance)
        =n= (2.83 / 3)%Q /\
      (thirds * 0.4 + prominence * 0.3 + balance * 0.3)%js =n= 0.932) /\
  evaluateComposition full_frame_face =n= (0.932 / 3)%Q /\
  ~ (evaluateComposition full_frame_face =n=
     average_composition (evaluateRuleOfThirds full_frame_face)
                         (evaluateSubjectProminence full_frame_face)
                         (evaluateVisualBalance full_frame_face)).
Proof.
  split; [exact composition_weighted|].
  split.
  { intros s. split;
      [apply weighted_composition_equal_parts | apply average_composition_equal_parts]. }
  split.
  { do 3 eexists.
    split; [reflexivity|]. split; [vm_compute; reflexivity|].
    split; [reflexivity|]. split; [vm_compute; reflexivity|].
    split; [reflexivity|]. split; [vm_compute; reflexivity|].
    split; vm_compute; reflexivity. }
  split; [vm_compute; reflexivity|].
  vm_compute. discriminate.
Qed.

(** *** Blur *)

Lemma has_faces_cons (f : FaceAnnotation) (fs : list FaceAnnotation)
    (properties : option GoogleImageProperties) :
  has_faces (response_of (Some (f :: fs)) properties) = true.
Proof. reflexivity. Qed.

Lemma face_blur_score_finite (face : FaceAnnotation) :
  exists q : Q, (1 - convertLikelihood (blurredLikelihood face))%js = Fin q.
Proof. destruct (blurredLikelihood face) as [[]|]; eexists; reflexivity. Qed.

Lemma face_blur_sum_finite (fs : list FaceAnnotation) (acc : Q) :
  exists q : Q,
    fold_left JS.add
      (map (fun face => (1 - convertLikelihood (blurredLikelihood face))%js) fs)
      (Fin acc) = Fin q.
Proof.
  revert acc. induction fs as [|f fs IH]; intros acc; cbn [map fold_left].
  - now exists acc.
  - destruct (face_blur_score_finite f) as [q Hq]. rewrite Hq.
    cbn [JS.add]. apply IH.
Qed.

(** With neither faces nor colour data the blur score is 0.5. *)
Lemma blur_default (fs : option (list FaceAnnotation)) :
  has_faces (response_of fs None) = false ->
  evaluateBlur (response_of fs None) = 0.5.
Proof. intros H. unfold evaluateBlur. rewrite H. reflexivity. Qed.

(** Without faces the blur score is the edge-strength estimate. *)
Lemma blur_edge_only (fs : option (list FaceAnnotation)) (cs : list ColorInfo) :
  let result :=
    response_of fs (Some {| g_dominantColors := Some {| colors := Some cs |} |}) in
  has_faces result = false ->
  evaluateBlur result =n= normalizedEdgeStrength cs.
Proof.
  intros result H. unfold evaluateBlur. rewrite H.
  change (response_colors result) with (Some cs).
  cbn [app length Nat.eqb]. unfold JS.sum. cbn [fold_left].
  destruct (normalizedEdgeStrength cs); simpl; auto.
  unfold Qeq; simpl. lia.
Qed.

(** With faces and colour data the blur score blends the average of the
    per-face scores, weighted 0.7, with the edge-strength estimate,
    weighted 0.3. *)
Lemma blur_faces_and_colors (f : FaceAnnotation) (fs : list FaceAnnotation)
    (cs : list ColorInfo) :
  let result :=
    response_of (Some (f :: fs))
                (Some {| g_dominantColors := Some {| colors := Some cs |} |}) in
  evaluateBlur result =n=
  (average (faceBlurScores result) * 0.7 + normalizedEdgeStrength cs * 0.3)%js.
Proof.
  intros result. unfold evaluateBlur.
  change (has_faces result) with true.
  change (response_colors result) with (Some cs).
  change (or_nil (faceAnnotations result)) with (f :: fs).
  cbv iota.
  set (scores := map _ (f :: fs)).
  assert (Hlen : length (scores ++ [normalizedEdgeStrength cs]) = S (length scores))
    by (rewrite length_app; simpl; lia).
  rewrite Hlen. cbn [Nat.eqb].
  rewrite removelast_snoc, last_snoc.
  change (faceBlurScores result) with scores.
  apply add_num_eq; [|apply num_eq_refl].
  apply mul_num_eq; [|apply num_eq_refl].
  unfold average, JS.sum.
  destruct (face_blur_sum_finite (f :: fs) 0) as [q Hq].
  fold scores in Hq. rewrite Hq.
  assert (Hn : ~ inject_Z (Z.of_nat (length scores)) == 0).
  { change 0 with (inject_Z 0). rewrite inject_Z_injective.
    unfold scores; simpl; lia. }
  unfold of_nat, of_Z. cbn [JS.sub JS.neg JS.add].
  assert (E : inject_Z (Z.of_nat (S (length scores))) + - (1)
              == inject_Z (Z.of_nat (length scores))).
  { rewrite Nat2Z.inj_succ. unfold Z.succ. rewrite inject_Z_plus. simpl. ring. }
  rewrite !div_fin; [| assumption | now rewrite E].
  unfold num_eq. now rewrite E.
Qed.

(** With faces and no colour data no edge-strength estimate is pushed,
    and the score of the last face is read in its place: the average runs
    over the other faces only. *)
Lemma blur_faces_without_colors (fs : list FaceAnnotation) (f : FaceAnnotation) :
  evaluateBlur (response_of (Some (fs ++ [f])) None) =
  (JS.sum (map (fun face => 1 - convertLikelihood (blurredLikelihood face)) fs)
   / (of_nat (length fs + 1) - 1) * 0.7
   + (1 - convertLikelihood (blurredLikelihood f)) * 0.3)%js.
Proof.
  unfold evaluateBlur.
  assert (Hf : has_faces (response_of (Some (fs ++ [f])) None) = true)
    by (destruct fs; reflexivity).
  rewrite Hf.
  change (response_colors (response_of (Some (fs ++ [f])) None)) with (@None (list ColorInfo)).
  change (or_nil (faceAnnotations (response_of (Some (fs ++ [f])) None))) with (fs ++ [f]).
  rewrite app_nil_r, map_app. cbn [map].
  rewrite removelast_snoc, last_snoc, length_app, length_map. cbn [length].
  replace (length fs + 1 =? 0)%nat with false; [reflexivity|].
  symmetry. apply Nat.eqb_neq. lia.
Qed.

(** C5, at a photo with faces and no dominant-colour data: for a sharp
    and a blurred face the blur score is 0.7, the sharp face alone
    weighted 0.7 and the blurred face standing in for the edge strength,
    although the average of the two faces is 0.5; for a single face it
    is NaN. *)
Theorem blur_without_colors_misreads_last_face :
  (forall fs f,
      evaluateBlur (response_of (Some (fs ++ [f])) None) =
      (JS.sum (map (fun face => 1 - convertLikelihood (blurredLikelihood face)) fs)
       / (of_nat (length fs + 1) - 1) * 0.7
       + (1 - convertLikelihood (blurredLikelihood f)) * 0.3)%js) /\
  response_colors two_faces_no_colors = None /\
  average (faceBlurScores two_faces_no_colors) =n= 0.5 /\
  evaluateBlur two_faces_no_colors =n= 0.7 /\
  evaluateBlur one_face_no_colors = NaN.
Proof.
  split; [exact blur_faces_without_colors|].
  split; [reflexivity|].
  split; [vm_compute; reflexivity|].
  split; [vm_compute; reflexivity | reflexivity].
Qed.

(** ** The range of the scores *)

(** *** Relevance *)

Lemma relevance_in_unit (p : EnhancedPhoto) (types : list string) :
  Forall (fun l => in_unit (score l)) (labels (analysis p)) ->
  in_unit (calculateRelevanceScore p types).
Proof.
  intros H. unfold calculateRelevanceScore.
  destruct (length types =? 0)%nat; [simpl; lra|].
  set (relevant := List.filter _ _).
  destruct (length relevant =? 0)%nat eqn:E; [simpl; lra|].
  rewrite fold_add_map. fold (JS.sum (map score relevant)).
  rewrite <- (length_map score relevant).
  apply average_between.
  - apply length_zero_eqb in E. destruct relevant; [contradiction | discriminate].
  - apply List.Forall_map. apply List.Forall_forall. intros l Hl.
    apply filter_In in Hl as [Hl _].
    rewrite List.Forall_forall in H. now apply H.
Qed.

(** *** Emotion *)

Lemma emotion_totals (fs : list FaceAnalysis) (P N C : Q) :
  Forall valid_face fs ->
  0 <= P <= 1.7 * C -> 0 <= N <= 2 * C -> 0 <= C ->
  let emotionScores :=
    map (fun face =>
           (joy (emotions face) + surprise (emotions face) * 0.7,
            sorrow (emotions face) + anger (emotions face),
            confidence face)) fs in
  let weightedScores :=
    map (fun '(positive, negative, confidence) =>
           (positive * confidence, negative * confidence)) emotionScores in
  exists P' N' C',
    fold_left JS.add (map fst weightedScores) (Fin P) = Fin P' /\
    fold_left JS.add (map snd weightedScores) (Fin N) = Fin N' /\
    fold_left JS.add (map snd emotionScores) (Fin C) = Fin C' /\
    0 <= P' <= 1.7 * C' /\ 0 <= N' <= 2 * C' /\ 0 <= C'.
Proof.
  intros H. revert P N C. induction H as [|f fs Hf Hfs IH]; intros P N C HP HN HC.
  - cbn. exists P, N, C. repeat split; try reflexivity; lra.
  - destruct Hf as (Hc & Hj & Hso & Han & Hsu).
    apply between_fin in Hc as (c & Ec & Hc).
    apply between_fin in Hj as (j & Ej & Hj).
    apply between_fin in Hso as (so & Eso & Hso).
    apply between_fin in Han as (an & Ean & Han).
    apply between_fin in Hsu as (su & Esu & Hsu).
    cbn [map fold_left fst snd]. rewrite Ec, Ej, Eso, Ean, Esu.
    cbn [JS.add JS.mul].
    apply IH; nra.
Qed.

Lemma emotion_bounds (fs : list FaceAnalysis) :
  Forall valid_face fs -> between (-0.2) 1 (calculateEmotionScore fs).
Proof.
  intros H. unfold calculateEmotionScore.
  destruct (length fs =? 0)%nat; [simpl; lra|].
  destruct (emotion_totals fs 0 0 0 H) as (P & N & C & EP & EN & EC & HP & HN & HC);
    try lra.
  unfold JS.sum. cbv zeta in EP, EN, EC. rewrite EP, EN, EC.
  cbn [JS.eqb]. destruct (Qeq_bool C 0) eqn:E; [simpl; lra|].
  assert (Hne : ~ C == 0) by (intros Hz; apply Qeq_bool_iff in Hz; congruence).
  rewrite !div_fin by assumption.
  assert (Hpos : 0 < C) by lra.
  assert (HPC : 0 <= P / C <= 1.7).
  { split; [apply Qle_shift_div_l; lra | apply Qle_shift_div_r; lra]. }
  assert (HNC : 0 <= N / C <= 2).
  { split; [apply Qle_shift_div_l; lra | apply Qle_shift_div_r; lra]. }
  cbn [JS.sub JS.neg JS.add JS.mul].
  eapply between_weaken with (lo := -0.2);
    [apply (between_min (-0.2) 1.76 1) | lra | lra].
  - simpl. lra.
  - lra.
Qed.

(** *** Interest *)

Lemma in_unit_fin (x : num) : in_unit x -> exists q, x = Fin q /\ 0 <= q <= 1.
Proof. apply between_fin. Qed.

Lemma face_score_in_unit (face : FaceAnalysis) :
  valid_face face ->
  let emotionScore :=
    Math_max_list [joy (emotions face); surprise (emotions face);
                   sorrow (emotions face) * 0.5; anger (emotions face) * 0.5] in
  let qualityScore := confidence face * (if blurred face then Fin 0.5 else Fin 1) in
  between 0 1 (emotionScore * 0.6 + qualityScore * 0.4).
Proof.
  intros (Hc & Hj & Hso & Han & Hsu) emotionScore qualityScore.
  assert (He : between 0 1 emotionScore).
  { unfold emotionScore, Math_max_list. cbn [fold_left].
    apply in_unit_fin in Hj as H. destruct H as (j & Ej & _).
    rewrite Ej at 1. change (Math_max NInf (Fin j)) with (Fin j). rewrite <- Ej.
    repeat apply (between_max 0 1 0); auto.
    - eapply between_weaken; [apply (between_scale 0 1 0.5); [lra | exact Hso] | lra | lra].
    - eapply between_weaken; [apply (between_scale 0 1 0.5); [lra | exact Han] | lra | lra]. }
  assert (Hq : between 0 1 qualityScore).
  { unfold qualityScore. destruct (blurred face).
    - eapply between_weaken; [apply (between_scale 0 1 0.5); [lra | exact Hc] | lra | lra].
    - eapply between_weaken; [apply (between_scale 0 1 1); [lra | exact Hc] | lra | lra]. }
  eapply between_weaken.
  - apply between_add; [apply (between_scale 0 1 0.6); [lra | exact He]
                       | apply (between_scale 0 1 0.4); [lra | exact Hq]].
  - lra.
  - lra.
Qed.

Lemma face_interest_bounds (fs : list FaceAnalysis) :
  Forall valid_face fs -> between 0 1.2 (calculateFaceInterestScore fs).
Proof.
  intros H. unfold calculateFaceInterestScore.
  destruct (length fs =? 0)%nat eqn:E; [simpl; lra|].
  apply length_zero_eqb in E.
  set (faceScores := map _ fs).
  assert (Havg : between 0 1 (JS.sum faceScores / of_nat (length faceScores))).
  { apply average_between.
    - unfold faceScores. destruct fs; [contradiction | discriminate].
    - unfold faceScores. apply List.Forall_map.
      eapply List.Forall_impl; [|exact H]. intros f Hf. now apply face_score_in_unit. }
  assert (Hn : length fs <> 0%nat) by (destruct fs; [contradiction | discriminate]).
  assert (Hfactor : between 0 1 (Math_min (of_nat (length fs) / 3) 1)).
  { unfold of_nat, of_Z. rewrite div_fin by (intros Hz; discriminate Hz).
    pose proof (of_nat_pos _ Hn) as Hp.
    apply (between_min 0 (inject_Z (Z.of_nat (length fs)) / 3) 1); [|lra].
    unfold between. split; [apply Qle_shift_div_l; lra | lra]. }
  eapply between_weaken.
  - apply (between_mul 1 1.2); [exact Havg|].
    eapply between_weaken.
    + apply (between_add 1 1 0 0.2 1); [simpl; lra|].
      eapply between_weaken; [apply (between_scale 0 1 0.2); [lra | exact Hfactor] | lra | lra].
    + lra.
    + lra.
  - lra.
  - lra.
Qed.

Lemma landmark_interest_bounds (ls : list Landmark) :
  Forall (fun l => in_unit (landmark_score l)) ls ->
  between 0 1.2 (calculateLandmarkInterestScore ls).
Proof.
  intros H. unfold calculateLandmarkInterestScore.
  destruct (length ls =? 0)%nat; [simpl; lra|].
  assert (G : forall acc, between 0 1.2 acc ->
    between 0 1.2
      (fold_left
         (fun score landmark =>
            let confidence := landmark_score landmark in
            let hasLocation :=
              match locations landmark with
              | Some locs => (0 <? length locs)%nat
              | None => false
              end in
            Math_max score (confidence * (if hasLocation then Fin 1.2 else Fin 1)))
         ls acc)).
  { induction H as [|l ls Hl Hls IH]; intros acc Hacc; cbn [fold_left]; [exact Hacc|].
    apply IH. apply (between_max 0 1.2 0); [exact Hacc|].
    destruct (match locations l with Some locs => (0 <? length locs)%nat | None => false end).
    - eapply between_weaken; [apply (between_scale 0 1 1.2); [lra | exact Hl] | lra | lra].
    - eapply between_weaken; [apply (between_scale 0 1 1); [lra | exact Hl] | lra | lra]. }
  apply G. simpl. lra.
Qed.

Lemma map_get_Forall {V} (P : V -> Prop) (k : string) (m : list (string * V)) (v : V) :
  Forall (fun kv => P (snd kv)) m -> map_get k m = Some v -> P v.
Proof.
  intros H. induction H as [|[k' v'] m Hx Hm IH]; simpl; [discriminate|].
  destruct (String.eqb k k'); [intros [= <-]; exact Hx | exact IH].
Qed.

Lemma or_else_in_unit (x : num) : in_unit x -> in_unit (x ||| 0).
Proof.
  intros H. unfold or_else. destruct (truthy x); [exact H | simpl; lra].
Qed.

Lemma category_scores_in_unit (ls : list Label) :
  Forall (fun l => in_unit (score l)) ls ->
  Forall (fun kv => in_unit (snd kv))
    (fold_left
       (fun categoryScores label =>
          fold_left
            (fun categoryScores '(category, keywords) =>
               if existsb (fun keyword => includes (toLowerCase (description label)) keyword)
                          keywords
               then
                 let currentScore := opt_or (map_get category categoryScores) 0 in
                 map_set category (Math_max currentScore (score label)) categoryScores
               else categoryScores)
            interestingCategories categoryScores)
       ls []).
Proof.
  intros H.
  generalize (@nil (string * num))
             (@List.Forall_nil (string * num) (fun kv => in_unit (snd kv))).
  induction H as [|l ls Hl Hls IH]; intros m Hm; cbn [fold_left]; [exact Hm|].
  apply IH. clear IH. revert m Hm.
  generalize interestingCategories as cats.
  induction cats as [|[category keywords] cats IHc]; intros m Hm; cbn [fold_left]; [exact Hm|].
  apply IHc. destruct (existsb _ keywords); [|exact Hm].
  apply map_set_Forall; [|exact Hm]. cbn [snd].
  apply (between_max 0 1 0); [|exact Hl].
  unfold opt_or. destruct (map_get category m) as [v|] eqn:E; [|simpl; lra].
  apply or_else_in_unit. exact (map_get_Forall in_unit category m v Hm E).
Qed.

Lemma label_interest_bounds (ls : list Label) :
  Forall (fun l => in_unit (score l)) ls ->
  between 0 1 (calculateLabelInterestScore ls).
Proof.
  intros H. unfold calculateLabelInterestScore.
  pose proof (category_scores_in_unit ls H) as Hc.
  set (categoryScores := fold_left _ ls []) in *.
  destruct (length categoryScores =? 0)%nat eqn:E; [simpl; lra|].
  apply length_zero_eqb in E.
  assert (Hn : length categoryScores <> 0%nat)
    by (destruct categoryScores; [contradiction | discriminate]).
  assert (Havg : between 0 1 (JS.sum (map snd categoryScores)
                              / of_nat (length categoryScores))).
  { rewrite <- (length_map snd categoryScores). apply average_between.
    - destruct categoryScores; [contradiction | discriminate].
    - apply List.Forall_map. exact Hc. }
  assert (Hbonus : between 0 0.3
            (Math_min ((of_nat (length categoryScores) - 1) * 0.1) 0.3)).
  { unfold of_nat, of_Z. cbn [JS.sub JS.neg JS.add JS.mul].
    apply (between_min 0 ((inject_Z (Z.of_nat (length categoryScores)) + - (1)) * 0.1) 0.3);
      [|lra].
    assert (1 <= inject_Z (Z.of_nat (length categoryScores))).
    { change 1 with (inject_Z 1). rewrite <- Zle_Qle. lia. }
    unfold between. split; nra. }
  eapply between_weaken.
  - apply (between_min 0 1.3 1); [|lra].
    eapply between_weaken; [apply (between_add 0 1 0 0.3); eassumption | lra | lra].
  - lra.
  - lra.
Qed.

Lemma web_interest_bounds (w : GoogleWebDetection) :
  Forall valid_web_entity (or_nil (webEntities w)) ->
  between 0 1 (calculateWebInterestScore w).
Proof.
  intros H. unfold calculateWebInterestScore.
  destruct (webEntities w) as [[|e es]|]; [simpl; lra | | simpl; lra].
  cbn [or_nil] in H. set (entities := e :: es) in *.
  set (entityScores := map _ entities).
  assert (G : forall (xs : list WebEntity) (a : Q), Forall valid_web_entity xs -> 0 <= a ->
    exists q, fold_left
      (fun (sum : num) '((score, hasDescription) : num * bool) =>
         sum + score * (if hasDescription then Fin 1.2 else Fin 1))
      (map (fun entity => (opt_or (web_score entity) 0, has_text (web_description entity))) xs)
      (Fin a) = Fin q /\ 0 <= q).
  { clear. intros xs a Hx. revert a. induction Hx as [|x xs Hv Hxs IH]; intros a Ha.
    - exists a. split; [reflexivity | assumption].
    - cbn [map fold_left]. unfold valid_web_entity in Hv.
      assert (Hs : exists s, opt_or (web_score x) 0 = Fin s /\ 0 <= s).
      { unfold opt_or. destruct (web_score x) as [[s| | |]|]; try contradiction.
        - unfold or_else. destruct (truthy (Fin s)); eexists; split; try reflexivity; lra.
        - exists 0. split; [reflexivity | lra]. }
      destruct Hs as (s & -> & Hs).
      destruct (has_text (web_description x)); cbn [JS.add JS.mul]; apply IH; nra. }
  destruct (G entities 0 H) as (q & Hq & Hq0); [lra|].
  fold entityScores in Hq. rewrite Hq.
  assert (Hn : length entityScores <> 0%nat) by (unfold entityScores; simpl; lia).
  rewrite div_of_nat by assumption.
  rewrite div_fin by (intros Hz; discriminate Hz).
  pose proof (of_nat_pos _ Hn) as Hp.
  apply (between_min 0 (q / inject_Z (Z.of_nat (length entityScores)) / 0.8) 1); [|lra].
  unfold between. split; [|lra].
  apply Qle_shift_div_l; [lra|]. rewrite Qmult_0_l.
  apply Qle_shift_div_l; lra.
Qed.

Lemma interest_bounds (a : PhotoAnalysis) :
  valid_analysis a -> between 0 1.12 (calculateInterestScore a).
Proof.
  intros [Hf Hl Hm _ Hw]. unfold calculateInterestScore.
  pose proof (face_interest_bounds _ Hf) as B1.
  pose proof (landmark_interest_bounds _ Hm) as B2.
  pose proof (label_interest_bounds _ Hl) as B3.
  pose proof (web_interest_bounds _ Hw) as B4.
  eapply between_weaken.
  - apply between_add; [apply between_add; [apply between_add; [apply between_add|]|]|].
    + instantiate (1 := 0). instantiate (1 := 0). simpl. lra.
    + apply (between_scale 0 1.2 0.35); [lra | exact B1].
    + apply (between_scale 0 1.2 0.25); [lra | exact B2].
    + apply (between_scale 0 1 0.25); [lra | exact B3].
    + apply (between_scale 0 1 0.15); [lra | exact B4].
  - lra.
  - lra.
Qed.

(** *** Uniqueness *)

Lemma Qsqrt_of_nat_ge_1 (k : nat) : (1 <= k)%nat -> 1 <= Qsqrt (inject_Z (Z.of_nat k)).
Proof.
  intros H. unfold Qsqrt, inject_Z, Qle. cbn [Qnum Qden].
  rewrite Z.mul_1_l, Z.mul_1_r, Z.mul_1_r, Pos.mul_1_l.
  set (s := Zpos sqrt_scale).
  assert (Hs : (0 < s)%Z) by reflexivity.
  rewrite <- (Z.sqrt_square s) at 1 by lia.
  apply Z.sqrt_le_mono. nia.
Qed.

Lemma frequency_or_1_positive (m : gmap string nat) (key : string) :
  exists k : nat, (1 <= k)%nat /\ frequency_or_1 m key = of_nat k.
Proof.
  unfold frequency_or_1. destruct (m !! key) as [[|n]|].
  - exists 1%nat. split; [lia | reflexivity].
  - exists (S n). split; [lia|]. unfold or_else, of_nat, of_Z, truthy.
    rewrite Qeq_bool_false; [reflexivity|].
    pose proof (of_nat_pos (S n)) as Hp. intros Hz. rewrite Hz in Hp.
    assert (0 < 0) by (apply Hp; discriminate). lra.
  - exists 1%nat. split; [lia | reflexivity].
Qed.

Lemma uniqueness_weight (m : gmap string nat) (key : string) :
  between 0 1 (1 / Math_sqrt (frequency_or_1 m key)).
Proof.
  destruct (frequency_or_1_positive m key) as (k & Hk & ->).
  unfold of_nat, of_Z, Math_sqrt.
  assert (Hp : 0 < inject_Z (Z.of_nat k)) by (apply of_nat_pos; lia).
  rewrite (proj2 (Qle_bool_iff _ _)) by lra.
  pose proof (Qsqrt_of_nat_ge_1 k Hk) as Hr.
  rewrite div_fin by lra.
  unfold between. split.
  - apply Qle_shift_div_l; lra.
  - apply Qle_shift_div_r; lra.
Qed.

Lemma index_pairs_Forall {A} (P : A -> Prop) (xs : list A) :
  Forall P xs -> Forall (fun pair => P (fst pair) /\ P (snd pair)) (index_pairs xs).
Proof.
  intros H. induction H as [|x xs Hx Hxs IH]; cbn [index_pairs]; [constructor|].
  apply List.Forall_app. split; [|exact IH].
  apply List.Forall_map. eapply List.Forall_impl; [|exact Hxs].
  intros y Hy. now split.
Qed.

Lemma between_min_both (x y : num) : in_unit x -> in_unit y -> in_unit (Math_min x y).
Proof.
  intros Hx Hy. apply between_fin in Hx as (a & -> & Ha).
  apply between_fin in Hy as (b & -> & Hb).
  destruct (Math_min_fin a b) as (c & -> & H1 & H2 & [-> | ->]); simpl; lra.
Qed.

Lemma label_uniqueness_in_unit (this : Selector) (ls : list Label) :
  Forall (fun l => in_unit (score l)) ls ->
  in_unit (calculateLabelUniqueness this ls).
Proof.
  intros H. unfold calculateLabelUniqueness.
  destruct (length ls =? 0)%nat eqn:E; [simpl; lra|].
  apply length_zero_eqb in E.
  set (individualScores := map _ ls).
  set (combinationScores := map _ (index_pairs ls)).
  assert (Hi : between 0 1 (JS.sum individualScores / of_nat (length individualScores))).
  { apply average_between.
    - unfold individualScores. destruct ls; [contradiction | discriminate].
    - unfold individualScores. apply List.Forall_map.
      eapply List.Forall_impl; [|exact H]. intros l Hl.
      eapply between_weaken;
        [apply (between_mul 1 1); [apply uniqueness_weight | exact Hl] | lra | lra]. }
  assert (Hc : between 0 1
            (if (0 <? length combinationScores)%nat
             then JS.sum combinationScores / of_nat (length combinationScores)
             else 0)).
  { destruct (0 <? length combinationScores)%nat eqn:En; [|simpl; lra].
    apply average_between.
    - destruct combinationScores; [discriminate | discriminate].
    - unfold combinationScores. apply List.Forall_map.
      eapply List.Forall_impl; [|exact (index_pairs_Forall _ ls H)].
      intros [li lj] [Hli Hlj]. cbn [fst snd] in *.
      eapply between_weaken;
        [apply (between_mul 1 1); [apply uniqueness_weight | now apply between_min_both]
        | lra | lra]. }
  eapply between_weaken.
  - apply between_add; [apply (between_scale 0 1 0.4); [lra | exact Hi]
                       | apply (between_scale 0 1 0.6); [lra | exact Hc]].
  - lra.
  - lra.
Qed.

(** The share [1 - count / total] of a count within its total. *)
Lemma share_in_unit (count total : nat) :
  total <> 0%nat -> (count <= total)%nat ->
  in_unit (1 - of_nat count / of_nat total).
Proof.
  intros Ht Hc. pose proof (of_nat_pos _ Ht) as Hp.
  unfold of_nat, of_Z. rewrite div_fin by lra.
  cbn [JS.sub JS.neg JS.add]. unfold in_unit, between.
  assert (Hq : 0 <= inject_Z (Z.of_nat count) <= inject_Z (Z.of_nat total)).
  { split; [change 0 with (inject_Z 0) |]; rewrite <- Zle_Qle; lia. }
  assert (Hd : 0 <= inject_Z (Z.of_nat count) / inject_Z (Z.of_nat total) <= 1).
  { split; [apply Qle_shift_div_l; lra | apply Qle_shift_div_r; lra]. }
  lra.
Qed.

(** A fall below one: [Math.max(0, 1 - n / d)]. *)
Lemma floored_share_in_unit (n : nat) (d : Q) :
  0 < d -> in_unit (Math_max 0 (1 - of_nat n / Fin d)).
Proof.
  intros Hd. unfold of_nat, of_Z. rewrite div_fin by lra.
  cbn [JS.sub JS.neg JS.add].
  assert (Hq : 0 <= inject_Z (Z.of_nat n))
    by (change 0 with (inject_Z 0); rewrite <- Zle_Qle; lia).
  assert (Hx : 0 <= inject_Z (Z.of_nat n) / d) by (apply Qle_shift_div_l; lra).
  destruct (Math_max_fin 0 (1 + - (inject_Z (Z.of_nat n) / d)))
    as (c & -> & H1 & H2 & [-> | ->]); unfold in_unit, between; lra.
Qed.

Lemma visual_uniqueness_in_unit (w : GoogleWebDetection) :
  in_unit (calculateVisualUniqueness w).
Proof.
  unfold calculateVisualUniqueness.
  destruct (opt_length (visuallySimilarImages w) =? 0)%nat; [simpl; lra|].
  assert (Hp : in_unit
            (if (opt_length (partialMatchingImages w) =? 0)%nat then Fin 1
             else Math_max 0 (1 - of_nat (opt_length (partialMatchingImages w)) / 5))).
  { destruct (opt_length (partialMatchingImages w) =? 0)%nat; [simpl; lra|].
    apply floored_share_in_unit. lra. }
  eapply between_weaken.
  - apply between_add;
      [apply (between_scale 0 1 0.7); [lra | apply floored_share_in_unit; lra]
      | apply (between_scale 0 1 0.3); [lra | exact Hp]].
  - lra.
  - lra.
Qed.

Lemma count_fold_le {A} (test : A -> bool) (xs : list A) (n : nat) :
  (fold_left (fun count x => if test x then S count else count) xs n <= n + length xs)%nat.
Proof.
  revert n. induction xs as [|x xs IH]; intros n; cbn [fold_left length]; [lia|].
  destruct (test x); [specialize (IH (S n)) | specialize (IH n)]; lia.
Qed.

Lemma color_uniqueness_in_unit (this : Selector) (properties : ImageProperties) :
  photos this <> [] ->
  Forall (fun c => in_unit (pixelFraction c)) (dominantColors properties) ->
  in_unit (calculateColorUniqueness this properties).
Proof.
  intros Hpool H. unfold calculateColorUniqueness.
  destruct (length (dominantColors properties) =? 0)%nat eqn:E; [simpl; lra|].
  apply length_zero_eqb in E.
  set (colorDistribution := map _ (dominantColors properties)).
  set (term := fun '((rgb, fraction) : RGB * num) =>
         (1 - of_nat
                (fold_left
                   (fun similarityCount otherPhoto =>
                      if existsb (fun otherColor => areColorsSimilar rgb (color otherColor))
                                 (dominantColors (imageProperties (analysis otherPhoto)))
                      then S similarityCount
                      else similarityCount)
                   (photos this) 0%nat)
              / of_nat (length (photos this))) * fraction).
  assert (Hfold : forall xs a,
             fold_left
               (fun uniquenessScore '(rgb, fraction) =>
                  uniquenessScore +
                  (1 - of_nat
                         (fold_left
                            (fun similarityCount otherPhoto =>
                               if existsb (fun otherColor =>
                                             areColorsSimilar rgb (color otherColor))
                                    (dominantColors (imageProperties (analysis otherPhoto)))
                               then S similarityCount
                               else similarityCount)
                            (photos this) 0%nat)
                       / of_nat (length (photos this))) * fraction)
               xs a
             = fold_left JS.add (map term xs) a).
  { induction xs as [|[rgb fraction] xs IH]; intros a; cbn [fold_left map]; [reflexivity|].
    now rewrite IH. }
  rewrite Hfold. fold (JS.sum (map term colorDistribution)).
  rewrite <- (length_map term colorDistribution).
  apply average_between.
  - unfold colorDistribution.
    destruct (dominantColors properties); [contradiction | discriminate].
  - apply List.Forall_map. unfold colorDistribution. apply List.Forall_map.
    eapply List.Forall_impl; [|exact H]. intros c Hc. unfold term.
    eapply between_weaken; [apply (between_mul 1 1); [|exact Hc] | lra | lra].
    apply share_in_unit.
    + destruct (photos this); [contradiction | discriminate].
    + apply (count_fold_le _ (photos this) 0).
Qed.

Lemma layout_uniqueness_in_unit (this : Selector) (fs : list FaceAnalysis)
    (ls : list Landmark) :
  photos this <> [] -> in_unit (calculateLayoutUniqueness this fs ls).
Proof.
  intros Hpool. unfold calculateLayoutUniqueness.
  destruct (length _ =? 0)%nat; [simpl; lra|].
  apply share_in_unit.
  - destruct (photos this); [contradiction | discriminate].
  - apply (count_fold_le
             (fun otherPhoto =>
                calculateLayoutSimilarity
                  (createLayoutFingerprint
                     (map face_boundingBox fs ++ map landmark_boundingBox ls))
                  (createLayoutFingerprint (getVisualElements otherPhoto)) >? 0.8)
             (photos this) 0).
Qed.

Lemma uniqueness_in_unit (this : Selector) (p : EnhancedPhoto) :
  photos this <> [] -> valid_analysis (analysis p) ->
  in_unit (calculateUniquenessScore this p).
Proof.
  intros Hpool [_ Hl _ Hc _]. unfold calculateUniquenessScore, calculateCompositionUniqueness.
  pose proof (label_uniqueness_in_unit this _ Hl) as B1.
  pose proof (visual_uniqueness_in_unit (webDetection (analysis p))) as B2.
  pose proof (color_uniqueness_in_unit this _ Hpool Hc) as B3.
  pose proof (layout_uniqueness_in_unit this (faces (analysis p)) (landmarks (analysis p))
                Hpool) as B4.
  assert (B5 : in_unit
            (calculateColorUniqueness this (imageProperties (analysis p)) * 0.5 +
             calculateLayoutUniqueness this (faces (analysis p)) (landmarks (analysis p))
             * 0.5)).
  { eapply between_weaken.
    - eapply between_add; [apply (between_scale 0 1 0.5); [lra | exact B3]
                          | apply (between_scale 0 1 0.5); [lra | exact B4]].
    - lra.
    - lra. }
  eapply between_weaken.
  - eapply between_add; [eapply between_add|].
    + apply (between_scale 0 1 0.4); [lra | exact B1].
    + apply (between_scale 0 1 0.4); [lra | exact B2].
    + apply (between_scale 0 1 0.2); [lra | exact B5].
  - lra.
  - lra.
Qed.

(** *** From the response to the analysis *)

Lemma convertLikelihood_in_unit (l : option Likelihood) : in_unit (convertLikelihood l).
Proof.
  destruct l as [[]|]; vm_compute; split; discriminate.
Qed.

Lemma opt_or_in_unit (o : option num) : optional_unit o -> in_unit (opt_or o 0).
Proof.
  destruct o as [x|]; cbn [optional_unit opt_or].
  - apply or_else_in_unit.
  - intros _. unfold in_unit, between. lra.
Qed.

Lemma analysis_of_valid (result : AnnotateImageResponse) :
  valid_response result -> valid_analysis (analysis_of result).
Proof.
  intros [Hf Hl Hm Hc Hw]. constructor; cbn [analysis_of faces labels landmarks
                                             imageProperties webDetection].
  - apply List.Forall_map. eapply List.Forall_impl; [|exact Hf].
    intros f Hcf. unfold valid_face. cbn [confidence emotions joy sorrow anger surprise].
    repeat split; try apply convertLikelihood_in_unit; now apply opt_or_in_unit.
  - apply List.Forall_map. eapply List.Forall_impl; [|exact Hl].
    intros l Hs. cbn [score]. now apply opt_or_in_unit.
  - apply List.Forall_map. eapply List.Forall_impl; [|exact Hm].
    intros l Hs. cbn [landmark_score]. now apply opt_or_in_unit.
  - unfold processImageProperties, response_colors in *.
    destruct (imagePropertiesAnnotation result) as [[[[[cs|]]|]]|];
      cbn [dominantColors or_nil] in *; try constructor.
    apply List.Forall_map. eapply List.Forall_impl; [|exact Hc].
    intros c Hp. cbn [pixelFraction]. now apply opt_or_in_unit.
  - exact Hw.
Qed.

(** *** Quality, temporal position and the final score *)

Lemma quality_in_unit (q : QualityMetrics) :
  valid_quality q -> in_unit (calculateQualityScore q).
Proof.
  intros (Hb & He & Hn & Hc). unfold calculateQualityScore.
  eapply between_weaken.
  - eapply between_add; [eapply between_add; [eapply between_add|]|].
    + apply (between_scale 0 1 0.35); [lra | exact Hb].
    + apply (between_scale 0 1 0.25); [lra | exact He].
    + apply (between_scale 0 1 0.2); [lra | exact Hn].
    + apply (between_scale 0 1 0.2); [lra | exact Hc].
  - lra.
  - lra.
Qed.

Lemma temporal_within_range (dateTime : Date) (tr : TimeRange) :
  within_range dateTime tr -> between 0.5 1 (calculateTemporalScore dateTime tr).
Proof.
  intros (t & a & b & -> & Ha & Hb & Hlt & Hs & He).
  destruct tr as [range_start range_end]. cbn in Ha, Hb. subst range_start range_end.
  rewrite temporal_formula by assumption.
  destruct (normalizedPosition_scaled a b Hlt) as (k & Hk & Hinv & Hpos).
  unfold between. rewrite (Hpos t).
  rewrite Zlt_Qlt in Hlt. rewrite Zle_Qle in Hs, He.
  apply Qabs_case; intros; nra.
Qed.

Lemma final_of_NaN_quality (this : Selector) (options : HighlightOptions)
    (p : EnhancedPhoto) :
  calculateQualityScore (quality (analysis p)) = NaN ->
  final (score_photo this options p) = NaN.
Proof.
  intros H. unfold score_photo. cbn [final]. rewrite H.
  now rewrite mul_NaN_l, add_NaN_r, !add_NaN_l.
Qed.

(** The photos that [selectHighlights] ranks are the photos of the pool,
    each with the scores of [score_photo]. *)
Lemma scoredPhotos_scores (this : Selector) (options : HighlightOptions)
    (scored : EnhancedPhoto) :
  In scored (scoredPhotos this options) <->
  exists p, In p (photos this) /\
            scored = {| photo := photo p; analysis := analysis p;
                        scores := Some (score_photo this options p) |}.
Proof.
  unfold scoredPhotos. rewrite in_map_iff.
  split; intros (p & H1 & H2); exists p; [split; [exact H2 | now symmetry] |].
  split; [now symmetry | exact H1].
Qed.

(** C1 (as amended): for a photo of the pool with valid annotation input,
    the relevance and the uniqueness score lie in [0, 1], the emotion score
    in [-0.2, 1] and the interest score in [0, 1.12]; the temporal score
    lies in [0.5, 1] when the photo is taken within a time range of positive
    length; the quality score lies in [0, 1] when the four stored quality
    metrics do, and then, for a photo within the range and the default
    weights, the final score lies in [0.02, 1.024].  The photo may have no
    face, no colour and no label. *)
Theorem score_bounds (this : Selector) (options : HighlightOptions) (p : EnhancedPhoto) :
  In p (photos this) ->
  valid_analysis (analysis p) ->
  let s := score_photo this options p in
  in_unit (score_relevance s) /\
  in_unit (score_uniqueness s) /\
  between (-0.2) 1 (score_emotion s) /\
  between 0 1.12 (score_interest s) /\
  (within_range (dateTime (photo p)) (timeRange options) ->
   between 0.5 1 (score_temporal s)) /\
  (valid_quality (quality (analysis p)) -> in_unit (score_quality s)) /\
  (valid_quality (quality (analysis p)) ->
   within_range (dateTime (photo p)) (timeRange options) ->
   weights options = None ->
   between 0.02 1.024 (final s)).
Proof.
  intros Hin Hv s.
  assert (Hpool : photos this <> []) by (intros E; rewrite E in Hin; contradiction).
  assert (Br : in_unit (score_relevance s))
    by (apply relevance_in_unit, (valid_labels _ Hv)).
  assert (Bu : in_unit (score_uniqueness s)) by now apply uniqueness_in_unit.
  assert (Be : between (-0.2) 1 (score_emotion s))
    by (apply emotion_bounds, (valid_faces _ Hv)).
  assert (Bi : between 0 1.12 (score_interest s)) by now apply interest_bounds.
  split; [exact Br|]. split; [exact Bu|]. split; [exact Be|]. split; [exact Bi|].
  split; [intros Hr; now apply temporal_within_range|].
  split; [intros Hq; now apply quality_in_unit|].
  intros Hq Hr Hw.
  pose proof (quality_in_unit _ Hq) as Bq.
  pose proof (temporal_within_range _ _ Hr) as Bt.
  unfold s, score_photo in *. cbn [final score_relevance score_uniqueness score_emotion
                                   score_interest] in *.
  rewrite Hw. cbn [merged_weight defaultWeights w_quality w_interest w_emotion
                   w_uniqueness w_relevance w_temporal].
  eapply between_weaken.
  - eapply between_add;
      [eapply between_add;
       [eapply between_add; [eapply between_add; [eapply between_add;
                                                  [eapply between_add|]|]|]|]|].
    + instantiate (1 := 0). instantiate (1 := 0). unfold between. lra.
    + apply (between_scale 0 1 0.25); [lra | exact Bq].
    + apply (between_scale 0 1.12 0.2); [lra | exact Bi].
    + apply (between_scale (-0.2) 1 0.15); [lra | exact Be].
    + apply (between_scale 0 1 0.15); [lra | exact Bu].
    + apply (between_scale 0 1 0.15); [lra | exact Br].
    + apply (between_scale 0.5 1 0.1); [lra | exact Bt].
  - lra.
  - lra.
Qed.

Lemma beach_photo_valid : valid_analysis (analysis beach_photo).
Proof.
  constructor; cbn; repeat constructor; unfold in_unit, between, valid_web_entity;
    cbn; lra.
Qed.

(** The beach photo ["A"], scored within the pool of the two beach
    photos. *)
Lemma score_bounds_witness :
  In beach_photo (photos beach_selector) /\
  valid_analysis (analysis beach_photo) /\
  in_unit (score_relevance (score_photo beach_selector beach_options beach_photo)) /\
  in_unit (score_uniqueness (score_photo beach_selector beach_options beach_photo)).
Proof.
  assert (Hin : In beach_photo (photos beach_selector)) by (left; reflexivity).
  split; [exact Hin|].
  split; [exact beach_photo_valid|].
  pose proof (score_bounds beach_selector beach_options beach_photo Hin
                beach_photo_valid) as B.
  destruct B as (Br & Bu & _).
  split; [exact Br | exact Bu].
Defined.

Lemma sorrow_and_anger_valid : valid_analysis (analysis_of sorrow_and_anger).
Proof.
  constructor; cbn; repeat constructor; unfold in_unit, between, valid_web_entity;
    cbn; lra.
Qed.

Lemma festive_valid : valid_analysis (analysis_of festive).
Proof.
  constructor; cbn; repeat constructor; unfold in_unit, between, valid_web_entity;
    cbn; lra.
Qed.

(** C1 (as stated) fails on valid annotation input: the emotion score of
    a face in sorrow and anger is -0.2 and the interest score of a festive
    photo is 1.12.  The temporal score of a photo taken two range lengths
    after the end of the time range is -1.5, and the quality score and the
    final score of a photo with one face and no dominant-colour data are
    NaN, whatever the pool and the options. *)
Lemma scores_leave_unit_interval :
  (valid_analysis (analysis_of sorrow_and_anger) /\
   calculateEmotionScore (faces (analysis_of sorrow_and_anger)) =n= (-0.2)%Q /\
   ~ in_unit (calculateEmotionScore (faces (analysis_of sorrow_and_anger)))) /\
  (valid_analysis (analysis_of festive) /\
   calculateInterestScore (analysis_of festive) =n= 1.12 /\
   ~ in_unit (calculateInterestScore (analysis_of festive))) /\
  (calculateTemporalScore 3000 {| range_start := 0; range_end := 1000 |} =n= (-1.5)%Q /\
   ~ in_unit (calculateTemporalScore 3000 {| range_start := 0; range_end := 1000 |})) /\
  (forall (this : Selector) (options : HighlightOptions) (ph : Photo),
      let p := {| photo := ph; analysis := analysis_of one_face_no_colors;
                  scores := None |} in
      score_quality (score_photo this options p) = NaN /\
      final (score_photo this options p) = NaN /\
      ~ in_unit (score_quality (score_photo this options p)) /\
      ~ in_unit (final (score_photo this options p))).
Proof.
  assert (He : calculateEmotionScore (faces (analysis_of sorrow_and_anger)) =n= (-0.2)%Q)
    by (vm_compute; reflexivity).
  assert (Hi : calculateInterestScore (analysis_of festive) =n= 1.12)
    by (vm_compute; reflexivity).
  assert (Ht : calculateTemporalScore 3000 {| range_start := 0; range_end := 1000 |}
               =n= (-1.5)%Q)
    by (vm_compute; reflexivity).
  split; [split; [exact sorrow_and_anger_valid|];
          split; [exact He | apply (below_unit _ _ He); reflexivity]|].
  split; [split; [exact festive_valid|];
          split; [exact Hi | apply (above_unit _ _ Hi); reflexivity]|].
  split; [split; [exact Ht | apply (below_unit _ _ Ht); reflexivity]|].
  intros this options ph p.
  assert (Hq : calculateQualityScore (quality (analysis p)) = NaN) by reflexivity.
  assert (Hf : final (score_photo this options p) = NaN)
    by (apply final_of_NaN_quality; exact Hq).
  rewrite Hf. change (score_quality (score_photo this options p)) with NaN.
  repeat split; unfold in_unit; simpl; tauto.
Qed.

(** ** Adding photos *)

Section AddPhotos.

Variable annotateImage : Photo -> Thrown + option AnnotateImageResponse.

(** The loop of [addPhotos] in closed form. *)
Lemma addPhotos_loop_outcomes (ps : list Photo) (this : Selector)
    (results : BatchProcessingResult) :
  fold_left (addPhotos_step annotateImage) ps (this, results) =
  ({| photos := photos this ++ analysed annotateImage ps;
      labelFrequencies :=
        fold_left (fun frequencies p => updateLabelFrequencies frequencies (labels (analysis p)))
                  (analysed annotateImage ps) (labelFrequencies this) |},
   {| success := success results ++ analysed annotateImage ps;
      failed := failed results ++ rejected annotateImage ps |}).
Proof.
  revert this results.
  induction ps as [|p ps IH]; intros this results.
  - cbn. rewrite !app_nil_r. now destruct this, results.
  - cbn [fold_left addPhotos_step analysed rejected].
    destruct (analyzePhoto annotateImage p) as [thrown | enhancedPhoto].
    + rewrite IH. cbn [success failed]. now rewrite <- app_assoc.
    + rewrite IH. cbn [photos labelFrequencies success failed fold_left].
      now rewrite <- !app_assoc.
Qed.

Lemma analysed_app (ps qs : list Photo) :
  analysed annotateImage (ps ++ qs) = analysed annotateImage ps ++ analysed annotateImage qs.
Proof.
  induction ps as [|p ps IH]; cbn [analysed app]; [reflexivity|].
  destruct (analyzePhoto annotateImage p); cbn [app]; now rewrite IH.
Qed.

Lemma rejected_app (ps qs : list Photo) :
  rejected annotateImage (ps ++ qs) = rejected annotateImage ps ++ rejected annotateImage qs.
Proof.
  induction ps as [|p ps IH]; cbn [rejected app]; [reflexivity|].
  destruct (analyzePhoto annotateImage p); cbn [app]; now rewrite IH.
Qed.

Lemma analysed_holds (ps : list Photo) (q : Photo) (enhancedPhoto : EnhancedPhoto) :
  In q ps -> analyzePhoto annotateImage q = inr enhancedPhoto ->
  In enhancedPhoto (analysed annotateImage ps).
Proof.
  intros Hin Hq. induction ps as [|p ps IH]; [contradiction|].
  cbn [analysed]. destruct Hin as [-> | Hin].
  - rewrite Hq. now left.
  - destruct (analyzePhoto annotateImage p); [|right]; now apply IH.
Qed.

Lemma rejected_holds (ps : list Photo) (q : Photo) (thrown : Thrown) :
  In q ps -> analyzePhoto annotateImage q = inl thrown ->
  In (q, as_Error thrown) (rejected annotateImage ps).
Proof.
  intros Hin Hq. induction ps as [|p ps IH]; [contradiction|].
  cbn [rejected]. destruct Hin as [-> | Hin].
  - rewrite Hq. now left.
  - destruct (analyzePhoto annotateImage p); [right|]; now apply IH.
Qed.

End AddPhotos.

(** C10: when the analysis of a photo throws, [addPhotos] leaves the pool
    and both label-frequency tables as they were before that photo and
    adds the photo to the failed list, with the [Error] that was thrown or,
    for a thrown value that is no [Error], with a new [Error] that carries
    the text of the value.  The rest of the batch is processed from that
    state: every later photo that is analysed joins the pool and the
    success list and is counted in the tables, every later photo whose
    analysis throws joins the failed list, and the pool, the tables and
    the success list at the end are those of the batch without the
    photo. *)
Theorem failed_photo_leaves_selector
    (annotateImage : Photo -> Thrown + option AnnotateImageResponse)
    (this : Selector) (before after : list Photo) (p : Photo) (thrown : Thrown) :
  analyzePhoto annotateImage p = inl thrown ->
  let error :=
    match thrown with
    | ThrownError e => e
    | ThrownValue text => {| message := text |}
    end in
  let reached := addPhotos annotateImage this before in
  let final := addPhotos annotateImage this (before ++ p :: after) in
  addPhotos annotateImage this (before ++ [p]) =
    (fst reached,
     {| success := success (snd reached);
        failed := failed (snd reached) ++ [(p, error)] |}) /\
  photos (fst final) = photos (fst reached) ++ analysed annotateImage after /\
  labelFrequencies (fst final) =
    fold_left (fun frequencies q => updateLabelFrequencies frequencies (labels (analysis q)))
              (analysed annotateImage after) (labelFrequencies (fst reached)) /\
  success (snd final) = success (snd reached) ++ analysed annotateImage after /\
  (exists later,
      failed (snd final) = failed (snd reached) ++ (p, error) :: later /\
      map fst later = map fst (rejected annotateImage after)) /\
  (forall q enhancedPhoto,
      In q after -> analyzePhoto annotateImage q = inr enhancedPhoto ->
      In enhancedPhoto (photos (fst final)) /\ In enhancedPhoto (success (snd final))) /\
  (forall q thrown',
      In q after -> analyzePhoto annotateImage q = inl thrown' ->
      In q (map fst (failed (snd final)))) /\
  fst final = fst (addPhotos annotateImage this (before ++ after)) /\
  success (snd final) = success (snd (addPhotos annotateImage this (before ++ after))).
Proof.
  intros H error reached final.
  assert (Herror : as_Error thrown = error) by (destruct thrown; reflexivity).
  assert (Hp : analysed annotateImage [p] = [] /\ rejected annotateImage [p] = [(p, error)]).
  { cbn [analysed rejected]. rewrite H, Herror. split; reflexivity. }
  destruct Hp as [Hpa Hpr].
  assert (Hreached : reached =
            ({| photos := photos this ++ analysed annotateImage before;
                labelFrequencies :=
                  fold_left (fun frequencies q =>
                               updateLabelFrequencies frequencies (labels (analysis q)))
                            (analysed annotateImage before) (labelFrequencies this) |},
             {| success := analysed annotateImage before;
                failed := rejected annotateImage before |})).
  { unfold reached, addPhotos. now rewrite addPhotos_loop_outcomes. }
  assert (Hfinal : final =
            ({| photos := photos (fst reached) ++ analysed annotateImage after;
                labelFrequencies :=
                  fold_left (fun frequencies q =>
                               updateLabelFrequencies frequencies (labels (analysis q)))
                            (analysed annotateImage after)
                            (labelFrequencies (fst reached)) |},
             {| success := success (snd reached) ++ analysed annotateImage after;
                failed := failed (snd reached) ++ (p, error) :: rejected annotateImage after |})).
  { unfold final, addPhotos. rewrite addPhotos_loop_outcomes.
    change (p :: after) with ([p] ++ after).
    rewrite !analysed_app, !rejected_app, Hpa, Hpr, Hreached.
    cbn [fst snd photos labelFrequencies success failed app].
    now rewrite fold_left_app, <- app_assoc. }
  split.
  { unfold addPhotos. rewrite addPhotos_loop_outcomes.
    rewrite analysed_app, rejected_app, Hpa, Hpr, Hreached.
    cbn [fst snd photos labelFrequencies success failed app].
    now rewrite !app_nil_r. }
  rewrite Hfinal. cbn [fst snd photos labelFrequencies success failed].
  split; [reflexivity|]. split; [reflexivity|]. split; [reflexivity|].
  split; [now exists (rejected annotateImage after)|].
  split.
  { intros q enhancedPhoto Hq Hok.
    pose proof (analysed_holds annotateImage after q enhancedPhoto Hq Hok).
    split; apply in_or_app; now right. }
  split.
  { intros q thrown' Hq Hfail. rewrite map_app. apply in_or_app. right. right.
    exact (in_map fst _ _ (rejected_holds annotateImage after q thrown' Hq Hfail)). }
  unfold addPhotos. rewrite addPhotos_loop_outcomes, analysed_app, Hreached.
  cbn [fst snd photos labelFrequencies success failed].
  now rewrite fold_left_app, <- app_assoc.
Qed.

(** A batch in which the service rejects the second of three photos. *)
Lemma failed_photo_leaves_selector_witness :
  analyzePhoto beach_service (photo_at "C" 120) =
    inl (ThrownValue "503 Service Unavailable") /\
  map (fun p => id (photo p))
      (photos (fst (addPhotos beach_service new_selector
                      ([photo_at "A" 110] ++ photo_at "C" 120 :: [photo_at "B" 150]))))
  = ["A"; "B"]%string /\
  failed (snd (addPhotos beach_service new_selector
                 ([photo_at "A" 110] ++ photo_at "C" 120 :: [photo_at "B" 150])))
  = [(photo_at "C" 120, {| message := "503 Service Unavailable" |})].
Proof.
  split; [reflexivity|].
  destruct (failed_photo_leaves_selector beach_service new_selector
              [photo_at "A" 110] [photo_at "B" 150] (photo_at "C" 120)
              (ThrownValue "503 Service Unavailable") eq_refl)
    as (_ & Hpool & _ & _ & (later & Hfailed & Hlater) & _).
  split; [rewrite Hpool; reflexivity|].
  rewrite Hfailed. destruct later; [reflexivity | discriminate Hlater].
Defined.

(** ** Selection *)

(** *** The time buckets *)

(** A range that does not run forward, or that has an invalid date, has
    no bucket: the loop ends before its first iteration. *)
Lemma createTimeBuckets_none (fuel : nat) (timeRange : TimeRange) :
  (getTime (range_start timeRange) <? getTime (range_end timeRange)) = false ->
  createTimeBuckets fuel timeRange = Returns [].
Proof.
  intros H. unfold createTimeBuckets.
  destruct fuel; cbn [createTimeBuckets_loop]; now rewrite H.
Qed.

(** A range of zero length has no bucket. *)
Lemma createTimeBuckets_empty_range (fuel : nat) (t0 : Z) :
  createTimeBuckets fuel {| range_start := t0; range_end := t0 |} = Returns [].
Proof.
  apply createTimeBuckets_none. cbn [range_start range_end getTime].
  apply lt_fin_false. lra.
Qed.

Lemma bind_Returns {A B} (a : A) (k : A -> outcome B) : (Returns a ≫= k) = k a.
Proof. reflexivity. Qed.

Section Selection.

Variable calculateDistance : Location -> Location -> num.

(** Every eligible group has a photo in the bucket. *)
Lemma eligible_groups_not_empty (groups : list (string * list EnhancedPhoto))
    (bucket : TimeBucket) (usedGroups : gset string) (minQuality : num) :
  Forall (fun group => snd group <> [])
         (getEligibleGroupsForBucket groups bucket usedGroups minQuality).
Proof.
  unfold getEligibleGroupsForBucket.
  apply fold_left_invariant; [constructor|].
  intros eligible [groupId members] He.
  destruct (has usedGroups groupId); [assumption|].
  destruct (List.filter _ members) as [|p ps] eqn:E; simpl; [assumption|].
  apply map_set_Forall; [discriminate | assumption].
Qed.

Lemma selectBestGroups_loop_returns (sortedGroups : list (list EnhancedPhoto * num))
    (count : num) (alreadySelected selections : list EnhancedPhoto) :
  Forall (fun group => fst group <> []) sortedGroups ->
  exists chosen,
    selectBestGroups_loop calculateDistance sortedGroups count alreadySelected selections
    = Returns chosen.
Proof.
  intros H. revert selections.
  induction H as [|[members best] rest Hm Hrest IH]; intros selections; simpl.
  - now exists selections.
  - destruct (of_nat (length selections) >=? count)%js; [now exists selections|].
    destruct members as [|p ps]; [now contradiction Hm|]. cbn [fst reduce1].
    destruct (isPhotoDiverse _ _ _); apply IH.
Qed.

Lemma selectBestGroupsFromBucket_returns (groups : list (string * list EnhancedPhoto))
    (bucket : TimeBucket) (usedGroups : gset string) (minQuality count : num)
    (alreadySelected : list EnhancedPhoto) :
  exists chosen,
    selectBestGroupsFromBucket calculateDistance
      (getEligibleGroupsForBucket groups bucket usedGroups minQuality)
      count alreadySelected = Returns chosen.
Proof.
  unfold selectBestGroupsFromBucket.
  apply selectBestGroups_loop_returns.
  apply sort_by_Forall.
  pose proof (eligible_groups_not_empty groups bucket usedGroups minQuality) as H.
  induction H as [|[k members] tl Hx Htl IH]; simpl; constructor; auto.
Qed.

Lemma selectBuckets_loop_returns (groups : list (string * list EnhancedPhoto))
    (options : HighlightOptions) (photosPerBucket : num) (timeBuckets : list TimeBucket)
    (selectedPhotos : list EnhancedPhoto) (usedGroups : gset string) :
  exists state,
    selectBuckets_loop calculateDistance groups options photosPerBucket timeBuckets
                       selectedPhotos usedGroups = Returns state.
Proof.
  revert selectedPhotos usedGroups.
  induction timeBuckets as [|bucket rest IH]; intros selectedPhotos usedGroups.
  - simpl. eauto.
  - cbn [selectBuckets_loop].
    destruct (selectBestGroupsFromBucket_returns groups bucket usedGroups
                (minQuality options) photosPerBucket selectedPhotos) as [chosen Hc].
    rewrite Hc, bind_Returns.
    destruct (fold_left _ chosen (selectedPhotos, usedGroups)) as [selected used].
    apply IH.
Qed.

(** [xs.slice(0, n)] has at most [n] elements when [n] is not
    negative, and is [firstn] for a count. *)
Lemma slice0_within {A} (n : num) (xs : list A) :
  (0 <=? n) = true -> (of_nat (length (slice0 n xs)) <=? n) = true.
Proof.
  destruct n as [q| | |]; cbn [JS.le of_nat of_Z]; try discriminate; try reflexivity.
  intros H. apply Qle_bool_iff in H. apply Qle_bool_iff.
  unfold slice0, truncate. rewrite (proj2 (Qle_bool_iff 0 q) H).
  assert (Hfloor : (0 <= Qfloor q)%Z).
  { change 0%Z with (Qfloor 0). now apply Qfloor_resp_le. }
  replace (Qfloor q <? 0)%Z with false by (symmetry; apply Z.ltb_ge; assumption).
  rewrite length_firstn.
  apply Qle_trans with (inject_Z (Qfloor q)); [|apply Qfloor_le].
  rewrite <- Zle_Qle. lia.
Qed.

Lemma slice0_of_nat {A} (n : nat) (xs : list A) : slice0 (of_nat n) xs = firstn n xs.
Proof.
  unfold slice0, of_nat, of_Z, truncate.
  assert (H : Qle_bool 0 (inject_Z (Z.of_nat n)) = true).
  { apply Qle_bool_iff. change 0 with (inject_Z 0). rewrite <- Zle_Qle. lia. }
  rewrite H, Qfloor_Z.
  replace (Z.of_nat n <? 0)%Z with false by (symmetry; apply Z.ltb_ge; lia).
  now rewrite Nat2Z.id.
Qed.

(** Once the loop over the time range has ended, [selectDiverseHighlights]
    returns: the fill of the buckets raises no error, and the result is
    the selection cut to the limit. *)
Lemma selectDiverseHighlights_returns (fuel : nat)
    (groups : list (string * list EnhancedPhoto)) (options : HighlightOptions)
    (timeBuckets : list TimeBucket) :
  createTimeBuckets fuel (timeRange options) = Returns timeBuckets ->
  exists selectedPhotos,
    selectDiverseHighlights calculateDistance fuel groups options
    = Returns (slice0 (limit options) selectedPhotos).
Proof.
  intros Hb. unfold selectDiverseHighlights.
  rewrite Hb, bind_Returns.
  destruct (selectBuckets_loop_returns groups options
              (Math_ceil (limit options / of_nat (length timeBuckets)))
              timeBuckets [] ∅) as [[selected used] Hs].
  rewrite Hs, bind_Returns.
  eexists. reflexivity.
Qed.

(** C7 (as amended): a call of [selectHighlights] with a limit that is
    not negative returns, once its loop over the time range has ended, a
    list of at most [options.limit] photos. *)
Theorem highlights_within_limit (fuel : nat) (this : Selector) (options : HighlightOptions)
    (timeBuckets : list TimeBucket) :
  createTimeBuckets fuel (timeRange options) = Returns timeBuckets ->
  (0 <=? limit options) = true ->
  exists highlights,
    selectHighlights calculateDistance fuel this options = Returns highlights /\
    (of_nat (length highlights) <=? limit options) = true.
Proof.
  intros Hloop Hlimit. unfold selectHighlights.
  destruct (selectDiverseHighlights_returns fuel
              (groupSimilarPhotos calculateDistance (scoredPhotos this options))
              options timeBuckets Hloop) as [selected Hs].
  rewrite Hs. eexists. split; [reflexivity|].
  now apply slice0_within.
Qed.

(** *** A time range of zero length *)

Lemma temporal_score_zero_range (t t0 : Z) :
  calculateTemporalScore t {| range_start := t0; range_end := t0 |} =
  if (t =? t0)%Z then NaN else NInf.
Proof.
  unfold calculateTemporalScore. cbn [range_start range_end getTime]. unfold of_Z.
  cbn [JS.sub JS.neg JS.add].
  assert (Hz : inject_Z t0 + - inject_Z t0 == 0) by ring.
  destruct (Z.eqb_spec t t0) as [-> | Hne].
  - now rewrite div_zero_zero.
  - destruct (Z.lt_total t t0) as [Hlt | [Heq | Hgt]]; [| contradiction |].
    + rewrite div_neg_zero; [reflexivity | | assumption].
      rewrite Zlt_Qlt in Hlt. lra.
    + rewrite div_pos_zero; [reflexivity | | assumption].
      rewrite Zlt_Qlt in Hgt. lra.
Qed.

(** With a time range of zero length [selectHighlights] returns: the
    range has no bucket and the result is the backfill alone. *)
Lemma zero_length_range_backfill (fuel : nat) (this : Selector) (t0 : Z)
    (count : nat) (threshold : num) (types : list string)
    (overrides : option WeightOptions) :
  let options :=
    {| limit := of_nat count;
       timeRange := {| range_start := t0; range_end := t0 |};
       minQuality := threshold;
       preferredTypes := types;
       weights := overrides |} in
  selectHighlights calculateDistance fuel this options =
    Returns (selectRemainingBestPhotos
               (groupSimilarPhotos calculateDistance (scoredPhotos this options))
               ∅ (of_nat count) threshold) /\
  createTimeBuckets fuel (timeRange options) = Returns [].
Proof.
  intros options.
  split; [|apply createTimeBuckets_empty_range].
  unfold selectHighlights, selectDiverseHighlights.
  cbn [timeRange options]. rewrite createTimeBuckets_empty_range.
  rewrite bind_Returns. cbn [selectBuckets_loop]. rewrite bind_Returns.
  cbn [length limit minQuality options].
  f_equal. rewrite slice0_of_nat.
  destruct count as [|n].
  - unfold selectRemainingBestPhotos. now rewrite slice0_of_nat.
  - replace (of_nat 0 <? of_nat (S n)) with true.
    + cbn [app].
      replace (of_nat (S n) - of_nat 0) with (of_nat (S n)).
      * unfold selectRemainingBestPhotos. rewrite slice0_of_nat, firstn_firstn.
        now rewrite Nat.min_id.
      * unfold of_nat, of_Z. cbn [JS.sub JS.neg JS.add]. f_equal.
        unfold Qplus, Qopp, inject_Z. cbn. f_equal. lia.
    + symmetry. apply lt_fin. unfold of_nat.
      rewrite <- Zlt_Qlt. lia.
Qed.

(** *** Marking a group used *)

Lemma mark_accepted (chosen selectedPhotos : list EnhancedPhoto) (usedGroups : gset string) :
  fold_left
    (fun '(selectedPhotos, usedGroups) p =>
       (selectedPhotos ++ [p], usedGroups ∪ {[id (photo p)]}))
    chosen (selectedPhotos, usedGroups)
  = (selectedPhotos ++ chosen, usedGroups ∪ list_to_set (ids chosen)).
Proof.
  revert selectedPhotos usedGroups.
  induction chosen as [|p chosen IH]; intros selectedPhotos usedGroups; cbn [fold_left].
  - rewrite app_nil_r. f_equal. cbn. now rewrite union_empty_r_L.
  - rewrite IH. rewrite <- app_assoc. f_equal.
    cbn [ids map list_to_set]. fold (ids chosen). now rewrite assoc_L by apply _.
Qed.

(** What the bucket fill marks used are the ids of the photos it
    accepts. *)
Lemma bucket_fill_marks_photo_ids (groups : list (string * list EnhancedPhoto))
    (options : HighlightOptions) (photosPerBucket : num) (timeBuckets : list TimeBucket)
    (selectedPhotos selectedPhotos' : list EnhancedPhoto)
    (usedGroups usedGroups' : gset string) :
  selectBuckets_loop calculateDistance groups options photosPerBucket timeBuckets
                     selectedPhotos usedGroups = Returns (selectedPhotos', usedGroups') ->
  exists accepted,
    selectedPhotos' = selectedPhotos ++ accepted /\
    usedGroups' = usedGroups ∪ list_to_set (ids accepted).
Proof.
  revert selectedPhotos usedGroups.
  induction timeBuckets as [|bucket rest IH]; intros selectedPhotos usedGroups H.
  - cbn in H. injection H as <- <-. exists [].
    rewrite app_nil_r. cbn. now rewrite union_empty_r_L.
  - cbn [selectBuckets_loop] in H.
    destruct (selectBestGroupsFromBucket_returns groups bucket usedGroups
                (minQuality options) photosPerBucket selectedPhotos) as [chosen Hc].
    rewrite Hc, bind_Returns, mark_accepted in H.
    destruct (IH _ _ H) as (accepted & -> & ->).
    exists (chosen ++ accepted). rewrite app_assoc. split; [reflexivity|].
    unfold ids. rewrite map_app, list_to_set_app_L.
    now rewrite assoc_L by apply _.
Qed.


(** C4, on a pool of two similar beach photos, ["A"] and the
    better-scoring ["B"]: they form one group, keyed by its anchor ["A"].
    The bucket fill accepts ["B"] and marks the id ["B"] used, not the key
    ["A"] of the group; the backfill then takes both members of the group,
    and the result holds ["B"] twice and ["A"]. *)
Theorem accepted_member_leaves_group_unmarked :
  let groups :=
    groupSimilarPhotos calculateDistance (scoredPhotos beach_selector beach_options) in
  map (fun group => (fst group, ids (snd group))) groups = [("A", ["A"; "B"])]%string /\
  match createTimeBuckets 10 (timeRange beach_options) with
  | Returns timeBuckets =>
      match selectBuckets_loop calculateDistance groups beach_options
              (Math_ceil (limit beach_options / of_nat (length timeBuckets)))
              timeBuckets [] ∅ with
      | Returns (selectedPhotos, usedGroups) =>
          ids selectedPhotos = ["B"]%string /\
          has usedGroups "B" = true /\
          has usedGroups "A" = false
      | _ => False
      end
  | _ => False
  end /\
  match selectHighlights calculateDistance 10 beach_selector beach_options with
  | Returns highlights => ids highlights = ["B"; "B"; "A"]%string
  | _ => False
  end.
Proof.
  cbn zeta. split; [vm_compute; reflexivity|].
  split; vm_compute; repeat split.
Qed.

End Selection.

Lemma highlights_within_limit_witness :
  createTimeBuckets 10 (timeRange beach_options) = Returns (tiles 10 0 100) /\
  (0 <=? limit beach_options) = true /\
  exists highlights,
    selectHighlights (fun _ _ => 0) 10 beach_selector beach_options = Returns highlights /\
    (of_nat (length highlights) <=? limit beach_options) = true.
Proof.
  assert (Hloop : createTimeBuckets 10 (timeRange beach_options) = Returns (tiles 10 0 100))
    by (vm_compute; reflexivity).
  split; [exact Hloop|]. split; [reflexivity|].
  exact (highlights_within_limit (fun _ _ => 0) 10 beach_selector beach_options
           (tiles 10 0 100) Hloop eq_refl).
Defined.

(** C7 (as stated) fails for a negative limit: with the limit -1 the
    call on the two beach photos returns the empty list, whose length, 0,
    is more than the limit. *)
Lemma highlights_exceed_negative_limit :
  selectHighlights (fun _ _ => 0) 10 beach_selector negative_limit_options = Returns [] /\
  limit negative_limit_options = (-1)%Q /\
  (of_nat (length (@nil EnhancedPhoto)) <=? limit negative_limit_options) = false.
Proof. split; [vm_compute; reflexivity|]. split; reflexivity. Qed.

(** The loop over the time range does not end for every range: from
    2e15 ms to 2e15 + 1 ms the bucket length is the double nearest to 0.1,
    the sum of the time and the bucket length is the time again, and the
    loop runs out of any fuel. *)
Lemma createTimeBuckets_stuck (fuel : nat) :
  createTimeBuckets fuel
    {| range_start := 2000000000000000; range_end := 2000000000000001 |} = OutOfFuel.
Proof.
  unfold createTimeBuckets. cbn [range_start range_end getTime].
  set (bucketDuration := rounded (rounded (of_Z 2000000000000001 - of_Z 2000000000000000) / 10)).
  assert (Hstay : rounded (of_Z 2000000000000000 + bucketDuration) = of_Z 2000000000000000)
    by (vm_compute; reflexivity).
  assert (Hgo : (of_Z 2000000000000000 <? of_Z 2000000000000001) = true) by reflexivity.
  induction fuel as [|fuel IH]; cbn [createTimeBuckets_loop]; rewrite Hgo; [reflexivity|].
  cbv zeta. rewrite Hstay, IH. reflexivity.
Qed.

(** A sum that falls short of the end by the rounding gives an eleventh
    bucket: over the range from 0 ms to 22 ms. *)
Lemma createTimeBuckets_eleven :
  exists timeBuckets,
    createTimeBuckets 11 {| range_start := 0; range_end := 22 |} = Returns timeBuckets /\
    length timeBuckets = 11%nat.
Proof. eexists. split; [vm_compute; reflexivity | reflexivity]. Qed.

(** C6, over the single instant 110 ms at which the beach photo ["A"] was
    taken: its normalized position is the outcome of 0 / 0 and its temporal
    score and final score are NaN, where the position 0.5 gives the
    temporal score 1; the photo ["B"], taken later, has the temporal score
    minus infinity.  The call returns both photos, without raising. *)
Theorem zero_range_position_not_half :
  temporal_score_at 0.5 =n= 1 /\
  (forall t t0 : Z,
      calculateTemporalScore t {| range_start := t0; range_end := t0 |} =
      if (t =? t0)%Z then NaN else NInf) /\
  match selectHighlights (fun _ _ => 0) 10 beach_selector instant_options with
  | Returns highlights =>
      map (fun p => (id (photo p), option_map score_temporal (scores p),
                     option_map final (scores p))) highlights
      = [("A"%string, Some NaN, Some NaN); ("B"%string, Some NInf, Some NInf)]
  | _ => False
  end.
Proof.
  split; [vm_compute; reflexivity|].
  split; [exact temporal_score_zero_range|].
  vm_compute. reflexivity.
Qed.

(** * Further properties of the code *)

(** ** Folds, maps and sets *)


Lemma fold_left_invariant_In {A B} (P : A -> Prop) (f : A -> B -> A) (xs : list B) (a : A) :
  P a -> (forall a x, In x xs -> P a -> P (f a x)) -> P (fold_left f xs a).
Proof.
  revert a. induction xs as [|x xs IH]; intros a Ha Hf; simpl; [assumption|].
  apply IH; [apply Hf; [now left | assumption]|].
  intros a' x' Hin. apply Hf. now right.
Qed.

Lemma fold_left_choice {A} (f : A -> A -> A) (xs : list A) (a : A) :
  (forall x y, f x y = x \/ f x y = y) -> In (fold_left f xs a) (a :: xs).
Proof.
  intros Hf. revert a. induction xs as [|x xs IH]; intros a; simpl; [now left|].
  destruct (IH (f a x)) as [H | H].
  - rewrite <- H. destruct (Hf a x) as [E | E]; rewrite E; simpl; auto.
  - simpl. auto.
Qed.

Lemma filter_Forall_implied {A} (P : A -> Prop) (f : A -> bool) (xs : list A) :
  Forall (fun x => f x = true -> P x) xs -> Forall P (List.filter f xs).
Proof.
  induction 1 as [|x xs Hx Hxs IH]; simpl; [constructor|].
  destruct (f x) eqn:E; [constructor; auto | assumption].
Qed.


Lemma map_set_fresh {V} (k : string) (v : V) (m : list (string * V)) :
  k ∉ map fst m -> map_set k v m = m ++ [(k, v)].
Proof.
  induction m as [|[k' v'] m IH]; intros Hk; simpl; [reflexivity|].
  destruct (String.eqb_spec k k') as [-> | Hne].
  - exfalso. apply Hk. apply list_elem_of_here.
  - rewrite IH; [reflexivity|]. intros Hin. apply Hk. now apply list_elem_of_further.
Qed.

Lemma has_true (s : gset string) (k : string) : has s k = true <-> k ∈ s.
Proof. unfold has. apply bool_decide_eq_true. Qed.

Lemma has_false (s : gset string) (k : string) : has s k = false <-> k ∉ s.
Proof. unfold has. apply bool_decide_eq_false. Qed.

Lemma fold_left_pointwise {A B} (f g : A -> B -> A) (xs : list B) (a : A) :
  (forall a x, f a x = g a x) -> fold_left f xs a = fold_left g xs a.
Proof.
  intros H. revert a. induction xs as [|x xs IH]; intros a; simpl; [reflexivity|].
  now rewrite H, IH.
Qed.

Lemma ids_app (xs ys : list EnhancedPhoto) : ids (xs ++ ys) = ids xs ++ ids ys.
Proof. unfold ids. apply map_app. Qed.

Lemma grouped_app (g1 g2 : list (string * list EnhancedPhoto)) :
  grouped (g1 ++ g2) = grouped g1 ++ grouped g2.
Proof. unfold grouped. now rewrite map_app, concat_app. Qed.

Lemma slice0_Forall {A} (P : A -> Prop) (n : num) (xs : list A) :
  Forall P xs -> Forall P (slice0 n xs).
Proof.
  intros H. unfold slice0. destruct n as [q| | |]; try constructor; try assumption.
  destruct (_ <? 0)%Z; now apply Forall_take.
Qed.

(** ** Grouping *)

Section Grouping.

Variable calculateDistance : Location -> Location -> num.

Lemma groupSimilarPhotos_steps (photos : list EnhancedPhoto) :
  groupSimilarPhotos calculateDistance photos =
  fst (fold_left (group_step calculateDistance photos) photos ([], ∅)).
Proof.
  unfold groupSimilarPhotos. f_equal. apply fold_left_pointwise.
  intros [groups processedIds] p. unfold group_step.
  destruct (has processedIds (id (photo p))); [reflexivity|].
  match goal with |- context [fold_left ?f photos ?a] =>
    rewrite (fold_left_pointwise f (group_member_step calculateDistance p) photos a)
  end; [reflexivity|].
  now intros [similarPhotos seen] otherPhoto.
Qed.

(** The inner loop for the anchor [p]: the ids it marks are the ids of
    the photos it appends, no id is appended twice, and every appended
    photo is similar to [p]. *)
Lemma group_members_fresh (p : EnhancedPhoto) (qs : list EnhancedPhoto)
    (similar : list EnhancedPhoto) (seen : gset string) (taken : list string) :
  NoDup (taken ++ ids similar) ->
  (forall k, k ∈ seen <-> k ∈ taken ++ ids similar) ->
  let result := fold_left (group_member_step calculateDistance p) qs (similar, seen) in
  NoDup (taken ++ ids (fst result)) /\
  (forall k, k ∈ snd result <-> k ∈ taken ++ ids (fst result)) /\
  (exists added, fst result = similar ++ added /\
                 Forall (fun q => q ∈ qs /\
                                  checkPhotoSimilarity calculateDistance p q = true) added).
Proof.
  revert similar seen.
  induction qs as [|q qs IH]; intros similar seen Hnd Hseen; cbn zeta.
  - simpl. repeat split; try apply Hseen; try assumption.
    exists []. rewrite app_nil_r. split; [reflexivity | constructor].
  - cbn [fold_left group_member_step].
    assert (Hmono : forall added : list EnhancedPhoto,
               Forall (fun q' => q' ∈ qs /\
                         checkPhotoSimilarity calculateDistance p q' = true) added ->
               Forall (fun q' => q' ∈ q :: qs /\
                         checkPhotoSimilarity calculateDistance p q' = true) added).
    { intros added. apply List.Forall_impl. intros q' [H1 H2].
      split; [now apply list_elem_of_further | assumption]. }
    destruct (String.eqb (id (photo p)) (id (photo q)) || has seen (id (photo q))) eqn:Eskip.
    { destruct (IH similar seen Hnd Hseen) as (H1 & H2 & added & H3 & H4).
      repeat split; try apply H2; try assumption. exists added. auto. }
    destruct (checkPhotoSimilarity calculateDistance p q) eqn:Esim.
    2:{ destruct (IH similar seen Hnd Hseen) as (H1 & H2 & added & H3 & H4).
        repeat split; try apply H2; try assumption. exists added. auto. }
    apply orb_false_iff in Eskip. destruct Eskip as [_ Hfresh].
    apply has_false in Hfresh.
    specialize (IH (similar ++ [q]) (seen ∪ {[id (photo q)]})).
    cbn zeta in IH.
    destruct IH as (H1 & H2 & added & H3 & H4).
    + rewrite ids_app, app_assoc. cbn [ids map].
      apply NoDup_app. split; [|split].
      * assumption.
      * intros k Hk Hin. apply list_elem_of_singleton in Hin. subst k.
        apply Hfresh, Hseen. assumption.
      * apply NoDup_singleton.
    + intros k. rewrite ids_app, app_assoc. cbn [ids map].
      rewrite elem_of_app, elem_of_union, Hseen, list_elem_of_singleton, elem_of_singleton.
      reflexivity.
    + split; [assumption|]. split; [assumption|].
      exists (q :: added). rewrite H3, <- app_assoc. split; [reflexivity|].
      constructor; [split; [apply list_elem_of_here | assumption] | auto].
Qed.

Lemma anchored_keys (groups : list (string * list EnhancedPhoto)) (k : string) :
  Forall (anchored (checkPhotoSimilarity calculateDistance)) groups ->
  k ∈ map fst groups -> k ∈ ids (grouped groups).
Proof.
  induction 1 as [|[key members] groups Hg Hgs IH]; intros Hk.
  - inversion Hk.
  - change (grouped ((key, members) :: groups)) with (members ++ grouped groups).
    rewrite ids_app. cbn [map fst] in Hk. apply elem_of_cons in Hk.
    apply elem_of_app. destruct Hk as [-> | Hk]; [left | right; auto].
    unfold anchored in Hg. cbn [fst snd] in Hg.
    destruct members as [|p rest]; [contradiction|].
    destruct Hg as [<- _]. apply list_elem_of_here.
Qed.

Lemma group_step_invariant (photos : list EnhancedPhoto)
    (state : list (string * list EnhancedPhoto) * gset string) (p : EnhancedPhoto) :
  p ∈ photos ->
  grouping_invariant (checkPhotoSimilarity calculateDistance) photos state ->
  grouping_invariant (checkPhotoSimilarity calculateDistance) photos (group_step calculateDistance photos state p) /\
  id (photo p) ∈ snd (group_step calculateDistance photos state p) /\
  (forall k, k ∈ snd state -> k ∈ snd (group_step calculateDistance photos state p)).
Proof.
  destruct state as [groups processed].
  intros Hp (Hnd & Hids & Hanchor & Hfrom). cbn [fst snd] in *.
  unfold group_step.
  destruct (has processed (id (photo p))) eqn:Ehas.
  { apply has_true in Ehas. split; [|split]; [| assumption | auto].
    unfold grouping_invariant. cbn [fst snd]. auto. }
  apply has_false in Ehas.
  destruct (group_members_fresh p photos [p] (processed ∪ {[id (photo p)]})
              (ids (grouped groups))) as (H1 & H2 & added & H3 & H4).
  { cbn [ids map]. apply NoDup_app. split; [assumption|]. split; [|apply NoDup_singleton].
    intros k Hk Hin. apply list_elem_of_singleton in Hin. subst k.
    apply Ehas, Hids, Hk. }
  { intros k. cbn [ids map].
    rewrite elem_of_app, elem_of_union, Hids, list_elem_of_singleton, elem_of_singleton.
    reflexivity. }
  destruct (fold_left _ photos _) as [similar seen]. cbn [fst snd] in *.
  assert (Hfresh : id (photo p) ∉ map fst groups).
  { intros Hk. apply Ehas, Hids. now apply anchored_keys. }
  rewrite (map_set_fresh _ _ _ Hfresh).
  unfold grouping_invariant. cbn [fst snd].
  assert (Hids' : ids (grouped (groups ++ [(id (photo p), similar)])) =
                  ids (grouped groups) ++ ids similar).
  { rewrite grouped_app, ids_app. unfold grouped at 2. cbn [map snd concat].
    now rewrite app_nil_r. }
  rewrite Hids'.
  split; [split; [|split; [|split]]|split].
  - assumption.
  - assumption.
  - apply List.Forall_app. split; [assumption|]. constructor; [|constructor].
    unfold anchored. cbn [fst snd]. rewrite H3. cbn [app]. split; [reflexivity|].
    revert H4. apply List.Forall_impl. now intros q [_ Hq].
  - rewrite grouped_app. apply List.Forall_app. split; [assumption|].
    unfold grouped. cbn [map snd concat]. rewrite app_nil_r, H3. cbn [app].
    constructor; [assumption|]. revert H4. apply List.Forall_impl. now intros q [Hq _].
  - apply H2. rewrite H3. cbn [app ids map]. apply elem_of_app. right. apply list_elem_of_here.
  - intros k Hk. apply H2. apply elem_of_app. left. now apply Hids.
Qed.

Lemma group_loop_invariant (photos qs : list EnhancedPhoto)
    (state : list (string * list EnhancedPhoto) * gset string) :
  Forall (fun q => q ∈ photos) qs ->
  grouping_invariant (checkPhotoSimilarity calculateDistance) photos state ->
  let result := fold_left (group_step calculateDistance photos) qs state in
  grouping_invariant (checkPhotoSimilarity calculateDistance) photos result /\
  (forall k, k ∈ snd state -> k ∈ snd result) /\
  Forall (fun q => id (photo q) ∈ snd result) qs.
Proof.
  intros Hqs. revert state.
  induction Hqs as [|q qs Hq Hqs IH]; intros state Hinv; cbn zeta.
  - simpl. split; [assumption|]. split; [auto | constructor].
  - cbn [fold_left].
    destruct (group_step_invariant photos state q Hq Hinv) as (Hstep & Hin & Hmono).
    destruct (IH _ Hstep) as (Hres & Hmono' & Hall).
    split; [assumption|]. split; [auto|]. constructor; auto.
Qed.

(** X1: [groupSimilarPhotos] partitions the ids of its input: no id occurs
    twice among the groups, the grouped ids are the input ids, every
    grouped photo is an input photo, and every group is led by its
    anchor, whose id is the key, followed by photos similar to it. *)
Theorem groups_partition_ids (photos : list EnhancedPhoto) :
  let groups := groupSimilarPhotos calculateDistance photos in
  NoDup (ids (grouped groups)) /\
  (forall k, k ∈ ids photos <-> k ∈ ids (grouped groups)) /\
  Forall (fun q => q ∈ photos) (grouped groups) /\
  Forall (anchored (checkPhotoSimilarity calculateDistance)) groups.
Proof.
  cbn zeta. rewrite groupSimilarPhotos_steps.
  destruct (group_loop_invariant photos photos ([], ∅)) as (Hinv & _ & Hall).
  { apply List.Forall_forall. intros q Hq. now apply list_elem_of_In. }
  { unfold grouping_invariant. cbn. repeat split; try constructor; set_solver. }
  destruct Hinv as (Hnd & Hids & Hanchor & Hfrom).
  split; [assumption|]. split; [|split; assumption].
  intros k. split.
  - intros Hk. unfold ids in Hk. apply list_elem_of_fmap in Hk.
    destruct Hk as (q & -> & Hq). apply Hids.
    rewrite List.Forall_forall in Hall. apply Hall. now apply list_elem_of_In.
  - intros Hk. unfold ids in *. apply list_elem_of_fmap in Hk.
    destruct Hk as (q & -> & Hq). apply list_elem_of_fmap. exists q. split; [reflexivity|].
    rewrite List.Forall_forall in Hfrom. apply Hfrom. now apply list_elem_of_In.
Qed.

End Grouping.

(** ** What the selection keeps *)

Section SelectionInvariants.

Variable calculateDistance : Location -> Location -> num.

Lemma grouped_photos_from_input (photos : list EnhancedPhoto) :
  Forall (fun group => Forall (fun p => In p photos) (snd group))
         (groupSimilarPhotos calculateDistance photos).
Proof.
  unfold groupSimilarPhotos.
  apply (fold_left_invariant_In
           (fun state => Forall (fun group => Forall (fun p => In p photos) (snd group))
                                (fst state))); [constructor|].
  intros [groups processed] p Hp Hinv. cbn [fst] in *.
  destruct (has processed (id (photo p))); [exact Hinv|].
  match goal with |- context [fold_left ?f photos ?a] =>
    assert (Hin : Forall (fun q => In q photos) (fst (fold_left f photos a)))
  end.
  { apply fold_left_invariant_In; [cbn; constructor; [assumption | constructor]|].
    intros [similar seen] q Hq Hs. cbn [fst] in *.
    destruct (_ || _); [exact Hs|].
    destruct (checkPhotoSimilarity _ _ _); [|exact Hs].
    cbn [fst]. apply List.Forall_app. split; [exact Hs | constructor; [assumption | constructor]]. }
  destruct (fold_left _ photos _) as [similar seen]. cbn [fst] in *.
  apply map_set_Forall; assumption.
Qed.

Section Kept.

(** A property [P] of the photos that meet the quality threshold. *)
Variable P : EnhancedPhoto -> Prop.
Variable groups : list (string * list EnhancedPhoto).
Variable threshold : num.
Hypothesis groups_kept :
  Forall (fun group =>
            Forall (fun p => (quality_or_0 p >=? threshold) = true -> P p) (snd group))
         groups.

Lemma eligible_groups_kept (bucket : TimeBucket) (usedGroups : gset string) :
  Forall (fun group => Forall P (snd group))
         (getEligibleGroupsForBucket groups bucket usedGroups threshold).
Proof.
  unfold getEligibleGroupsForBucket.
  apply fold_left_invariant_In; [constructor|].
  intros eligible [groupId members] Hin He.
  destruct (has usedGroups groupId); [assumption|].
  destruct (0 <? length _)%nat; [|assumption].
  apply map_set_Forall; [|assumption]. cbn [snd].
  apply filter_Forall_implied.
  rewrite List.Forall_forall in groups_kept.
  specialize (groups_kept _ Hin). cbn [snd] in groups_kept.
  revert groups_kept. apply List.Forall_impl.
  intros p Hp Hf. apply Hp.
  apply andb_true_iff in Hf. tauto.
Qed.

Lemma best_groups_kept (sortedGroups : list (list EnhancedPhoto * num))
    (count : num) (alreadySelected selections chosen : list EnhancedPhoto) :
  Forall (fun group => Forall P (fst group)) sortedGroups ->
  Forall P selections ->
  selectBestGroups_loop calculateDistance sortedGroups count alreadySelected selections
    = Returns chosen ->
  Forall P chosen.
Proof.
  intros H. revert selections.
  induction H as [|[members best] rest Hm Hrest IH]; intros selections Hs; simpl.
  - now intros [= <-].
  - destruct (of_nat (length selections) >=? count)%js; [now intros [= <-]|].
    destruct members as [|p ps]; [discriminate|]. cbn [reduce1].
    match goal with |- context [fold_left ?f ps p] =>
      assert (Hbest : P (fold_left f ps p))
    end.
    { cbn [fst] in Hm. rewrite List.Forall_forall in Hm. apply Hm.
      apply fold_left_choice. intros x y. destruct (_ >? _)%js; auto. }
    destruct (isPhotoDiverse _ _ _); apply IH; try assumption.
    apply List.Forall_app. split; [assumption | constructor; [assumption | constructor]].
Qed.

Lemma bucket_selection_kept (bucket : TimeBucket) (usedGroups : gset string)
    (count : num) (alreadySelected chosen : list EnhancedPhoto) :
  selectBestGroupsFromBucket calculateDistance
    (getEligibleGroupsForBucket groups bucket usedGroups threshold)
    count alreadySelected = Returns chosen ->
  Forall P chosen.
Proof.
  unfold selectBestGroupsFromBucket.
  apply best_groups_kept; [|constructor].
  apply sort_by_Forall.
  pose proof (eligible_groups_kept bucket usedGroups) as H.
  induction H as [|[k members] tl Hx Htl IH]; simpl; constructor; auto.
Qed.

Lemma remaining_photos_kept (usedGroups : gset string) (count : num) :
  Forall P (selectRemainingBestPhotos groups usedGroups count threshold).
Proof.
  unfold selectRemainingBestPhotos.
  apply slice0_Forall. apply sort_by_Forall.
  apply fold_left_invariant_In; [constructor|].
  intros candidates [groupId members] Hin Hc.
  destruct (negb _); [|assumption].
  apply List.Forall_app. split; [assumption|].
  apply filter_Forall_implied.
  rewrite List.Forall_forall in groups_kept. apply (groups_kept _ Hin).
Qed.

Lemma buckets_loop_kept (options : HighlightOptions) (photosPerBucket : num)
    (timeBuckets : list TimeBucket) (selectedPhotos selectedPhotos' : list EnhancedPhoto)
    (usedGroups usedGroups' : gset string) :
  minQuality options = threshold ->
  Forall P selectedPhotos ->
  selectBuckets_loop calculateDistance groups options photosPerBucket timeBuckets
                     selectedPhotos usedGroups = Returns (selectedPhotos', usedGroups') ->
  Forall P selectedPhotos'.
Proof.
  intros Hq. revert selectedPhotos usedGroups.
  induction timeBuckets as [|bucket rest IH]; intros selectedPhotos usedGroups Hs.
  - simpl. now intros [= <- <-].
  - cbn [selectBuckets_loop]. rewrite Hq.
    destruct (selectBestGroupsFromBucket_returns calculateDistance groups bucket
                usedGroups threshold photosPerBucket selectedPhotos) as [chosen Hc].
    rewrite Hc, bind_Returns, mark_accepted.
    apply IH. apply List.Forall_app. split; [assumption|].
    now apply bucket_selection_kept in Hc.
Qed.

Lemma diverse_highlights_kept (fuel : nat) (options : HighlightOptions)
    (timeBuckets : list TimeBucket) :
  minQuality options = threshold ->
  createTimeBuckets fuel (timeRange options) = Returns timeBuckets ->
  exists highlights,
    selectDiverseHighlights calculateDistance fuel groups options = Returns highlights /\
    Forall P highlights.
Proof.
  intros Hq Hb. unfold selectDiverseHighlights.
  rewrite Hb, bind_Returns.
  destruct (selectBuckets_loop_returns calculateDistance groups options
              (Math_ceil (limit options / of_nat (length timeBuckets)))
              timeBuckets [] ∅) as [[selected used] Hs].
  rewrite Hs, bind_Returns.
  eexists. split; [reflexivity|].
  apply buckets_loop_kept in Hs; [|assumption|constructor].
  apply slice0_Forall.
  destruct (of_nat (length selected) <? limit options); [|assumption].
  apply List.Forall_app. split; [assumption|].
  rewrite Hq. apply remaining_photos_kept.
Qed.

End Kept.

(** X2: every photo that [selectHighlights] returns meets the quality
    threshold [options.minQuality]; the call returns once its loop over the
    time range has ended. *)
Theorem highlights_meet_minQuality (fuel : nat) (this : Selector)
    (options : HighlightOptions) (timeBuckets : list TimeBucket) :
  createTimeBuckets fuel (timeRange options) = Returns timeBuckets ->
  exists highlights,
    selectHighlights calculateDistance fuel this options = Returns highlights /\
    Forall (fun p => (quality_or_0 p >=? minQuality options) = true) highlights.
Proof.
  intros Hloop. unfold selectHighlights.
  apply diverse_highlights_kept
    with (threshold := minQuality options) (timeBuckets := timeBuckets);
    [|reflexivity|assumption].
  apply List.Forall_forall. intros group _.
  apply List.Forall_forall. auto.
Qed.

(** X3: every photo that [selectHighlights] returns is a photo of the
    pool, with the scores of this pass, and an empty pool gives no
    highlights; the call returns once its loop over the time range has
    ended. *)
Theorem highlights_from_pool (fuel : nat) (this : Selector) (options : HighlightOptions)
    (timeBuckets : list TimeBucket) :
  createTimeBuckets fuel (timeRange options) = Returns timeBuckets ->
  exists highlights,
    selectHighlights calculateDistance fuel this options = Returns highlights /\
    Forall (fun p => In p (scoredPhotos this options)) highlights /\
    (photos this = [] -> highlights = []).
Proof.
  intros Hloop. unfold selectHighlights.
  destruct (diverse_highlights_kept (fun p => In p (scoredPhotos this options))
              (groupSimilarPhotos calculateDistance (scoredPhotos this options))
              (minQuality options)) with (fuel := fuel) (options := options)
                                          (timeBuckets := timeBuckets)
    as (highlights & Hrun & Hfrom); [|reflexivity|assumption|].
  { pose proof (grouped_photos_from_input (scoredPhotos this options)) as H.
    revert H. apply List.Forall_impl. intros group.
    apply List.Forall_impl. auto. }
  exists highlights. split; [exact Hrun|]. split; [exact Hfrom|].
  intros Hempty. unfold scoredPhotos in Hfrom. rewrite Hempty in Hfrom.
  destruct highlights as [|p rest]; [reflexivity|].
  inversion Hfrom as [|? ? Hin _]. destruct Hin.
Qed.

End SelectionInvariants.

Lemma highlights_meet_minQuality_witness :
  createTimeBuckets 10 (timeRange beach_options) = Returns (tiles 10 0 100) /\
  exists highlights,
    selectHighlights (fun _ _ => 0) 10 beach_selector beach_options = Returns highlights /\
    Forall (fun p => (quality_or_0 p >=? minQuality beach_options) = true) highlights.
Proof.
  assert (Hloop : createTimeBuckets 10 (timeRange beach_options) = Returns (tiles 10 0 100))
    by (vm_compute; reflexivity).
  split; [exact Hloop|].
  exact (highlights_meet_minQuality (fun _ _ => 0) 10 beach_selector beach_options
           (tiles 10 0 100) Hloop).
Defined.

Lemma highlights_from_pool_witness :
  createTimeBuckets 10 (timeRange beach_options) = Returns (tiles 10 0 100) /\
  exists highlights,
    selectHighlights (fun _ _ => 0) 10 new_selector beach_options = Returns highlights /\
    highlights = [].
Proof.
  assert (Hloop : createTimeBuckets 10 (timeRange beach_options) = Returns (tiles 10 0 100))
    by (vm_compute; reflexivity).
  split; [exact Hloop|].
  destruct (highlights_from_pool (fun _ _ => 0) 10 new_selector beach_options
              (tiles 10 0 100) Hloop) as (highlights & Hrun & _ & Hempty).
  exists highlights. split; [exact Hrun | now apply Hempty].
Defined.

(** ** The bucket fill *)

Lemma accepted_in_turn_snoc (similar : EnhancedPhoto -> EnhancedPhoto -> bool)
    (selected : list EnhancedPhoto) (p : EnhancedPhoto) :
  accepted_in_turn similar selected ->
  forallb (fun q => negb (similar p q)) selected = true ->
  accepted_in_turn similar (selected ++ [p]).
Proof.
  intros Hs Hp earlier q later E.
  destruct later as [|x later _] using rev_ind.
  - apply app_inj_tail in E. destruct E as [-> ->]. exact Hp.
  - rewrite app_comm_cons, app_assoc in E.
    apply app_inj_tail in E. destruct E as [E _].
    now apply (Hs earlier q later).
Qed.

Lemma accepted_in_turn_prefix (similar : EnhancedPhoto -> EnhancedPhoto -> bool)
    (selected : list EnhancedPhoto) (n : nat) :
  accepted_in_turn similar selected -> accepted_in_turn similar (firstn n selected).
Proof.
  intros Hs earlier q later E.
  apply (Hs earlier q (later ++ skipn n selected)).
  rewrite <- (firstn_skipn n selected) at 1. rewrite E, <- app_assoc. reflexivity.
Qed.

Lemma ge_count_false (n : nat) (c : Q) :
  (of_nat n >=? Fin c) = false -> (Z.of_nat n < Qceiling c)%Z.
Proof.
  unfold JS.ge, JS.le, of_nat, of_Z. intros H.
  assert (Hlt : inject_Z (Z.of_nat n) < c).
  { destruct (Qlt_le_dec (inject_Z (Z.of_nat n)) c) as [Hlt | Hle]; [exact Hlt|].
    apply Qle_bool_iff in Hle. congruence. }
  pose proof (Qle_ceiling c) as Hc.
  rewrite Zlt_Qlt. lra.
Qed.

Section BucketFill.

Variable calculateDistance : Location -> Location -> num.

Lemma best_groups_in_turn (sortedGroups : list (list EnhancedPhoto * num))
    (count : num) (alreadySelected selections chosen : list EnhancedPhoto) :
  accepted_in_turn (checkPhotoSimilarity calculateDistance) (alreadySelected ++ selections) ->
  selectBestGroups_loop calculateDistance sortedGroups count alreadySelected selections
    = Returns chosen ->
  accepted_in_turn (checkPhotoSimilarity calculateDistance) (alreadySelected ++ chosen).
Proof.
  revert selections.
  induction sortedGroups as [|[members best] rest IH]; intros selections Hs; simpl.
  - now intros [= <-].
  - destruct (of_nat (length selections) >=? count)%js; [now intros [= <-]|].
    destruct members as [|p ps]; [discriminate|]. cbn [reduce1].
    destruct (isPhotoDiverse _ _ _) eqn:Ed; [|now apply IH].
    apply IH. rewrite app_assoc. apply accepted_in_turn_snoc; assumption.
Qed.

Lemma best_groups_quota (sortedGroups : list (list EnhancedPhoto * num))
    (quota : Q) (alreadySelected selections chosen : list EnhancedPhoto) :
  (Z.of_nat (length selections) <= Z.max 0 (Qceiling quota))%Z ->
  selectBestGroups_loop calculateDistance sortedGroups (Fin quota) alreadySelected
                        selections = Returns chosen ->
  (Z.of_nat (length chosen) <= Z.max 0 (Qceiling quota))%Z.
Proof.
  revert selections.
  induction sortedGroups as [|[members best] rest IH]; intros selections Hs;
    cbn [selectBestGroups_loop].
  - now intros [= <-].
  - destruct (of_nat (length selections) >=? Fin quota)%js eqn:Efull;
      [now intros [= <-]|].
    apply ge_count_false in Efull.
    destruct members as [|p ps]; [discriminate|]. cbn [fst reduce1].
    destruct (isPhotoDiverse _ _ _); apply IH; [|assumption].
    rewrite length_app. cbn [length]. lia.
Qed.

Lemma buckets_loop_in_turn (groups : list (string * list EnhancedPhoto))
    (options : HighlightOptions) (photosPerBucket : num) (timeBuckets : list TimeBucket)
    (selectedPhotos selectedPhotos' : list EnhancedPhoto)
    (usedGroups usedGroups' : gset string) :
  accepted_in_turn (checkPhotoSimilarity calculateDistance) selectedPhotos ->
  selectBuckets_loop calculateDistance groups options photosPerBucket timeBuckets
                     selectedPhotos usedGroups = Returns (selectedPhotos', usedGroups') ->
  accepted_in_turn (checkPhotoSimilarity calculateDistance) selectedPhotos'.
Proof.
  revert selectedPhotos usedGroups.
  induction timeBuckets as [|bucket rest IH]; intros selectedPhotos usedGroups Hs.
  - simpl. now intros [= <- <-].
  - cbn [selectBuckets_loop].
    destruct (selectBestGroupsFromBucket_returns calculateDistance groups bucket
                usedGroups (minQuality options) photosPerBucket selectedPhotos)
      as [chosen Hc].
    rewrite Hc, bind_Returns, mark_accepted.
    apply IH. unfold selectBestGroupsFromBucket in Hc.
    apply best_groups_in_turn in Hc; [assumption|].
    now rewrite app_nil_r.
Qed.

(** X4: the photos that the fill of the time buckets accepts are
    accepted in turn: each one was tested against every photo accepted
    before it, in this bucket or an earlier one, and found similar to
    none. *)
Theorem bucket_fill_accepts_in_turn (groups : list (string * list EnhancedPhoto))
    (options : HighlightOptions) (photosPerBucket : num) (timeBuckets : list TimeBucket) :
  exists selectedPhotos usedGroups,
    selectBuckets_loop calculateDistance groups options photosPerBucket timeBuckets [] ∅
      = Returns (selectedPhotos, usedGroups) /\
    accepted_in_turn (checkPhotoSimilarity calculateDistance) selectedPhotos.
Proof.
  destruct (selectBuckets_loop_returns calculateDistance groups options photosPerBucket
              timeBuckets [] ∅) as [[selected used] Hs].
  exists selected, used. split; [assumption|].
  apply buckets_loop_in_turn in Hs; [assumption|].
  intros earlier p later E. now destruct earlier.
Qed.

(** X5: a time bucket yields at most its quota of photos: the count
    that the caller passes, rounded up. *)
Theorem bucket_selection_within_quota (groups : list (string * list EnhancedPhoto))
    (bucket : TimeBucket) (usedGroups : gset string) (threshold : num) (quota : Q)
    (alreadySelected : list EnhancedPhoto) :
  exists chosen,
    selectBestGroupsFromBucket calculateDistance
      (getEligibleGroupsForBucket groups bucket usedGroups threshold)
      (Fin quota) alreadySelected = Returns chosen /\
    (Z.of_nat (length chosen) <= Z.max 0 (Qceiling quota))%Z.
Proof.
  destruct (selectBestGroupsFromBucket_returns calculateDistance groups bucket
              usedGroups threshold (Fin quota) alreadySelected) as [chosen Hc].
  exists chosen. split; [assumption|].
  unfold selectBestGroupsFromBucket in Hc.
  apply best_groups_quota in Hc; [assumption|]. simpl. lia.
Qed.

End BucketFill.

(** ** The backfill *)

Lemma final_or_0_not_NaN (p : EnhancedPhoto) : final_or_0 p <> NaN.
Proof.
  unfold final_or_0, or_else.
  destruct (scores p) as [s|]; [|discriminate].
  destruct (final s); cbn [truthy]; try discriminate.
  destruct (negb _); discriminate.
Qed.

(** The comparator [(a, b) => key(b) - key(a)] is positive exactly when
    [a] has the smaller key. *)
Lemma descending_comparator (a b : num) :
  a <> NaN -> b <> NaN -> (b - a >? 0) = (a <? b).
Proof.
  intros Ha Hb.
  destruct a as [a| | |], b as [b| | |]; try contradiction; try reflexivity.
  unfold JS.gt, JS.sub, JS.neg, JS.add, JS.lt. f_equal.
  destruct (Qle_bool (b + - a) 0) eqn:E1, (Qle_bool b a) eqn:E2; try reflexivity.
  - apply Qle_bool_iff in E1.
    assert (H : ~ b <= a) by (intros H; apply Qle_bool_iff in H; congruence).
    exfalso. apply H. lra.
  - apply Qle_bool_iff in E2.
    assert (H : ~ b + - a <= 0) by (intros H; apply Qle_bool_iff in H; congruence).
    exfalso. apply H. lra.
Qed.

Lemma not_lt_trans (x y z : num) :
  y <> NaN -> (x <? y) = false -> (y <? z) = false -> (x <? z) = false.
Proof.
  intros Hy.
  destruct x as [x| | |], y as [y| | |], z as [z| | |];
    try contradiction; cbn [JS.lt]; try reflexivity; try discriminate.
  rewrite !negb_false_iff, !Qle_bool_iff. intros H1 H2. lra.
Qed.

Lemma descending_firstn (n : nat) (xs : list num) :
  descending xs -> descending (firstn n xs).
Proof.
  revert n. induction xs as [|x xs IH]; intros [|n] H; simpl; auto.
  destruct H as [Hx Hxs]. split; [|auto].
  apply Forall_take. assumption.
Qed.

Section SortedByKey.

Context {A : Type} (key : A -> num).
Hypothesis key_not_NaN : forall x, key x <> NaN.

Lemma sort_insert_descending (x : A) (sorted : list A) :
  descending (map key sorted) ->
  descending (map key (sort_insert (fun a b => key b - key a) x sorted)).
Proof.
  induction sorted as [|y tl IH]; intros Hs; cbn [sort_insert map descending].
  - split; constructor.
  - destruct Hs as [Hy Htl].
    rewrite descending_comparator by apply key_not_NaN.
    destruct (key x <? key y) eqn:E.
    + cbn [map descending]. split; [|auto].
      apply List.Forall_map.
      apply (sort_insert_Forall (fun z => (key y <? key z) = false)).
      * destruct (key x) as [a| | |] eqn:Ex, (key y) as [b| | |] eqn:Ey;
          cbn [JS.lt] in *; try reflexivity; try discriminate;
          try (now exfalso; apply (key_not_NaN x));
          try (now exfalso; apply (key_not_NaN y)).
        apply negb_true_iff in E. apply negb_false_iff, Qle_bool_iff.
        assert (H : ~ b <= a) by (intros H; apply Qle_bool_iff in H; congruence).
        lra.
      * now apply List.Forall_map in Hy.
    + cbn [map descending]. split; [|split; assumption].
      constructor; [assumption|].
      revert Hy. apply List.Forall_impl. intros z Hz.
      now apply (not_lt_trans _ (key y)).
Qed.

Lemma sort_by_descending (xs : list A) :
  descending (map key (sort_by (fun a b => key b - key a) xs)).
Proof.
  induction xs as [|x xs IH]; cbn [sort_by fold_right]; [exact I|].
  now apply sort_insert_descending.
Qed.

End SortedByKey.

Lemma slice0_map {A B} (f : A -> B) (n : num) (xs : list A) :
  map f (slice0 n xs) = slice0 n (map f xs).
Proof.
  unfold slice0. destruct n as [q| | |]; try reflexivity.
  rewrite length_map. destruct (_ <? 0)%Z; symmetry; apply firstn_map.
Qed.

Lemma descending_slice0 (n : num) (xs : list num) :
  descending xs -> descending (slice0 n xs).
Proof.
  intros H. unfold slice0. destruct n as [q| | |]; try exact I; try assumption.
  destruct (_ <? 0)%Z; now apply descending_firstn.
Qed.

(** X6: the backfill is ordered by final score, highest first, and every
    photo in it meets the quality threshold; it holds at most [count]
    photos when [count] is not negative. *)
Theorem backfill_best_first (groups : list (string * list EnhancedPhoto))
    (usedGroups : gset string) (count : num) (threshold : num) :
  let remaining := selectRemainingBestPhotos groups usedGroups count threshold in
  descending (map final_or_0 remaining) /\
  Forall (fun p => (quality_or_0 p >=? threshold) = true) remaining /\
  ((0 <=? count) = true -> (of_nat (length remaining) <=? count) = true) /\
  (forall n : nat, count = of_nat n -> (length remaining <= n)%nat).
Proof.
  cbn zeta. split; [|split; [|split]].
  - unfold selectRemainingBestPhotos.
    rewrite slice0_map. apply descending_slice0.
    apply sort_by_descending, final_or_0_not_NaN.
  - apply remaining_photos_kept.
    apply List.Forall_forall. intros group _. apply List.Forall_forall. auto.
  - unfold selectRemainingBestPhotos. apply slice0_within.
  - intros n ->. unfold selectRemainingBestPhotos.
    rewrite slice0_of_nat, length_firstn. lia.
Qed.

(** The backfill of one photo from the group of the two beach photos. *)
Lemma backfill_best_first_witness :
  let remaining :=
    selectRemainingBestPhotos
      (groupSimilarPhotos (fun _ _ => 0) (scoredPhotos beach_selector beach_options))
      ∅ 1 0 in
  (0 <=? 1) = true /\
  (of_nat (length remaining) <=? 1) = true /\
  ids remaining = ["B"]%string.
Proof.
  cbn zeta.
  destruct (backfill_best_first
              (groupSimilarPhotos (fun _ _ => 0) (scoredPhotos beach_selector beach_options))
              ∅ 1 0) as (_ & _ & Hcount & _).
  split; [reflexivity|]. split; [exact (Hcount eq_refl)|].
  vm_compute. reflexivity.
Defined.

(** ** The time buckets of a range *)

Lemma truncate_integer (z : Z) : truncate (inject_Z z) = z.
Proof. unfold truncate. destruct (Qle_bool 0 _); [apply Qfloor_Z | apply Qceiling_Z]. Qed.

(** A time of at most 8.64e15 ms in magnitude is the time of a date. *)
Lemma new_Date_time (z : Z) : (Z.abs z <= maxTime)%Z -> new_Date (of_Z z) = Time z.
Proof.
  intros H. unfold new_Date, of_Z.
  replace (Qle_bool (Qabs (inject_Z z)) (inject_Z maxTime)) with true.
  - now rewrite truncate_integer.
  - symmetry. apply Qle_bool_iff, Qabs_Qle_condition.
    rewrite <- inject_Z_opp, <- !Zle_Qle. lia.
Qed.

Lemma to_double_integer (q : Q) (z : Z) :
  q == inject_Z z -> (Z.abs z < 2 ^ 53)%Z -> to_double q = of_Z z.
Proof.
  intros Hq Hz. unfold of_Z.
  rewrite (to_double_exact q z 0); [now rewrite Z.mul_1_r | | lia | assumption].
  now rewrite Z.mul_1_r.
Qed.

Lemma maxTime_exact (z : Z) : (Z.abs z <= maxTime)%Z -> (Z.abs z < 2 ^ 53)%Z.
Proof.
  assert (H : (maxTime < 2 ^ 53)%Z) by reflexivity. lia.
Qed.

(** On integer times and an integer bucket length, all of them times of
    dates, the sums of the loop are exact. *)
Lemma createTimeBuckets_loop_tiles (n fuel : nat) (t d : Z) :
  (0 < d)%Z -> (n <= fuel)%nat ->
  (Z.abs t <= maxTime)%Z -> (Z.abs (t + Z.of_nat n * d) <= maxTime)%Z ->
  createTimeBuckets_loop fuel (of_Z t) (of_Z d) (of_Z (t + Z.of_nat n * d))
  = Returns (tiles n t d).
Proof.
  intros Hd. revert fuel t.
  induction n as [|n IH]; intros fuel t Hfuel Ht Hend.
  - assert (Hstop : (of_Z t <? of_Z (t + Z.of_nat 0 * d)) = false).
    { apply lt_fin_false. rewrite <- Zle_Qle. lia. }
    destruct fuel; cbn [createTimeBuckets_loop tiles]; now rewrite Hstop.
  - destruct fuel as [|fuel]; [lia|].
    assert (Hgo : (of_Z t <? of_Z (t + Z.of_nat (S n) * d)) = true).
    { apply lt_fin. rewrite <- Zlt_Qlt. nia. }
    assert (Hin : (Z.abs (t + d) <= maxTime)%Z) by nia.
    assert (Hnext : rounded (of_Z t + of_Z d) = of_Z (t + d)).
    { unfold of_Z at 1 2. cbn [JS.add rounded].
      apply to_double_integer; [now rewrite inject_Z_plus | now apply maxTime_exact]. }
    cbn [createTimeBuckets_loop tiles]. rewrite Hgo. cbv zeta. rewrite Hnext.
    replace (t + Z.of_nat (S n) * d)%Z with (t + d + Z.of_nat n * d)%Z in * by lia.
    rewrite (IH fuel (t + d)%Z) by (assumption || lia).
    rewrite bind_Returns. do 2 f_equal.
    assert (Hmin : Math_min (of_Z (t + d)) (of_Z (t + d + Z.of_nat n * d)) = of_Z (t + d)).
    { unfold Math_min, of_Z. rewrite lt_fin_false; [reflexivity|].
      rewrite <- Zle_Qle. nia. }
    now rewrite Hmin, !new_Date_time.
Qed.

(** X7: a range of dates whose length is a positive multiple of ten
    milliseconds is cut into ten buckets of equal length, laid end to end
    from the start of the range to its end; each inner boundary is the end
    of one bucket and the start of the next.  The loop ends within ten
    iterations. *)
Theorem createTimeBuckets_tiles_range (fuel : nat) (t d : Z) :
  (0 < d)%Z ->
  (Z.abs t <= maxTime)%Z -> (Z.abs (t + 10 * d) <= maxTime)%Z ->
  (10 <= fuel)%nat ->
  createTimeBuckets fuel {| range_start := t; range_end := t + 10 * d |} =
  Returns (tiles 10 t d).
Proof.
  intros Hd Ht Hend Hfuel. unfold createTimeBuckets.
  cbn [range_start range_end getTime].
  assert (H53 : (maxTime < 2 ^ 53)%Z) by reflexivity.
  assert (Htotal : rounded (of_Z (t + 10 * d) - of_Z t) = Fin (inject_Z (5 * d * 2 ^ 1))).
  { unfold of_Z. cbn [JS.sub JS.neg JS.add rounded].
    apply to_double_exact; [|lia|lia].
    rewrite <- inject_Z_opp, <- inject_Z_plus. apply inject_Z_injective. lia. }
  assert (Hduration : rounded (Fin (inject_Z (5 * d * 2 ^ 1)) / 10) = of_Z d).
  { rewrite div_fin by discriminate. cbn [rounded].
    apply to_double_integer; [|lia].
    replace (5 * d * 2 ^ 1)%Z with (d * 10)%Z by lia.
    rewrite inject_Z_mult. change (inject_Z 10) with 10. field. }
  rewrite Htotal, Hduration.
  apply (createTimeBuckets_loop_tiles 10 fuel t d); assumption.
Qed.

Lemma createTimeBuckets_tiles_range_witness :
  (0 < 6)%Z /\
  createTimeBuckets 10 {| range_start := 1000; range_end := 1000 + 10 * 6 |} =
  Returns (tiles 10 1000 6).
Proof.
  split; [lia|].
  apply (createTimeBuckets_tiles_range 10 1000 6); [lia | | | lia];
    unfold maxTime; lia.
Defined.

(** ** Batches of photos and the label frequencies *)

(** Counting keys into a frequency table, one at a time. *)
Lemma count_into_table (keys : list string) (table : gmap string nat) (d : string) :
  default 0%nat
    (fold_left (fun table key => <[key := (default 0%nat (table !! key) + 1)%nat]> table)
               keys table !! d) =
  (default 0%nat (table !! d) +
   length (List.filter (fun key => String.eqb key d) keys))%nat.
Proof.
  revert table. induction keys as [|key keys IH]; intros table; cbn [fold_left List.filter].
  - cbn [length]. lia.
  - rewrite IH. destruct (String.eqb_spec key d) as [-> | Hne].
    + rewrite lookup_insert_eq. cbn. lia.
    + rewrite lookup_insert_ne by assumption. lia.
Qed.

Lemma fold_left_keys {A K T} (key : A -> K) (f : T -> K -> T) (xs : list A) (t : T) :
  fold_left (fun t x => f t (key x)) xs t = fold_left f (map key xs) t.
Proof. revert t. induction xs as [|x xs IH]; intros t; simpl; auto. Qed.

Lemma filter_keys {A K} (key : A -> K) (f : K -> bool) (xs : list A) :
  length (List.filter f (map key xs)) = length (List.filter (fun x => f (key x)) xs).
Proof.
  induction xs as [|x xs IH]; simpl; [reflexivity|].
  destruct (f (key x)); simpl; auto.
Qed.

Lemma updateLabelFrequencies_individual (frequencies : LabelFrequencies)
    (labels : list Label) (d : string) :
  default 0%nat (individual (updateLabelFrequencies frequencies labels) !! d) =
  (default 0%nat (individual frequencies !! d) + label_count d labels)%nat.
Proof.
  unfold updateLabelFrequencies, label_count. cbn [individual].
  rewrite (fold_left_keys description
             (fun table key => <[key := (default 0%nat (table !! key) + 1)%nat]> table)).
  rewrite count_into_table, filter_keys. reflexivity.
Qed.

Lemma updateLabelFrequencies_combinations (frequencies : LabelFrequencies)
    (labels : list Label) (combo : string) :
  default 0%nat (combinations (updateLabelFrequencies frequencies labels) !! combo) =
  (default 0%nat (combinations frequencies !! combo) + pair_count combo labels)%nat.
Proof.
  unfold updateLabelFrequencies, pair_count. cbn [combinations].
  rewrite (fold_left_pointwise _
             (fun table pair =>
                <[pair_key pair := (default 0%nat (table !! pair_key pair) + 1)%nat]> table))
    by now intros table [label_i label_j].
  rewrite (fold_left_keys pair_key
             (fun table key => <[key := (default 0%nat (table !! key) + 1)%nat]> table)).
  rewrite count_into_table, filter_keys. reflexivity.
Qed.

(** X8: [updateLabelFrequencies] raises the count of a description by the
    number of labels that carry it, and the count of a combination key by
    the number of label pairs that have it; every other count stays. *)
Theorem updateLabelFrequencies_counts (frequencies : LabelFrequencies)
    (labels : list Label) :
  (forall d,
      default 0%nat (individual (updateLabelFrequencies frequencies labels) !! d) =
      (default 0%nat (individual frequencies !! d) + label_count d labels)%nat) /\
  (forall combo,
      default 0%nat (combinations (updateLabelFrequencies frequencies labels) !! combo) =
      (default 0%nat (combinations frequencies !! combo) + pair_count combo labels)%nat).
Proof.
  split; intros key.
  - apply updateLabelFrequencies_individual.
  - apply updateLabelFrequencies_combinations.
Qed.

Lemma pool_label_count_app (d : string) (pool more : list EnhancedPhoto) :
  pool_label_count d (pool ++ more) =
  (pool_label_count d pool + pool_label_count d more)%nat.
Proof.
  unfold pool_label_count. induction pool as [|p pool IH]; simpl; [reflexivity|].
  rewrite IH. lia.
Qed.

Lemma pool_pair_count_app (combo : string) (pool more : list EnhancedPhoto) :
  pool_pair_count combo (pool ++ more) =
  (pool_pair_count combo pool + pool_pair_count combo more)%nat.
Proof.
  unfold pool_pair_count. induction pool as [|p pool IH]; simpl; [reflexivity|].
  rewrite IH. lia.
Qed.

Section Batches.

Variable annotateImage : Photo -> Thrown + option AnnotateImageResponse.

Lemma addPhotos_keeps_frequencies (ps : list EnhancedPhoto) (this : Selector) :
  frequencies_match_pool this ->
  frequencies_match_pool
    {| photos := photos this ++ ps;
       labelFrequencies :=
         fold_left (fun frequencies p => updateLabelFrequencies frequencies (labels (analysis p)))
                   ps (labelFrequencies this) |}.
Proof.
  revert this. induction ps as [|p ps IH]; intros this [H1 H2].
  - cbn [fold_left]. rewrite app_nil_r. now split.
  - cbn [fold_left].
    specialize (IH {| photos := photos this ++ [p];
                      labelFrequencies :=
                        updateLabelFrequencies (labelFrequencies this)
                                               (labels (analysis p)) |}).
    cbn [photos labelFrequencies] in IH. rewrite <- app_assoc in IH. apply IH.
    split; cbn [photos labelFrequencies]; intros key.
    + rewrite updateLabelFrequencies_individual, pool_label_count_app, H1.
      cbn [pool_label_count fold_right]. lia.
    + rewrite updateLabelFrequencies_combinations, pool_pair_count_app, H2.
      cbn [pool_pair_count fold_right]. lia.
Qed.

(** X9: [addPhotos] sorts a batch into the photos it could analyse and
    the ones it could not, each in batch order, and appends the analysed
    ones to the pool, which loses nothing. *)
Theorem addPhotos_outcomes (this : Selector) (ps : list Photo) :
  let reached := addPhotos annotateImage this ps in
  success (snd reached) = analysed annotateImage ps /\
  failed (snd reached) = rejected annotateImage ps /\
  photos (fst reached) = photos this ++ success (snd reached) /\
  (length (success (snd reached)) + length (failed (snd reached)))%nat = length ps.
Proof.
  cbn zeta. unfold addPhotos. rewrite addPhotos_loop_outcomes.
  cbn [fst snd photos success failed app].
  repeat split.
  induction ps as [|p ps IH]; [reflexivity|]. cbn [analysed rejected length].
  destruct (analyzePhoto annotateImage p); cbn [length]; lia.
Qed.

(** X10: adding a batch in two parts is adding it at once: the selector
    ends in the same state, and the results of the parts, put end to end,
    are the result of the whole. *)
Theorem addPhotos_in_parts (this : Selector) (ps1 ps2 : list Photo) :
  let first := addPhotos annotateImage this ps1 in
  let second := addPhotos annotateImage (fst first) ps2 in
  addPhotos annotateImage this (ps1 ++ ps2) =
  (fst second,
   {| success := success (snd first) ++ success (snd second);
      failed := failed (snd first) ++ failed (snd second) |}).
Proof.
  cbn zeta. unfold addPhotos.
  rewrite fold_left_app, !addPhotos_loop_outcomes.
  cbn [fst snd photos labelFrequencies success failed app]. reflexivity.
Qed.

(** X11: [addPhotos] keeps the frequency tables in step with the pool: if
    they count the labels and label pairs of the pool before the call,
    they do so after it. *)
Theorem addPhotos_counts_pool_labels (this : Selector) (ps : list Photo) :
  frequencies_match_pool this ->
  frequencies_match_pool (fst (addPhotos annotateImage this ps)).
Proof.
  intros H. unfold addPhotos. rewrite addPhotos_loop_outcomes. cbn [fst].
  now apply addPhotos_keeps_frequencies.
Qed.

End Batches.

Lemma addPhotos_counts_pool_labels_witness :
  frequencies_match_pool new_selector /\
  frequencies_match_pool beach_selector.
Proof.
  assert (H : frequencies_match_pool new_selector) by (split; intros key; reflexivity).
  split; [exact H|].
  exact (addPhotos_counts_pool_labels beach_service new_selector
           [photo_at "A" 110; photo_at "B" 150] H).
Defined.

(** ** The quality metrics on finite colour data *)

Lemma valid_color_info_finite (c : ColorInfo) : valid_color_info c -> finite_color_info c.
Proof.
  intros (r & g & b & f & Hr & Hg & Hb & Hf & _). now exists r, g, b, f.
Qed.

Lemma between_num_eq (lo hi : Q) (x y : num) :
  x =n= y -> between lo hi y -> between lo hi x.
Proof.
  destruct x, y; simpl; try contradiction; try tauto.
  intros E [H1 H2]. rewrite E. now split.
Qed.

Lemma rgb_difference_finite (c1 c2 : ColorInfo) :
  finite_color_info c1 -> finite_color_info c2 ->
  exists q, rgb_difference c1 c2 = Fin q /\ 0 <= q.
Proof.
  intros (r1 & g1 & b1 & f1 & Hr1 & Hg1 & Hb1 & _) (r2 & g2 & b2 & f2 & Hr2 & Hg2 & Hb2 & _).
  unfold rgb_difference. rewrite Hr1, Hg1, Hb1, Hr2, Hg2, Hb2.
  cbn [sq JS.sub JS.neg JS.add JS.mul]. unfold Math_sqrt.
  set (s := ((r1 + - r2) * (r1 + - r2) + (g1 + - g2) * (g1 + - g2)
             + (b1 + - b2) * (b1 + - b2))%Q).
  assert (Hs : 0 <= s).
  { unfold s. pose proof (Qsquare_nonneg (r1 + - r2)).
    pose proof (Qsquare_nonneg (g1 + - g2)). pose proof (Qsquare_nonneg (b1 + - b2)). lra. }
  rewrite (proj2 (Qle_bool_iff 0 s) Hs).
  exists (Qsqrt s). split; [reflexivity | apply Qsqrt_nonneg].
Qed.

Lemma adjacent_pairs_Forall {A} (P : A -> Prop) (xs : list A) :
  Forall P xs -> Forall (fun pair => P (fst pair) /\ P (snd pair)) (adjacent_pairs xs).
Proof.
  induction 1 as [|x xs Hx Hxs IH]; [constructor|].
  destruct xs as [|y tl]; [constructor|].
  cbn [adjacent_pairs]. constructor; [|exact IH].
  split; [assumption | now inversion Hxs].
Qed.

(** The sum of the colour differences of neighbouring colours. *)
Lemma variation_sum_finite (pairs : list (ColorInfo * ColorInfo)) (a : Q) :
  Forall (fun pair => finite_color_info (fst pair) /\ finite_color_info (snd pair)) pairs ->
  0 <= a ->
  exists q,
    fold_left (fun acc '(c1, c2) => acc + rgb_difference c1 c2) pairs (Fin a) = Fin q /\
    0 <= q.
Proof.
  intros H. revert a.
  induction H as [|[c1 c2] pairs [H1 H2] _ IH]; intros a Ha; cbn [fold_left].
  - now exists a.
  - cbn [fst snd] in H1, H2.
    destruct (rgb_difference_finite c1 c2 H1 H2) as (d & -> & Hd).
    cbn [JS.add]. apply IH. lra.
Qed.

Lemma sqrt_three : Math_sqrt 3 = Fin (Qsqrt 3) /\ 0 < Qsqrt 3.
Proof. split; [reflexivity | unfold Qlt; vm_compute; reflexivity]. Qed.

Lemma edge_strength_single (c : ColorInfo) : normalizedEdgeStrength [c] = NaN.
Proof. vm_compute. reflexivity. Qed.

Lemma edge_strength_in_unit (cs : list ColorInfo) :
  length cs <> 1%nat -> Forall finite_color_info cs ->
  in_unit (normalizedEdgeStrength cs).
Proof.
  intros Hlen Hcs. unfold normalizedEdgeStrength.
  destruct (variation_sum_finite (adjacent_pairs cs) 0) as (e & He & Hpos);
    [now apply adjacent_pairs_Forall | lra |].
  rewrite He. destruct sqrt_three as [-> Hroot].
  unfold of_nat, of_Z. cbn [JS.mul JS.sub JS.neg JS.add].
  set (n := inject_Z (Z.of_nat (length cs))).
  assert (Hlen' : length cs = 0%nat \/ (2 <= length cs)%nat) by lia.
  assert (Hd : ~ 255 * Qsqrt 3 * (n + - (1)) == 0).
  { destruct Hlen' as [El | El].
    - unfold n. rewrite El. change (inject_Z (Z.of_nat 0)) with 0. nra.
    - assert (2 <= n) by (unfold n; change 2 with (inject_Z 2); rewrite <- Zle_Qle; lia).
      nra. }
  rewrite div_fin by assumption.
  destruct (Math_min_fin (e / (255 * Qsqrt 3 * (n + - (1)))) 1) as (m & -> & H1 & H2 & [-> | ->]).
  - unfold in_unit, between. split; [|assumption].
    destruct Hlen' as [El | El].
    + assert (Hz : e == 0).
      { apply length_zero_iff_nil in El. rewrite El in He. now injection He as <-. }
      rewrite Hz. unfold Qdiv. lra.
    + assert (2 <= n) by (unfold n; change 2 with (inject_Z 2); rewrite <- Zle_Qle; lia).
      apply Qle_shift_div_l; nra.
  - unfold in_unit, between. lra.
Qed.

Lemma response_colors_present (result : AnnotateImageResponse) (cs : list ColorInfo) :
  response_colors result = Some cs ->
  imagePropertiesAnnotation result =
  Some {| g_dominantColors := Some {| colors := Some cs |} |}.
Proof.
  unfold response_colors.
  destruct (imagePropertiesAnnotation result) as [[[[[cs'|]]|]]|]; try discriminate.
  now intros [= ->].
Qed.

Lemma face_blur_scores_in_unit (result : AnnotateImageResponse) :
  Forall in_unit (faceBlurScores result).
Proof.
  unfold faceBlurScores. apply List.Forall_map, List.Forall_forall. intros face _.
  destruct (blurredLikelihood face) as [[]|]; vm_compute; split; discriminate.
Qed.

(** [evaluateBlur] reads the faces and the image properties only. *)
Lemma evaluateBlur_reads (result : AnnotateImageResponse) :
  evaluateBlur result =
  evaluateBlur (response_of (faceAnnotations result) (imagePropertiesAnnotation result)).
Proof. reflexivity. Qed.

(** With colour data the blur score is in the unit interval whenever
    the edge strength is. *)
Lemma blur_blend_in_unit (result : AnnotateImageResponse) (cs : list ColorInfo) :
  response_colors result = Some cs ->
  in_unit (normalizedEdgeStrength cs) ->
  in_unit (evaluateBlur result).
Proof.
  intros Hc Hedge.
  rewrite evaluateBlur_reads, (response_colors_present _ _ Hc).
  destruct (faceAnnotations result) as [[|f fs]|] eqn:Ef.
  - apply (between_num_eq _ _ _ _ (blur_edge_only (Some []) cs eq_refl)). exact Hedge.
  - apply (between_num_eq _ _ _ _ (blur_faces_and_colors f fs cs)).
    set (shown := response_of (Some (f :: fs)) _).
    assert (Havg : in_unit (average (faceBlurScores shown))).
    { apply average_between; [discriminate | apply face_blur_scores_in_unit]. }
    apply (between_weaken (0 * 0.7 + 0 * 0.3) (1 * 0.7 + 1 * 0.3)); [|lra|lra].
    apply between_add; apply between_scale; try lra; assumption.
  - apply (between_num_eq _ _ _ _ (blur_edge_only None cs eq_refl)). exact Hedge.
Qed.

(** X12: with dominant-colour data of no colour, or of two or more
    colours with finite channels, the blur score lies in the unit
    interval, whether or not the photo has faces. *)
Theorem blur_in_unit (result : AnnotateImageResponse) (cs : list ColorInfo) :
  response_colors result = Some cs ->
  length cs <> 1%nat ->
  Forall finite_color_info cs ->
  in_unit (evaluateBlur result).
Proof.
  intros Hc Hlen Hcs.
  apply (blur_blend_in_unit result cs Hc).
  apply edge_strength_in_unit; assumption.
Qed.

Lemma blur_in_unit_witness :
  response_colors sorrow_and_anger = Some [grey; grey] /\
  in_unit (evaluateBlur sorrow_and_anger).
Proof.
  split; [reflexivity|].
  apply (blur_in_unit sorrow_and_anger [grey; grey]); [reflexivity | discriminate |].
  repeat constructor; exists 128, 128, 128, 1; repeat split.
Defined.

(** X13: with dominant-colour data of exactly one colour the edge
    strength is [0 / 0], and the blur score is NaN, with or without
    faces. *)
Theorem blur_of_single_color (result : AnnotateImageResponse) (c : ColorInfo) :
  response_colors result = Some [c] ->
  evaluateBlur result = NaN.
Proof.
  intros Hc. unfold evaluateBlur. rewrite Hc, edge_strength_single.
  destruct (has_faces result).
  - set (scores := map _ _).
    assert (Hlen : length (scores ++ [NaN]) = S (length scores))
      by (rewrite length_app; simpl; lia).
    rewrite Hlen. cbn [Nat.eqb]. rewrite last_snoc.
    rewrite mul_NaN_l. apply add_NaN_r.
  - reflexivity.
Qed.

Lemma blur_of_single_color_witness :
  response_colors one_color_only = Some [grey] /\
  evaluateBlur one_color_only = NaN.
Proof.
  split; [reflexivity|]. apply (blur_of_single_color one_color_only grey). reflexivity.
Defined.

(** ** Bounding boxes *)

(** [Math.min(...xs)] and [Math.max(...xs)] of finite numbers, one at
    least: the least and the greatest of them. *)
Lemma Math_min_list_from (qs : list Q) (a : Q) :
  exists m, fold_left Math_min (map Fin qs) (Fin a) = Fin m /\
            m <= a /\ Forall (fun q => m <= q) qs /\ (m = a \/ In m qs).
Proof.
  revert a. induction qs as [|q qs IH]; intros a; cbn [map fold_left].
  - exists a. repeat split; [lra | constructor | now left].
  - destruct (Math_min_fin a q) as (c & -> & H1 & H2 & Hc).
    destruct (IH c) as (m & -> & H3 & H4 & H5).
    exists m. repeat split; [lra | constructor; [lra | assumption] |].
    destruct H5 as [-> | H5]; [|right; now right].
    destruct Hc as [-> | ->]; [now left | right; now left].
Qed.

Lemma Math_max_list_from (qs : list Q) (a : Q) :
  exists m, fold_left Math_max (map Fin qs) (Fin a) = Fin m /\
            a <= m /\ Forall (fun q => q <= m) qs /\ (m = a \/ In m qs).
Proof.
  revert a. induction qs as [|q qs IH]; intros a; cbn [map fold_left].
  - exists a. repeat split; [lra | constructor | now left].
  - destruct (Math_max_fin a q) as (c & -> & H1 & H2 & Hc).
    destruct (IH c) as (m & -> & H3 & H4 & H5).
    exists m. repeat split; [lra | constructor; [lra | assumption] |].
    destruct H5 as [-> | H5]; [|right; now right].
    destruct Hc as [-> | ->]; [now left | right; now left].
Qed.

Lemma Math_min_list_finite (q : Q) (qs : list Q) :
  exists m, Math_min_list (map Fin (q :: qs)) = Fin m /\
            Forall (fun x => m <= x) (q :: qs) /\ In m (q :: qs).
Proof.
  unfold Math_min_list. cbn [map fold_left Math_min JS.lt].
  destruct (Math_min_list_from qs q) as (m & -> & H1 & H2 & H3).
  exists m. repeat split; [constructor; assumption|].
  destruct H3 as [-> | H3]; [now left | now right].
Qed.

Lemma Math_max_list_finite (q : Q) (qs : list Q) :
  exists m, Math_max_list (map Fin (q :: qs)) = Fin m /\
            Forall (fun x => x <= m) (q :: qs) /\ In m (q :: qs).
Proof.
  unfold Math_max_list. cbn [map fold_left Math_max JS.lt].
  destruct (Math_max_list_from qs q) as (m & -> & H1 & H2 & H3).
  exists m. repeat split; [constructor; assumption|].
  destruct H3 as [-> | H3]; [now left | now right].
Qed.

(** The coordinates of finite vertices. *)
Lemma finite_vertices_coordinates (vs : list Vertex) :
  Forall finite_vertex vs ->
  exists xs ys : list Q,
    map (fun v => opt_or (vertex_x v) 0) vs = map Fin xs /\
    map (fun v => opt_or (vertex_y v) 0) vs = map Fin ys /\
    length xs = length vs /\ length ys = length vs /\
    (forall v x y, In v vs -> vertex_at v x y -> In x xs /\ In y ys).
Proof.
  induction 1 as [|v vs (x & y & Hx & Hy) Hvs (xs & ys & H1 & H2 & H3 & H4 & H5)].
  - exists [], []. repeat split; auto; intros v x y [].
  - exists (x :: xs), (y :: ys). cbn [map length]. rewrite Hx, Hy, H1, H2, H3, H4.
    repeat split; auto.
    + destruct H as [<- | Hin]; [|right; eapply H5; eauto].
      destruct H0 as [Hx' _]. rewrite Hx in Hx'. injection Hx' as ->. now left.
    + destruct H as [<- | Hin]; [|right; eapply H5; eauto].
      destruct H0 as [_ Hy']. rewrite Hy in Hy'. injection Hy' as ->. now left.
Qed.

(** The box of four or more finite vertices spans from the least to the
    greatest coordinate on each axis. *)
Lemma convertBoundingPoly_span (vs : list Vertex) :
  Forall finite_vertex vs -> (4 <= length vs)%nat ->
  exists l r t b : Q,
    convertBoundingPoly (Some {| vertices := Some vs |}) =
      {| box_left := l; box_top := t;
         box_width := Fin (r + - l); box_height := Fin (b + - t) |} /\
    l <= r /\ t <= b /\
    (forall v x y, In v vs -> vertex_at v x y -> l <= x <= r /\ t <= y <= b).
Proof.
  intros Hvs Hlen. unfold convertBoundingPoly.
  replace (length vs <? 4)%nat with false by (symmetry; apply Nat.ltb_ge; lia).
  destruct (finite_vertices_coordinates vs Hvs) as (xs & ys & -> & -> & Hlx & Hly & Hin).
  destruct xs as [|x0 xs]; [simpl in Hlx; lia|].
  destruct ys as [|y0 ys]; [simpl in Hly; lia|].
  destruct (Math_min_list_finite x0 xs) as (l & -> & Hl & Hl').
  destruct (Math_max_list_finite x0 xs) as (r & -> & Hr & Hr').
  destruct (Math_min_list_finite y0 ys) as (t & -> & Ht & Ht').
  destruct (Math_max_list_finite y0 ys) as (b & -> & Hb & Hb').
  cbn [JS.sub JS.neg JS.add].
  rewrite List.Forall_forall in Hl, Hr, Ht, Hb.
  exists l, r, t, b. split; [reflexivity|].
  split; [apply (Hl _ Hr')|]. split; [apply (Ht _ Hb')|].
  intros v x y Hv Hat.
  destruct (Hin v x y Hv Hat) as [Hx Hy].
  repeat split; [apply (Hl _ Hx) | apply (Hr _ Hx) | apply (Ht _ Hy) | apply (Hb _ Hy)].
Qed.

(** X14: the box that [convertBoundingPoly] returns for four or more
    finite vertices has sides that are not negative and holds every
    vertex; fewer than four vertices give the empty box at the origin. *)
Theorem convertBoundingPoly_holds_vertices (vs : list Vertex) :
  Forall finite_vertex vs ->
  exists l t w h : Q,
    convertBoundingPoly (Some {| vertices := Some vs |}) =
      {| box_left := l; box_top := t; box_width := w; box_height := h |} /\
    0 <= w /\ 0 <= h /\
    ((length vs < 4)%nat -> l == 0 /\ t == 0 /\ w == 0 /\ h == 0) /\
    ((4 <= length vs)%nat ->
     forall v x y, In v vs -> vertex_at v x y ->
                   l <= x <= l + w /\ t <= y <= t + h).
Proof.
  intros Hvs.
  destruct (Nat.lt_ge_cases (length vs) 4) as [Hfew | Hmany].
  - exists 0, 0, 0, 0. unfold convertBoundingPoly.
    rewrite (proj2 (Nat.ltb_lt _ _) Hfew).
    repeat split; try lra; lia.
  - destruct (convertBoundingPoly_span vs Hvs Hmany) as (l & r & t & b & -> & Hlr & Htb & Hin).
    exists l, t, (r + - l)%Q, (b + - t)%Q. split; [reflexivity|].
    split; [lra|]. split; [lra|]. split; [lia|].
    intros _ v x y Hv Hat. destruct (Hin v x y Hv Hat) as [Hx Hy]. lra.
Qed.

Lemma convertBoundingPoly_holds_vertices_witness :
  let corner x y := {| vertex_x := Some (Fin x); vertex_y := Some (Fin y) |} in
  let vs := [corner 10 20; corner 40 20; corner 40 80; corner 10 80] in
  Forall finite_vertex vs /\
  exists l t w h : Q,
    convertBoundingPoly (Some {| vertices := Some vs |}) =
      {| box_left := l; box_top := t; box_width := w; box_height := h |} /\
    0 <= w /\ 0 <= h /\
    ((length vs < 4)%nat -> l == 0 /\ t == 0 /\ w == 0 /\ h == 0) /\
    ((4 <= length vs)%nat ->
     forall v x y, In v vs -> vertex_at v x y ->
                   l <= x <= l + w /\ t <= y <= t + h).
Proof.
  cbv zeta.
  assert (H : Forall finite_vertex
                [{| vertex_x := Some (Fin 10); vertex_y := Some (Fin 20) |};
                 {| vertex_x := Some (Fin 40); vertex_y := Some (Fin 20) |};
                 {| vertex_x := Some (Fin 40); vertex_y := Some (Fin 80) |};
                 {| vertex_x := Some (Fin 10); vertex_y := Some (Fin 80) |}]).
  { repeat constructor;
      [exists 10, 20 | exists 40, 20 | exists 40, 80 | exists 10, 80]; now split. }
  split; [exact H|].
  exact (convertBoundingPoly_holds_vertices _ H).
Defined.

(** ** Exposure, noise and visual balance *)

Lemma finite_color_data_present (result : AnnotateImageResponse) (cs : list ColorInfo) :
  response_colors result = Some cs -> finite_color_data result -> Forall finite_color_info cs.
Proof. unfold finite_color_data. now intros ->. Qed.

Lemma valid_color_data_present (result : AnnotateImageResponse) (cs : list ColorInfo) :
  response_colors result = Some cs -> valid_color_data result -> Forall valid_color_info cs.
Proof. unfold valid_color_data. now intros ->. Qed.

(** Colours in the ranges of the service are valid and finite. *)
Lemma ranged_color_info_valid (c : ColorInfo) : ranged_color_info c -> valid_color_info c.
Proof.
  intros (r & g & b & f & Hr & Hg & Hb & Hf & Br & Bg & Bb & Bf).
  exists r, g, b, f. repeat split; try assumption; lra.
Qed.

Lemma ranged_color_data_valid (result : AnnotateImageResponse) :
  ranged_color_data result -> valid_color_data result.
Proof. apply List.Forall_impl, ranged_color_info_valid. Qed.

Lemma ranged_color_data_finite (result : AnnotateImageResponse) :
  ranged_color_data result -> finite_color_data result.
Proof.
  apply List.Forall_impl. intros c Hc.
  apply valid_color_info_finite, ranged_color_info_valid, Hc.
Qed.

(** The two running totals of [evaluateExposure]: the weighted
    brightness never exceeds the weight, and the weight stays where it is
    when every pixel fraction is zero. *)
Lemma exposure_totals (cs : list ColorInfo) (x w : Q) :
  Forall valid_color_info cs -> 0 <= x <= w ->
  exists x' w',
    fold_left
      (fun '(totalBrightness, totalWeight) c =>
         (totalBrightness +
          (opt_or (g_red (color_of c)) 0 + opt_or (g_green (color_of c)) 0
           + opt_or (g_blue (color_of c)) 0) / (3 * 255)
          * opt_or (info_pixelFraction c) 0,
          totalWeight + opt_or (info_pixelFraction c) 0))
      cs (Fin x, Fin w) = (Fin x', Fin w') /\
    0 <= x' <= w' /\
    (Forall (fun c => opt_or (info_pixelFraction c) 0 =n= 0) cs -> w' == w).
Proof.
  intros H. revert x w.
  induction H as [|c cs (r & g & b & f & Hr & Hg & Hb & Hf & Br & Bg & Bb & Bf) _ IH];
    intros x w Hxw; cbn [fold_left].
  - exists x, w. repeat split; try lra; try reflexivity.
  - rewrite Hr, Hg, Hb, Hf. cbn [JS.add JS.mul].
    rewrite div_fin by (intros E; vm_compute in E; discriminate).
    cbn [JS.mul JS.add].
    destruct (IH (x + (r + g + b) / (3 * 255) * f)%Q (w + f)%Q) as (x' & w' & E & Hb' & Hz).
    { assert (0 <= (r + g + b) / (3 * 255) <= 1).
      { split; [apply Qle_shift_div_l | apply Qle_shift_div_r]; lra. }
      nra. }
    exists x', w'. split; [exact E|]. split; [exact Hb'|].
    intros Hall. inversion Hall as [|? ? Hc Hall']; subst.
    rewrite Hf in Hc. unfold num_eq in Hc.
    rewrite (Hz Hall'), Hc. ring.
Qed.

Lemma exposure_of_brightness (a : Q) :
  0 <= a <= 1 -> in_unit (1 - Math_abs (Fin a - 0.5) * 2).
Proof.
  intros Ha. cbn [JS.sub JS.neg JS.add Math_abs JS.mul].
  unfold in_unit, between.
  apply Qabs_case; intros; lra.
Qed.

(** The average brightness that [evaluateExposure] scores. *)
Lemma exposure_average (cs : list ColorInfo) :
  Forall valid_color_info cs ->
  exists x w,
    fold_left
      (fun '(totalBrightness, totalWeight) c =>
         (totalBrightness +
          (opt_or (g_red (color_of c)) 0 + opt_or (g_green (color_of c)) 0
           + opt_or (g_blue (color_of c)) 0) / (3 * 255)
          * opt_or (info_pixelFraction c) 0,
          totalWeight + opt_or (info_pixelFraction c) 0))
      cs (Fin 0, Fin 0) = (Fin x, Fin w) /\
    (exists a, (if Fin w >? 0 then Fin x / Fin w else 0.5) = Fin a /\ 0 <= a <= 1) /\
    (Forall (fun c => opt_or (info_pixelFraction c) 0 =n= 0) cs -> (Fin w >? 0) = false).
Proof.
  intros Hv.
  destruct (exposure_totals cs 0 0 Hv) as (x & w & E & Hxw & Hz); [lra|].
  exists x, w. split; [exact E|].
  unfold JS.gt, JS.lt.
  destruct (Qle_bool w 0) eqn:Ew; cbn [negb].
  - split; [exists 0.5; split; [reflexivity | lra] | reflexivity].
  - assert (Hw : 0 < w).
    { destruct (Qlt_le_dec 0 w) as [H | H]; [assumption|].
      apply Qle_bool_iff in H. congruence. }
    rewrite div_fin by lra. split.
    + eexists. split; [reflexivity|].
      split; [apply Qle_shift_div_l | apply Qle_shift_div_r]; lra.
    + intros Hall. apply Hz in Hall. lra.
Qed.

Lemma exposure_bound (result : AnnotateImageResponse) :
  valid_color_data result -> in_unit (evaluateExposure result).
Proof.
  intros Hv. unfold evaluateExposure.
  destruct (response_colors result) as [cs|] eqn:Ec; [|unfold in_unit, between; lra].
  apply (valid_color_data_present _ _ Ec) in Hv. cbv zeta.
  destruct (exposure_average cs Hv) as (x & w & -> & (a & -> & Ha) & _).
  now apply exposure_of_brightness.
Qed.

(** X15: for dominant colours with channels from 0 to 255 and pixel
    fractions from 0 to 1, the exposure score lies in the unit interval;
    it is 1 when the pixel fractions are all zero or missing, also for an
    empty list of colours. *)
Theorem exposure_in_unit (result : AnnotateImageResponse) :
  ranged_color_data result ->
  in_unit (evaluateExposure result) /\
  (Forall (fun c => opt_or (info_pixelFraction c) 0 =n= 0) (or_nil (response_colors result)) ->
   response_colors result <> None ->
   evaluateExposure result =n= 1).
Proof.
  intros Hv. apply ranged_color_data_valid in Hv.
  split; [now apply exposure_bound|].
  unfold evaluateExposure.
  destruct (response_colors result) as [cs|] eqn:Ec; [|now intros _ []].
  apply (valid_color_data_present _ _ Ec) in Hv. cbn [or_nil]. cbv zeta.
  destruct (exposure_average cs Hv) as (x & w & -> & _ & Hzero).
  intros Hall _. rewrite (Hzero Hall). vm_compute. reflexivity.
Qed.

Lemma exposure_in_unit_witness :
  ranged_color_data sorrow_and_anger /\ in_unit (evaluateExposure sorrow_and_anger).
Proof.
  assert (H : ranged_color_data sorrow_and_anger).
  { repeat constructor; exists 128, 128, 128, 1; repeat split; lra. }
  split; [exact H|]. exact (proj1 (exposure_in_unit sorrow_and_anger H)).
Defined.

(** The two running totals of [evaluateNoise] stay finite. *)
Lemma noise_totals (pairs : list (ColorInfo * ColorInfo)) (a w : Q) :
  Forall (fun pair => finite_color_info (fst pair) /\ finite_color_info (snd pair)) pairs ->
  exists a' w',
    fold_left
      (fun '(noiseScore, totalWeight) '(c1, c2) =>
         (noiseScore -
          rgb_difference c1 c2 / (255 * Math_sqrt 3)
          * (opt_or (info_pixelFraction c1) 0 + opt_or (info_pixelFraction c2) 0),
          totalWeight
          + (opt_or (info_pixelFraction c1) 0 + opt_or (info_pixelFraction c2) 0)))
      pairs (Fin a, Fin w) = (Fin a', Fin w').
Proof.
  intros H. revert a w.
  induction H as [|[c1 c2] pairs [H1 H2] _ IH]; intros a w; cbn [fold_left].
  - now exists a, w.
  - cbn [fst snd] in H1, H2.
    destruct (rgb_difference_finite c1 c2 H1 H2) as (d & -> & _).
    destruct H1 as (_ & _ & _ & f1 & _ & _ & _ & Hf1).
    destruct H2 as (_ & _ & _ & f2 & _ & _ & _ & Hf2).
    rewrite Hf1, Hf2.
    destruct sqrt_three as [-> Hroot]. cbn [JS.mul JS.add].
    rewrite div_fin by lra.
    cbn [JS.mul JS.sub JS.neg JS.add]. apply IH.
Qed.

Lemma noise_bound (result : AnnotateImageResponse) :
  finite_color_data result -> in_unit (evaluateNoise result).
Proof.
  intros Hf. unfold evaluateNoise.
  destruct (response_colors result) as [cs|] eqn:Ec; [|unfold in_unit, between; lra].
  apply (finite_color_data_present _ _ Ec) in Hf.
  destruct (length cs <? 2)%nat; [unfold in_unit, between; lra|].
  cbv zeta.
  destruct (noise_totals (adjacent_pairs cs) 1 0) as (a & w & ->);
    [now apply adjacent_pairs_Forall|].
  assert (Hq : exists q, Fin a / (Fin w ||| 1) = Fin q).
  { unfold or_else, truthy. destruct (Qeq_bool w 0) eqn:Ew; cbn [negb].
    - rewrite div_fin by lra. eauto.
    - rewrite div_fin; [eauto|]. intros H. apply Qeq_bool_iff in H. congruence. }
  destruct Hq as [q ->].
  destruct (Math_min_fin 1 q) as (c & -> & H1 & H2 & _).
  destruct (Math_max_fin 0 c) as (m & -> & H3 & H4 & [-> | ->]);
    unfold in_unit, between; lra.
Qed.

(** X16: for dominant colours with channels from 0 to 255 and pixel
    fractions from 0 to 1, the noise score lies in the unit interval; it
    is 0.5 when there are fewer than two colours. *)
Theorem noise_in_unit (result : AnnotateImageResponse) :
  ranged_color_data result ->
  in_unit (evaluateNoise result) /\
  ((length (or_nil (response_colors result)) < 2)%nat -> evaluateNoise result = 0.5).
Proof.
  intros Hf. apply ranged_color_data_finite in Hf.
  split; [now apply noise_bound|].
  unfold evaluateNoise.
  destruct (response_colors result) as [cs|]; [|reflexivity].
  cbn [or_nil]. intros Hfew.
  now rewrite (proj2 (Nat.ltb_lt _ _) Hfew).
Qed.

Lemma noise_in_unit_witness :
  ranged_color_data sorrow_and_anger /\ in_unit (evaluateNoise sorrow_and_anger).
Proof.
  assert (H : ranged_color_data sorrow_and_anger).
  { repeat constructor; exists 128, 128, 128, 1; repeat split; lra. }
  split; [exact H|]. exact (proj1 (noise_in_unit sorrow_and_anger H)).
Defined.

(** The four running weights of [evaluateVisualBalance] are one and the
    same number. *)
Lemma balance_weights (cs : list ColorInfo) (x : Q) :
  Forall finite_color_info cs ->
  exists x',
    fold_left
      (fun '(leftWeight, rightWeight, topWeight, bottomWeight) c =>
         (leftWeight +
          opt_or (info_pixelFraction c) 0
          * (opt_or (g_red (color_of c)) 0 + opt_or (g_green (color_of c)) 0
             + opt_or (g_blue (color_of c)) 0) / (3 * 255) * 0.5,
          rightWeight +
          opt_or (info_pixelFraction c) 0
          * (opt_or (g_red (color_of c)) 0 + opt_or (g_green (color_of c)) 0
             + opt_or (g_blue (color_of c)) 0) / (3 * 255) * 0.5,
          topWeight +
          opt_or (info_pixelFraction c) 0
          * (opt_or (g_red (color_of c)) 0 + opt_or (g_green (color_of c)) 0
             + opt_or (g_blue (color_of c)) 0) / (3 * 255) * 0.5,
          bottomWeight +
          opt_or (info_pixelFraction c) 0
          * (opt_or (g_red (color_of c)) 0 + opt_or (g_green (color_of c)) 0
             + opt_or (g_blue (color_of c)) 0) / (3 * 255) * 0.5))
      cs (Fin x, Fin x, Fin x, Fin x) = (Fin x', Fin x', Fin x', Fin x').
Proof.
  intros H. revert x.
  induction H as [|c cs (r & g & b & f & Hr & Hg & Hb & Hf) _ IH]; intros x; cbn [fold_left].
  - now exists x.
  - rewrite Hr, Hg, Hb, Hf. cbn [JS.add JS.mul].
    rewrite div_fin by (intros E; vm_compute in E; discriminate).
    cbn [JS.mul JS.add]. apply IH.
Qed.

(** Equal weights on both sides balance to 1. *)
Lemma balance_of_equal_weights (x : Q) :
  (1 - Math_abs (Fin x - Fin x)) * 0.5 + (1 - Math_abs (Fin x - Fin x)) * 0.5 =n= 1.
Proof.
  cbn [JS.sub JS.neg JS.add Math_abs JS.mul]. unfold num_eq.
  assert (E : x + - x == 0) by ring.
  rewrite E. vm_compute. reflexivity.
Qed.

Lemma visual_balance_optional_unit (result : AnnotateImageResponse) :
  finite_color_data result -> optional_unit (evaluateVisualBalance result).
Proof.
  intros Hf. unfold evaluateVisualBalance.
  destruct (response_colors result) as [[|c cs]|] eqn:Ec; try exact I.
  apply (finite_color_data_present _ _ Ec) in Hf. cbv zeta.
  destruct (balance_weights (c :: cs) 0 Hf) as (x & ->).
  apply (between_num_eq 0 1 _ 1 (balance_of_equal_weights x)).
  unfold between. lra.
Qed.

(** X17: the visual balance of dominant colours with channels from 0 to
    255 and pixel fractions from 0 to 1 is 1, whatever the colours are: the
    weight of each colour goes in equal halves to the left and the right,
    and to the top and the bottom. *)
Theorem visual_balance_is_one (result : AnnotateImageResponse) :
  ranged_color_data result ->
  match evaluateVisualBalance result with
  | Some balance => balance =n= 1
  | None => response_colors result = None \/ response_colors result = Some []
  end.
Proof.
  intros Hf. apply ranged_color_data_finite in Hf. unfold evaluateVisualBalance.
  destruct (response_colors result) as [[|c cs]|] eqn:Ec; [now right | | now left].
  apply (finite_color_data_present _ _ Ec) in Hf.
  cbv zeta.
  destruct (balance_weights (c :: cs) 0 Hf) as (x & ->).
  apply balance_of_equal_weights.
Qed.

Lemma visual_balance_is_one_witness :
  ranged_color_data sorrow_and_anger /\
  match evaluateVisualBalance sorrow_and_anger with
  | Some balance => balance =n= 1
  | None => response_colors sorrow_and_anger = None \/
            response_colors sorrow_and_anger = Some []
  end.
Proof.
  assert (H : ranged_color_data sorrow_and_anger).
  { repeat constructor; exists 128, 128, 128, 1; repeat split; lra. }
  split; [exact H|]. exact (visual_balance_is_one sorrow_and_anger H).
Defined.

(** ** The composition score *)

Lemma convertBoundingPoly_proper (poly : option BoundingPoly) :
  Forall finite_vertex (poly_vertices poly) -> proper_box (convertBoundingPoly poly).
Proof.
  intros H.
  assert (Hzero : proper_box {| box_left := 0; box_top := 0; box_width := 0; box_height := 0 |}).
  { exists 0, 0, 0, 0. repeat split; lra. }
  destruct poly as [[[vs|]]|]; try exact Hzero.
  destruct (Nat.lt_ge_cases (length vs) 4) as [Hfew | Hmany].
  - unfold convertBoundingPoly. now rewrite (proj2 (Nat.ltb_lt _ _) Hfew).
  - destruct (convertBoundingPoly_span vs H Hmany) as (l & r & t & b & -> & Hlr & Htb & _).
    exists l, t, (r + - l)%Q, (b + - t)%Q. split; [reflexivity | lra].
Qed.

Lemma subjects_proper (result : AnnotateImageResponse) :
  finite_subjects result -> Forall proper_box (subjects result).
Proof.
  intros (Hfaces & Hlandmarks & Hobjects). unfold subjects.
  repeat (apply List.Forall_app; split);
    apply List.Forall_map;
    [revert Hfaces | revert Hlandmarks | revert Hobjects];
    apply List.Forall_impl; intros x; apply convertBoundingPoly_proper.
Qed.

(** The distance of a centre coordinate to the nearer thirds line. *)
Lemma thirds_distance (center : Q) :
  exists d,
    Math_min_list (map (fun third => Math_abs (third - Fin center)) thirdLines) = Fin d /\
    0 <= d.
Proof.
  unfold thirdLines. cbn [map JS.sub JS.neg JS.add Math_abs].
  destruct (Math_min_list_finite (Qabs (0.33 + - center)) [Qabs (0.67 + - center)])
    as (d & E & _ & Hin).
  exists d. split; [exact E|].
  destruct Hin as [<- | [<- | []]]; apply Qabs_nonneg.
Qed.

Lemma thirds_score_in_unit (subject : BoundingBox) :
  proper_box subject ->
  in_unit
    (1 - Math_min
           ((Math_min_list
               (map (fun third =>
                       Math_abs (third - (box_left subject + box_width subject / 2)))
                    thirdLines)
             + Math_min_list
                 (map (fun third =>
                         Math_abs (third - (box_top subject + box_height subject / 2)))
                      thirdLines)) / 2) 1).
Proof.
  intros (l & t & w & h & -> & Hw & Hh). cbn [box_left box_top box_width box_height].
  rewrite !div_fin by lra. cbn [JS.add].
  destruct (thirds_distance (l + w / 2)) as (dv & -> & Hdv).
  destruct (thirds_distance (t + h / 2)) as (dh & -> & Hdh).
  cbn [JS.add]. rewrite div_fin by lra.
  destruct (Math_min_fin ((dv + dh) / 2) 1) as (c & -> & H1 & H2 & Hc).
  cbn [JS.sub JS.neg JS.add]. unfold in_unit, between.
  assert (0 <= (dv + dh) / 2) by (apply Qle_shift_div_l; lra).
  destruct Hc as [-> | ->]; lra.
Qed.

Lemma prominence_score_in_unit (subject : BoundingBox) :
  proper_box subject ->
  in_unit
    (Math_min (box_width subject * box_height subject / (1 * 0.5)) 1 * 0.6
     + (1 - Math_min
              (Math_sqrt (sq (box_left subject + box_width subject / 2 - 0.5)
                          + sq (box_top subject + box_height subject / 2 - 0.5)) / 0.5) 1)
       * 0.4).
Proof.
  intros (l & t & w & h & -> & Hw & Hh). cbn [box_left box_top box_width box_height].
  cbn [JS.mul]. rewrite !div_fin by lra.
  cbn [sq JS.add JS.sub JS.neg JS.mul]. unfold Math_sqrt.
  set (s := ((l + w / 2 + - (0.5)) * (l + w / 2 + - (0.5))
             + (t + h / 2 + - (0.5)) * (t + h / 2 + - (0.5)))%Q).
  assert (Hs : 0 <= s).
  { unfold s. pose proof (Qsquare_nonneg (l + w / 2 + - (0.5))).
    pose proof (Qsquare_nonneg (t + h / 2 + - (0.5))). lra. }
  rewrite (proj2 (Qle_bool_iff 0 s) Hs). rewrite div_fin by lra.
  destruct (Math_min_fin (w * h / (1 * 0.5)) 1) as (a & -> & Ha1 & Ha2 & Ha).
  destruct (Math_min_fin (Qsqrt s / 0.5) 1) as (p & -> & Hp1 & Hp2 & Hp).
  cbn [JS.sub JS.neg JS.add JS.mul]. unfold in_unit, between.
  assert (0 <= w * h / (1 * 0.5)) by (apply Qle_shift_div_l; nra).
  assert (0 <= Qsqrt s / 0.5).
  { pose proof (Qsqrt_nonneg s). apply Qle_shift_div_l; lra. }
  destruct Ha as [-> | ->], Hp as [-> | ->]; lra.
Qed.

Lemma rule_of_thirds_in_unit (result : AnnotateImageResponse) :
  finite_subjects result ->
  match evaluateRuleOfThirds result with
  | Some thirds => in_unit thirds
  | None => True
  end.
Proof.
  intros H. apply subjects_proper in H. unfold evaluateRuleOfThirds. cbv zeta.
  destruct (length (subjects result) =? 0)%nat eqn:El; [exact I|].
  apply average_between.
  - intros E. apply map_eq_nil in E. rewrite E in El. discriminate.
  - apply List.Forall_map. revert H. apply List.Forall_impl.
    intros subject. apply thirds_score_in_unit.
Qed.

Lemma subject_prominence_in_unit (result : AnnotateImageResponse) :
  finite_subjects result ->
  match evaluateSubjectProminence result with
  | Some prominence => in_unit prominence
  | None => True
  end.
Proof.
  intros H. apply subjects_proper in H. unfold evaluateSubjectProminence. cbv zeta.
  destruct (length (subjects result) =? 0)%nat eqn:El; [exact I|].
  apply average_between.
  - intros E. apply map_eq_nil in E. rewrite E in El. discriminate.
  - apply List.Forall_map. revert H. apply List.Forall_impl.
    intros subject. apply prominence_score_in_unit.
Qed.

Lemma weighted_part_bound (part : num) (weight : Q) :
  in_unit part -> 0 <= weight <= 0.4 -> between 0 0.4 (part * Fin weight).
Proof.
  intros Hp Hw.
  apply (between_weaken (0 * weight) (1 * weight)); [|lra|lra].
  apply between_scale; [lra | exact Hp].
Qed.

(** The weighted parts, divided by their number: 0.5 when no part is
    present, and 0.4 at most otherwise. *)
Lemma weighted_composition_bound (thirds prominence balance : option num) :
  optional_unit thirds -> optional_unit prominence -> optional_unit balance ->
  (thirds = None /\ prominence = None /\ balance = None) \/
  between 0 0.4 (weighted_composition thirds prominence balance).
Proof.
  intros Ht Hp Hb. unfold weighted_composition.
  destruct thirds as [thirds|], prominence as [prominence|], balance as [balance|];
    cbn [omap list_omap option_map length Nat.eqb];
    try (right; apply average_between; [discriminate|];
         repeat constructor; apply weighted_part_bound; auto; lra).
  now left.
Qed.

Lemma optional_unit_of (o : option num) :
  match o with Some x => in_unit x | None => True end -> optional_unit o.
Proof. now destruct o. Qed.

Lemma ranged_vertex_finite (v : Vertex) : ranged_vertex v -> finite_vertex v.
Proof. intros (x & y & H & _). now exists x, y. Qed.

Lemma ranged_subjects_finite (result : AnnotateImageResponse) :
  ranged_subjects result -> finite_subjects result.
Proof.
  intros (Hf & Hl & Ho).
  split; [|split]; [revert Hf | revert Hl | revert Ho];
    apply List.Forall_impl; intros a; apply List.Forall_impl, ranged_vertex_finite.
Qed.

(** X18: for bounding polygons with coordinates of at most 2^53 in
    magnitude and dominant colours in the ranges of the service, the
    composition score is 0.5 when the response has neither subjects nor
    colours, and lies between 0 and 0.4 when it has any: a response with
    annotations never scores above one without. *)
Theorem composition_at_most_half (result : AnnotateImageResponse) :
  ranged_subjects result ->
  ranged_color_data result ->
  (subjects result = [] /\ or_nil (response_colors result) = [] ->
   evaluateComposition result = 0.5) /\
  (subjects result <> [] \/ or_nil (response_colors result) <> [] ->
   between 0 0.4 (evaluateComposition result)).
Proof.
  intros Hs Hc.
  apply ranged_subjects_finite in Hs. apply ranged_color_data_finite in Hc.
  destruct (composition_parts_presence result) as (Pt & Pp & Pb).
  rewrite composition_weighted. split.
  - intros [Hnone Hcolors].
    rewrite (proj2 Pt Hnone), (proj2 Pp Hnone).
    replace (evaluateVisualBalance result) with (@None num); [reflexivity|].
    symmetry. apply Pb.
    destruct (response_colors result) as [[|c cs]|]; auto. discriminate.
  - intros Hsome.
    destruct (weighted_composition_bound
                (evaluateRuleOfThirds result) (evaluateSubjectProminence result)
                (evaluateVisualBalance result))
      as [(Ht & Hp & Hb) | Hbound].
    + apply optional_unit_of, rule_of_thirds_in_unit, Hs.
    + apply optional_unit_of, subject_prominence_in_unit, Hs.
    + apply visual_balance_optional_unit, Hc.
    + exfalso. destruct Hsome as [Hsome | Hsome]; apply Hsome.
      * now apply Pt.
      * destruct (proj1 Pb Hb) as [-> | ->]; reflexivity.
    + exact Hbound.
Qed.

Lemma composition_at_most_half_witness :
  ranged_subjects full_frame_face /\
  ranged_color_data full_frame_face /\
  between 0 0.4 (evaluateComposition full_frame_face).
Proof.
  assert (Hs : ranged_subjects full_frame_face).
  { split; [|split]; repeat constructor;
      eexists _, _; (split; [split; reflexivity|]); split; vm_compute; discriminate. }
  assert (Hc : ranged_color_data full_frame_face).
  { repeat constructor; exists 128, 128, 128, 1; repeat split; lra. }
  split; [exact Hs|]. split; [exact Hc|].
  apply (composition_at_most_half full_frame_face Hs Hc).
  left. discriminate.
Defined.

(** ** Brightness, contrast and sharpness *)

Lemma brightness_from (cs : list ColorInfo) (a : Q) :
  Forall valid_color_info cs ->
  exists b,
    fold_left
      (fun sum c =>
         sum + (opt_or (g_red (color_of c)) 0 + opt_or (g_green (color_of c)) 0
                + opt_or (g_blue (color_of c)) 0) / 3 / 255
               * opt_or (info_pixelFraction c) 0)
      cs (Fin a) = Fin b /\
    a <= b <= a + info_fraction_total cs.
Proof.
  intros H. revert a.
  induction H as [|c cs (r & g & b & f & Hr & Hg & Hb & Hf & Br & Bg & Bb & Bf) _ IH];
    intros a; cbn [fold_left info_fraction_total fold_right].
  - exists a. split; [reflexivity | lra].
  - rewrite Hr, Hg, Hb, Hf. cbn [JS.add value].
    rewrite !div_fin by lra. cbn [JS.mul JS.add].
    destruct (IH (a + (r + g + b) / 3 / 255 * f)%Q) as (b' & -> & Hb').
    exists b'. split; [reflexivity|].
    fold (info_fraction_total cs).
    assert (0 <= (r + g + b) / 3 / 255 <= 1).
    { split; [apply Qle_shift_div_l | apply Qle_shift_div_r]; try lra;
        [apply Qle_shift_div_l | apply Qle_shift_div_r]; lra. }
    nra.
Qed.

(** X19: for colours with channels from 0 to 255 and pixel fractions
    from 0 to 1, the brightness lies between 0 and the sum of the pixel
    fractions: in the unit interval when the fractions sum to 1 at
    most. *)
Theorem brightness_within_fractions (cs : list ColorInfo) :
  Forall ranged_color_info cs ->
  between 0 (info_fraction_total cs) (calculateBrightness cs).
Proof.
  intros H. apply (List.Forall_impl _ ranged_color_info_valid) in H.
  unfold calculateBrightness. cbv zeta.
  destruct (brightness_from cs 0 H) as (b & -> & Hb).
  unfold between. lra.
Qed.

Lemma brightness_within_fractions_witness :
  Forall ranged_color_info [grey; grey] /\
  between 0 (info_fraction_total [grey; grey]) (calculateBrightness [grey; grey]).
Proof.
  assert (H : Forall ranged_color_info [grey; grey]).
  { repeat constructor; exists 128, 128, 128, 1; repeat split; lra. }
  split; [exact H|]. exact (brightness_within_fractions [grey; grey] H).
Defined.

(** The mean channel values of valid colours. *)
Lemma mean_channels (cs : list ColorInfo) :
  Forall valid_color_info cs ->
  exists qs : list Q,
    map (fun c => (opt_or (g_red (color_of c)) 0 + opt_or (g_green (color_of c)) 0
                   + opt_or (g_blue (color_of c)) 0) / 3) cs = map Fin qs /\
    length qs = length cs /\ Forall (fun q => 0 <= q <= 255) qs.
Proof.
  induction 1 as [|c cs (r & g & b & f & Hr & Hg & Hb & Hf & Br & Bg & Bb & Bf) _
                    (qs & E & Hl & Hq)].
  - exists []. repeat split; constructor.
  - exists (((r + g + b) / 3)%Q :: qs). cbn [map length].
    rewrite Hr, Hg, Hb, E, Hl. cbn [JS.add]. rewrite div_fin by lra.
    repeat split. constructor; [|assumption].
    split; [apply Qle_shift_div_l | apply Qle_shift_div_r]; lra.
Qed.

(** X20: the contrast of colours with channels from 0 to 255 lies in the
    unit interval, and is 0 for fewer than two colours. *)
Theorem contrast_in_unit (cs : list ColorInfo) :
  Forall valid_color_info cs ->
  in_unit (calculateContrast cs) /\
  ((length cs < 2)%nat -> calculateContrast cs = 0).
Proof.
  intros H. unfold calculateContrast.
  destruct (length cs <? 2)%nat eqn:El.
  { split; [unfold in_unit, between; lra | reflexivity]. }
  apply Nat.ltb_ge in El. split; [|lia]. cbv zeta.
  destruct (mean_channels cs H) as (qs & -> & Hl & Hq).
  destruct qs as [|q qs]; [simpl in Hl; lia|].
  destruct (Math_max_list_finite q qs) as (hi & -> & Hhi & Hhi').
  destruct (Math_min_list_finite q qs) as (lo & -> & Hlo & Hlo').
  cbn [JS.sub JS.neg JS.add]. rewrite div_fin by lra.
  rewrite List.Forall_forall in Hq, Hhi, Hlo.
  pose proof (Hq _ Hhi'). pose proof (Hq _ Hlo'). pose proof (Hlo _ Hhi').
  unfold in_unit, between.
  split; [apply Qle_shift_div_l | apply Qle_shift_div_r]; lra.
Qed.

Lemma contrast_in_unit_witness :
  Forall valid_color_info [grey; grey] /\ in_unit (calculateContrast [grey; grey]).
Proof.
  assert (H : Forall valid_color_info [grey; grey]).
  { repeat constructor; exists 128, 128, 128, 1; repeat split; lra. }
  split; [exact H|]. exact (proj1 (contrast_in_unit [grey; grey] H)).
Defined.

(** X21: the sharpness of finite colours lies in the unit interval, and
    is 0 for fewer than two colours. *)
Theorem sharpness_in_unit (cs : list ColorInfo) :
  Forall finite_color_info cs ->
  in_unit (calculateSharpness cs) /\
  ((length cs < 2)%nat -> calculateSharpness cs = 0).
Proof.
  intros H. unfold calculateSharpness.
  destruct (length cs <? 2)%nat eqn:El.
  { split; [unfold in_unit, between; lra | reflexivity]. }
  apply Nat.ltb_ge in El. split; [|lia]. cbv zeta.
  destruct (variation_sum_finite (adjacent_pairs cs) 0) as (e & -> & Hpos);
    [now apply adjacent_pairs_Forall | lra |].
  unfold of_nat, of_Z. cbn [JS.sub JS.neg JS.add].
  set (n := inject_Z (Z.of_nat (length cs))).
  assert (Hn : 2 <= n) by (unfold n; change 2 with (inject_Z 2); rewrite <- Zle_Qle; lia).
  rewrite !div_fin by lra.
  destruct (Math_min_fin (e / (n + - (1)) / 442) 1) as (m & -> & H1 & H2 & Hm).
  unfold in_unit, between.
  assert (0 <= e / (n + - (1)) / 442).
  { apply Qle_shift_div_l; [lra|]. rewrite Qmult_0_l. apply Qle_shift_div_l; lra. }
  destruct Hm as [-> | ->]; lra.
Qed.

Lemma sharpness_in_unit_witness :
  Forall finite_color_info [grey; grey] /\ in_unit (calculateSharpness [grey; grey]).
Proof.
  assert (H : Forall finite_color_info [grey; grey]).
  { repeat constructor; exists 128, 128, 128, 1; repeat split. }
  split; [exact H|]. exact (proj1 (sharpness_in_unit [grey; grey] H)).
Defined.

(** ** Sorted keys and fingerprints *)

Lemma ascii_compare_lt_trans (a b c : ascii) :
  Ascii.compare a b = Lt -> Ascii.compare b c = Lt -> Ascii.compare a c = Lt.
Proof.
  unfold Ascii.compare. rewrite !N.compare_lt_iff. apply N.lt_trans.
Qed.

Lemma string_compare_lt_trans (s1 s2 s3 : string) :
  String.compare s1 s2 = Lt -> String.compare s2 s3 = Lt -> String.compare s1 s3 = Lt.
Proof.
  revert s2 s3.
  induction s1 as [|a s1 IH]; intros [|b s2] [|c s3]; cbn [String.compare];
    try discriminate; try reflexivity.
  destruct (Ascii.compare a b) eqn:Eab; try discriminate.
  - apply Ascii.compare_eq_iff in Eab. subst b.
    destruct (Ascii.compare a c); try discriminate; auto. apply IH.
  - intros _. destruct (Ascii.compare b c) eqn:Ebc; try discriminate.
    + apply Ascii.compare_eq_iff in Ebc. subst c. now rewrite Eab.
    + now rewrite (ascii_compare_lt_trans a b c).
Qed.

Lemma ltb_asym (x y : string) : String.ltb x y = true -> String.ltb y x = false.
Proof.
  unfold String.ltb. rewrite (String.compare_antisym y x).
  destruct (String.compare x y); simpl; congruence.
Qed.

Lemma ltb_total (x y : string) :
  String.ltb x y = false -> String.ltb y x = false -> x = y.
Proof.
  unfold String.ltb. rewrite (String.compare_antisym y x).
  destruct (String.compare x y) eqn:E; simpl; try discriminate.
  intros _ _. now apply String.compare_eq_iff.
Qed.

Lemma ltb_trans (x y z : string) :
  String.ltb x y = true -> String.ltb y z = true -> String.ltb x z = true.
Proof.
  unfold String.ltb.
  destruct (String.compare x y) eqn:E1; try discriminate.
  destruct (String.compare y z) eqn:E2; try discriminate.
  now rewrite (string_compare_lt_trans x y z).
Qed.

(** [x <= z < y] gives [x < y]. *)
Lemma ltb_le_lt (x y z : string) :
  String.ltb z x = false -> String.ltb z y = true -> String.ltb x y = true.
Proof.
  intros Hzx Hzy.
  destruct (String.ltb x z) eqn:Hxz; [now apply (ltb_trans x z y)|].
  now rewrite (ltb_total x z).
Qed.

Lemma string_insert_pair (x y : string) :
  string_insert x [y] = string_insert y [x].
Proof.
  cbn [string_insert].
  destruct (String.ltb y x) eqn:E1, (String.ltb x y) eqn:E2; try reflexivity.
  - apply ltb_asym in E1. congruence.
  - now rewrite (ltb_total x y).
Qed.

Lemma string_insert_comm (x y : string) (sorted : list string) :
  string_insert x (string_insert y sorted) = string_insert y (string_insert x sorted).
Proof.
  induction sorted as [|z tl IH]; [apply string_insert_pair|].
  cbn [string_insert].
  destruct (String.ltb z y) eqn:Ezy, (String.ltb z x) eqn:Ezx; cbn [string_insert].
  - rewrite Ezy, Ezx. now rewrite IH.
  - rewrite Ezx, (ltb_le_lt x y z Ezx Ezy), Ezy. reflexivity.
  - rewrite Ezy, (ltb_le_lt y x z Ezy Ezx), Ezx. reflexivity.
  - destruct (String.ltb y x) eqn:E1, (String.ltb x y) eqn:E2;
      cbn [string_insert]; rewrite ?Ezx, ?Ezy; try reflexivity.
    + apply ltb_asym in E1. congruence.
    + now rewrite (ltb_total x y).
Qed.

Lemma sort_strings_permutation (xs ys : list string) :
  Permutation xs ys -> sort_strings xs = sort_strings ys.
Proof.
  unfold sort_strings.
  induction 1 as [|x xs ys _ IH|x y xs|xs ys zs _ IH1 _ IH2]; cbn [fold_right].
  - reflexivity.
  - now rewrite IH.
  - apply string_insert_comm.
  - now rewrite IH1.
Qed.

(** X22: the key of a pair of labels in the table of combinations does
    not depend on the order of the two labels. *)
Theorem combination_key_symmetric (a b : string) :
  combination_key a b = combination_key b a.
Proof.
  unfold combination_key. f_equal.
  apply sort_strings_permutation. apply perm_swap.
Qed.

(** X23: the layout fingerprint does not depend on the order in which
    the boxes are listed. *)
Theorem layout_fingerprint_unordered (elements1 elements2 : list BoundingBox) :
  Permutation elements1 elements2 ->
  createLayoutFingerprint elements1 = createLayoutFingerprint elements2.
Proof.
  intros H. unfold createLayoutFingerprint. f_equal.
  apply sort_strings_permutation. now apply Permutation_map.
Qed.

Lemma layout_fingerprint_unordered_witness :
  let box1 := {| box_left := 10; box_top := 20; box_width := 30; box_height := 40 |} in
  let box2 := {| box_left := 5; box_top := 60; box_width := 70; box_height := 80 |} in
  Permutation [box1; box2] [box2; box1] /\
  createLayoutFingerprint [box1; box2] = createLayoutFingerprint [box2; box1].
Proof.
  cbv zeta. split; [apply perm_swap|].
  apply layout_fingerprint_unordered. apply perm_swap.
Defined.

(** ** Set and layout similarities *)

Section Jaccard.

Context {K : Type} `{Countable K}.

(** The Jaccard coefficient of two sets, one of them not empty. *)
Lemma jaccard_in_unit (a b : gset K) :
  size a <> 0%nat -> in_unit (of_nat (size (a ∩ b)) / of_nat (size (a ∪ b))).
Proof.
  intros Ha.
  assert (Hsub : (size (a ∩ b) <= size (a ∪ b))%nat).
  { apply subseteq_size. transitivity a;
      [apply intersection_subseteq_l | apply union_subseteq_l]. }
  assert (Hun : (size a <= size (a ∪ b))%nat)
    by (apply subseteq_size, union_subseteq_l).
  unfold of_nat at 1, of_Z. rewrite div_of_nat by lia.
  unfold in_unit, between.
  assert (Hpos : 0 < inject_Z (Z.of_nat (size (a ∪ b)))) by (apply of_nat_pos; lia).
  assert (H0 : 0 <= inject_Z (Z.of_nat (size (a ∩ b)))).
  { change 0 with (inject_Z 0). rewrite <- Zle_Qle. lia. }
  assert (H1 : inject_Z (Z.of_nat (size (a ∩ b))) <= inject_Z (Z.of_nat (size (a ∪ b))))
    by (rewrite <- Zle_Qle; lia).
  split; [apply Qle_shift_div_l | apply Qle_shift_div_r]; lra.
Qed.

Lemma jaccard_self (a : gset K) :
  size a <> 0%nat -> of_nat (size (a ∩ a)) / of_nat (size (a ∪ a)) =n= 1.
Proof.
  intros Ha.
  assert (E1 : a ∩ a = a)
    by (apply set_eq; intros x; rewrite elem_of_intersection; tauto).
  assert (E2 : a ∪ a = a)
    by (apply set_eq; intros x; rewrite elem_of_union; tauto).
  rewrite E1, E2. now apply of_nat_ratio_one.
Qed.

Lemma jaccard_symmetric (a b : gset K) :
  of_nat (size (a ∩ b)) / of_nat (size (a ∪ b)) =
  of_nat (size (b ∩ a)) / of_nat (size (b ∪ a)).
Proof.
  assert (E1 : a ∩ b = b ∩ a)
    by (apply set_eq; intros x; rewrite !elem_of_intersection; tauto).
  assert (E2 : a ∪ b = b ∪ a)
    by (apply set_eq; intros x; rewrite !elem_of_union; tauto).
  now rewrite E1, E2.
Qed.

End Jaccard.

Lemma zero_in_unit : in_unit 0.
Proof. unfold in_unit, between. lra. Qed.

Lemma web_entity_similarity_in_unit (photo1 photo2 : EnhancedPhoto) :
  in_unit (calculateWebEntitySimilarity photo1 photo2).
Proof.
  unfold calculateWebEntitySimilarity. cbv zeta.
  set (entities1 := or_nil (webEntities (webDetection (analysis photo1)))).
  set (entities2 := or_nil (webEntities (webDetection (analysis photo2)))).
  destruct ((length entities1 =? 0)%nat || (length entities2 =? 0)%nat);
    [apply zero_in_unit|].
  destruct (size (entity_ids entities1) =? 0)%nat eqn:E1; [apply zero_in_unit|].
  destruct (size (entity_ids entities2) =? 0)%nat; [apply zero_in_unit|].
  apply jaccard_in_unit. now apply Nat.eqb_neq.
Qed.

Lemma label_similarity_in_unit (photo1 photo2 : EnhancedPhoto) :
  in_unit (calculateLabelSimilarity photo1 photo2).
Proof.
  unfold calculateLabelSimilarity. cbv zeta.
  set (labels1 := list_to_set (map description (labels (analysis photo1))) : gset string).
  set (labels2 := list_to_set (map description (labels (analysis photo2))) : gset string).
  destruct (size labels1 =? 0)%nat eqn:E1; [apply zero_in_unit|].
  destruct (size labels2 =? 0)%nat; [apply zero_in_unit|].
  apply jaccard_in_unit. now apply Nat.eqb_neq.
Qed.

(** The ids of entities none of which has the field. *)
Lemma entity_ids_absent (entities : list WebEntity) :
  Forall (fun e => entityId e = None) entities -> entity_ids entities = ∅.
Proof.
  intros H. unfold entity_ids.
  induction H as [|e es He _ IH]; [reflexivity|].
  cbn [omap list_omap]. now rewrite He.
Qed.

(** The ids of entities one of which has the field. *)
Lemma entity_ids_present (entities : list WebEntity) :
  Exists (fun e => entityId e <> None) entities -> size (entity_ids entities) <> 0%nat.
Proof.
  intros H Hsize. apply size_empty_inv in Hsize.
  apply Exists_exists in H. destruct H as (e & Hin & He).
  destruct (entityId e) as [k|] eqn:Ek; [|contradiction].
  apply (not_elem_of_empty (C := gset (option string)) k).
  rewrite <- Hsize. unfold entity_ids.
  apply elem_of_list_to_set, list_elem_of_omap.
  exists e. split; [first [exact Hin | now apply list_elem_of_In] | exact Ek].
Qed.

(** The ids of entities that all hold [null]. *)
Lemma entity_ids_null (entities : list WebEntity) :
  entities <> [] -> Forall (fun e => entityId e = Some None) entities ->
  entity_ids entities = {[None]}.
Proof.
  intros Hne H. apply set_eq. intros k.
  unfold entity_ids. rewrite elem_of_list_to_set, list_elem_of_omap, elem_of_singleton.
  rewrite List.Forall_forall in H. split.
  - intros (e & Hin & He). apply list_elem_of_In in Hin.
    rewrite (H e Hin) in He. now injection He.
  - intros ->. destruct entities as [|e es]; [contradiction|].
    exists e. split; [apply list_elem_of_here | apply H; now left].
Qed.

(** X24: the web-entity similarity is symmetric and lies in the unit
    interval.  A photo none of whose entities has an [entityId] has
    similarity 0 to every photo, and a photo with an entity that has one
    has similarity 1 to itself.  An [entityId] that is [null] counts as an
    id: two photos whose entities all hold [null] have similarity 1. *)
Theorem web_entity_similarity_jaccard (photo1 photo2 : EnhancedPhoto) :
  let entities1 := or_nil (webEntities (webDetection (analysis photo1))) in
  let entities2 := or_nil (webEntities (webDetection (analysis photo2))) in
  calculateWebEntitySimilarity photo1 photo2 = calculateWebEntitySimilarity photo2 photo1 /\
  in_unit (calculateWebEntitySimilarity photo1 photo2) /\
  (Forall (fun e => entityId e = None) entities1 ->
   calculateWebEntitySimilarity photo1 photo2 = 0) /\
  (Exists (fun e => entityId e <> None) entities1 ->
   calculateWebEntitySimilarity photo1 photo1 =n= 1) /\
  (entities1 <> [] -> entities2 <> [] ->
   Forall (fun e => entityId e = Some None) entities1 ->
   Forall (fun e => entityId e = Some None) entities2 ->
   calculateWebEntitySimilarity photo1 photo2 =n= 1).
Proof.
  intros entities1 entities2.
  unfold calculateWebEntitySimilarity. cbv zeta.
  fold entities1. fold entities2.
  split; [|split; [|split; [|split]]].
  - rewrite (orb_comm (length entities1 =? 0)%nat).
    rewrite (orb_comm (size (entity_ids entities1) =? 0)%nat).
    now rewrite jaccard_symmetric.
  - apply web_entity_similarity_in_unit.
  - intros Habsent. rewrite (entity_ids_absent _ Habsent).
    destruct (_ || _); reflexivity.
  - intros Hpresent.
    pose proof (entity_ids_present _ Hpresent) as Hsize.
    assert (Hlen : (length entities1 =? 0)%nat = false).
    { destruct entities1; [now apply Exists_nil in Hpresent | reflexivity]. }
    rewrite Hlen, (proj2 (Nat.eqb_neq _ _) Hsize). cbn [orb].
    now apply jaccard_self.
  - intros Hne1 Hne2 Hnull1 Hnull2.
    rewrite (entity_ids_null _ Hne1 Hnull1), (entity_ids_null _ Hne2 Hnull2).
    assert (Hlen1 : (length entities1 =? 0)%nat = false) by (now destruct entities1).
    assert (Hlen2 : (length entities2 =? 0)%nat = false) by (now destruct entities2).
    rewrite Hlen1, Hlen2, size_singleton. cbn [orb Nat.eqb].
    apply jaccard_self. now rewrite size_singleton.
Qed.

(** The beach photo has one web entity, with an id. *)
Lemma web_entity_similarity_jaccard_witness :
  Exists (fun e => entityId e <> None)
         (or_nil (webEntities (webDetection (analysis beach_photo)))) /\
  calculateWebEntitySimilarity beach_photo beach_photo =n= 1.
Proof.
  assert (H : Exists (fun e => entityId e <> None)
                     (or_nil (webEntities (webDetection (analysis beach_photo)))))
    by (apply Exists_cons_hd; discriminate).
  split; [exact H|].
  destruct (web_entity_similarity_jaccard beach_photo beach_photo)
    as (_ & _ & _ & Hself & _).
  exact (Hself H).
Defined.

(** X25: the label similarity is symmetric and lies in the unit
    interval; a photo with a label has similarity 1 to itself, and a
    photo without labels has similarity 0 to every photo. *)
Theorem label_similarity_jaccard (photo1 photo2 : EnhancedPhoto) :
  calculateLabelSimilarity photo1 photo2 = calculateLabelSimilarity photo2 photo1 /\
  in_unit (calculateLabelSimilarity photo1 photo2) /\
  match labels (analysis photo1) with
  | [] => calculateLabelSimilarity photo1 photo2 = 0
  | _ :: _ => calculateLabelSimilarity photo1 photo1 =n= 1
  end.
Proof.
  unfold calculateLabelSimilarity. cbv zeta.
  set (labels1 := list_to_set (map description (labels (analysis photo1))) : gset string).
  set (labels2 := list_to_set (map description (labels (analysis photo2))) : gset string).
  split; [|split].
  - rewrite (orb_comm (size labels1 =? 0)%nat). now rewrite jaccard_symmetric.
  - apply label_similarity_in_unit.
  - unfold labels1. destruct (labels (analysis photo1)) as [|label rest]; [reflexivity|].
    cbn [map list_to_set].
    assert (Hne : size ({[description label]} ∪ list_to_set (map description rest)
                        : gset string) <> 0%nat).
    { intros H. apply size_empty_inv in H.
      apply (not_elem_of_empty (C := gset string) (description label)).
      rewrite <- H. apply elem_of_union_l, elem_of_singleton. reflexivity. }
    rewrite (proj2 (Nat.eqb_neq _ _) Hne). cbn [orb].
    now apply jaccard_self.
Qed.

Lemma layout_similarity_bound (layout1 layout2 : string) :
  in_unit (calculateLayoutSimilarity layout1 layout2).
Proof.
  unfold calculateLayoutSimilarity. cbv zeta.
  pose proof (split_not_nil "|" layout1) as H1.
  pose proof (split_not_nil "|" layout2) as H2.
  set (elements1 := split "|" layout1) in *.
  set (elements2 := split "|" layout2) in *.
  destruct elements1 as [|e1 tl1] eqn:E1; [contradiction|].
  destruct elements2 as [|e2 tl2] eqn:E2; [contradiction|].
  rewrite <- E1, <- E2. cbn [length Nat.eqb orb].
  replace (length elements1 =? 0)%nat with false by (now rewrite E1).
  replace (length elements2 =? 0)%nat with false by (now rewrite E2).
  cbn [orb]. unfold of_nat, of_Z.
  destruct (Math_max_fin (inject_Z (Z.of_nat (length elements1)))
                         (inject_Z (Z.of_nat (length elements2))))
    as (m & -> & Hm1 & Hm2 & _).
  assert (Hlen : (length (List.filter (fun element => array_includes elements2 element)
                                      elements1) <= length elements1)%nat)
    by apply List.filter_length_le.
  assert (Hpos : 0 < inject_Z (Z.of_nat (length elements1))).
  { apply of_nat_pos. rewrite E1. discriminate. }
  set (k := length (List.filter _ elements1)) in *.
  assert (H0 : 0 <= inject_Z (Z.of_nat k)).
  { change 0 with (inject_Z 0). rewrite <- Zle_Qle. lia. }
  assert (Hk : inject_Z (Z.of_nat k) <= inject_Z (Z.of_nat (length elements1)))
    by (rewrite <- Zle_Qle; lia).
  rewrite div_fin by lra. unfold in_unit, between.
  split; [apply Qle_shift_div_l | apply Qle_shift_div_r]; lra.
Qed.

(** X26: the layout similarity lies in the unit interval for every pair
    of fingerprints; it is not symmetric: a box that is listed twice
    on one side counts twice there. *)
Theorem layout_similarity_in_unit (layout1 layout2 : string) :
  in_unit (calculateLayoutSimilarity layout1 layout2) /\
  calculateLayoutSimilarity "1,1,1,1|1,1,1,1" "1,1,1,1|2,2,2,2" =n= 1 /\
  calculateLayoutSimilarity "1,1,1,1|2,2,2,2" "1,1,1,1|1,1,1,1" =n= 0.5.
Proof.
  split; [apply layout_similarity_bound|].
  split; vm_compute; reflexivity.
Qed.

(** ** Preferred types *)

Lemma lower_ascii_idempotent (a : ascii) : lower_ascii (lower_ascii a) = lower_ascii a.
Proof. destruct a as [[] [] [] [] [] [] [] []]; reflexivity. Qed.

Lemma toLowerCase_idempotent (s : string) : toLowerCase (toLowerCase s) = toLowerCase s.
Proof.
  induction s as [|a s IH]; cbn [toLowerCase]; [reflexivity|].
  now rewrite lower_ascii_idempotent, IH.
Qed.

Lemma existsb_map {A B} (f : B -> bool) (g : A -> B) (xs : list A) :
  existsb f (map g xs) = existsb (fun x => f (g x)) xs.
Proof. induction xs as [|x xs IH]; simpl; [reflexivity | now rewrite IH]. Qed.

Lemma existsb_pointwise {A} (f g : A -> bool) (xs : list A) :
  (forall x, f x = g x) -> existsb f xs = existsb g xs.
Proof. intros H. induction xs as [|x xs IH]; simpl; [reflexivity | now rewrite H, IH]. Qed.

Lemma filter_pointwise {A} (f g : A -> bool) (xs : list A) :
  (forall x, f x = g x) -> List.filter f xs = List.filter g xs.
Proof. intros H. induction xs as [|x xs IH]; simpl; [reflexivity | now rewrite H, IH]. Qed.

(** X27: for labels and preferred types in ASCII, the relevance score
    reads the preferred types without regard to their case: lower-casing
    them leaves the score as it is. *)
Theorem relevance_ignores_type_case (p : EnhancedPhoto) (preferredTypes : list string) :
  Forall (fun label => ascii_text (description label)) (labels (analysis p)) ->
  Forall ascii_text preferredTypes ->
  calculateRelevanceScore p (map toLowerCase preferredTypes) =
  calculateRelevanceScore p preferredTypes.
Proof.
  intros _ _.
  unfold calculateRelevanceScore. rewrite length_map.
  destruct (length preferredTypes =? 0)%nat; [reflexivity|]. cbv zeta.
  rewrite (filter_pointwise
             (fun label =>
                existsb (fun type => includes (toLowerCase (description label))
                                              (toLowerCase type))
                        (map toLowerCase preferredTypes))
             (fun label =>
                existsb (fun type => includes (toLowerCase (description label))
                                              (toLowerCase type))
                        preferredTypes)); [reflexivity|].
  intros label. rewrite existsb_map. apply existsb_pointwise.
  intros type. now rewrite toLowerCase_idempotent.
Qed.

(** The beach photo, asked for ["BEACH"] and for ["beach"]. *)
Lemma relevance_ignores_type_case_witness :
  Forall (fun label => ascii_text (description label)) (labels (analysis beach_photo)) /\
  Forall ascii_text ["BEACH"%string] /\
  calculateRelevanceScore beach_photo ["beach"%string] =
  calculateRelevanceScore beach_photo ["BEACH"%string] /\
  calculateRelevanceScore beach_photo ["BEACH"%string] =n= 0.8.
Proof.
  assert (Hl : Forall (fun label => ascii_text (description label))
                      (labels (analysis beach_photo))) by (repeat constructor).
  assert (Ht : Forall ascii_text ["BEACH"%string]) by (repeat constructor).
  split; [exact Hl|]. split; [exact Ht|].
  split; [exact (relevance_ignores_type_case beach_photo ["BEACH"%string] Hl Ht)|].
  vm_compute. reflexivity.
Defined.

(** ** What similar photos share *)

Lemma color_similarity_at_most_one (cs1 cs2 : list Color) :
  Forall valid_color cs1 -> Forall valid_color cs2 ->
  fraction_total cs1 <= 1 -> fraction_total cs2 <= 1 ->
  exists c, calculateColorSimilarity cs1 cs2 = Fin c /\ c <= 1.
Proof.
  intros H1 H2 Hf1 Hf2. unfold calculateColorSimilarity.
  destruct ((length cs1 =? 0)%nat || (length cs2 =? 0)%nat) eqn:Eempty.
  { exists 0. split; [reflexivity | lra]. }
  apply orb_false_iff in Eempty. destruct Eempty as [E1 E2].
  apply Nat.eqb_neq in E1, E2. cbv zeta.
  destruct (color_table_bound cs1 cs2 0 0 H1 H2) as (t & -> & Hb).
  cbn [Nat.add].
  assert (Hnn : (length cs1 * length cs2)%nat <> 0%nat) by nia.
  replace (0 <? length cs1 * length cs2)%nat with true
    by (symmetry; apply Nat.ltb_lt; lia).
  unfold of_nat, of_Z.
  assert (Hp : 1 <= inject_Z (Z.of_nat (length cs1 * length cs2))).
  { change 1 with (inject_Z 1). rewrite <- Zle_Qle. lia. }
  rewrite div_fin by lra.
  eexists. split; [reflexivity|].
  pose proof (fraction_total_nonneg cs1 H1). pose proof (fraction_total_nonneg cs2 H2).
  apply Qle_shift_div_r; [lra|]. nra.
Qed.

Lemma visual_similarity_at_most_one (photo1 photo2 : EnhancedPhoto) :
  valid_palette photo1 -> valid_palette photo2 ->
  exists v, calculateVisualFeatureSimilarity photo1 photo2 = Fin v /\ v <= 1.
Proof.
  intros [H1 Hf1] [H2 Hf2]. unfold calculateVisualFeatureSimilarity. cbv zeta.
  destruct (color_similarity_at_most_one _ _ H1 H2 Hf1 Hf2) as (c & -> & Hc).
  destruct (between_fin _ _ _ (layout_similarity_bound
                                 (createLayoutFingerprint (getVisualElements photo1))
                                 (createLayoutFingerprint (getVisualElements photo2))))
    as (l & -> & Hl).
  cbn [JS.mul JS.add]. eexists. split; [reflexivity | lra].
Qed.

Lemma time_difference_within (t1 t2 limit : Z) :
  (Math_abs (of_Z t1 - of_Z t2) >? of_Z limit) = false ->
  (Z.abs (t1 - t2) <= limit)%Z.
Proof.
  unfold of_Z. cbn [JS.sub JS.neg JS.add Math_abs JS.gt JS.lt].
  rewrite negb_false_iff, Qle_bool_iff, Qabs_Qle_condition.
  rewrite <- !inject_Z_opp, <- inject_Z_plus, <- !Zle_Qle. lia.
Qed.

(** A photo with an invalid date passes the time test against every
    photo: the difference of the times is NaN, which is not above the
    threshold. *)
Lemma invalid_date_passes_time_test (date : Date) :
  (Math_abs (getTime InvalidDate - getTime date) >? of_Z (5 * 60 * 1000)) = false /\
  (Math_abs (getTime date - getTime InvalidDate) >? of_Z (5 * 60 * 1000)) = false.
Proof. destruct date; split; reflexivity. Qed.

Section Similar.

Variable calculateDistance : Location -> Location -> num.

(** X28: two photos that [checkPhotoSimilarity] finds similar share more
    than half of their labels and more than a third of their web-entity
    ids, and were taken within five minutes of each other when both have a
    valid date (photos with valid colours). *)
Theorem similar_photos_share_content (photo1 photo2 : EnhancedPhoto) :
  valid_palette photo1 -> valid_palette photo2 ->
  checkPhotoSimilarity calculateDistance photo1 photo2 = true ->
  (forall t1 t2 : Z,
      dateTime (photo photo1) = Time t1 -> dateTime (photo photo2) = Time t2 ->
      (Z.abs (t1 - t2) <= 5 * 60 * 1000)%Z) /\
  (calculateLabelSimilarity photo1 photo2 >? 0.5) = true /\
  (calculateWebEntitySimilarity photo1 photo2 >? Fin (1 # 3)) = true.
Proof.
  intros Hp1 Hp2. unfold checkPhotoSimilarity. cbv zeta.
  destruct (_ >? of_Z (5 * 60 * 1000)) eqn:Etime; [discriminate|].
  match goal with |- (if ?far then _ else _) = true -> _ => destruct far end;
    [discriminate|].
  destruct (between_fin _ _ _ (label_similarity_in_unit photo1 photo2)) as (l & -> & Hl).
  destruct (between_fin _ _ _ (web_entity_similarity_in_unit photo1 photo2))
    as (w & -> & Hw).
  destruct (visual_similarity_at_most_one photo1 photo2 Hp1 Hp2) as (v & -> & Hv).
  cbn [JS.mul JS.add JS.gt JS.lt]. rewrite !negb_true_iff. intros Htotal.
  assert (Hsum : 0.8 < l * 0.4 + w * 0.3 + v * 0.3).
  { destruct (Qlt_le_dec 0.8 (l * 0.4 + w * 0.3 + v * 0.3)) as [H | H]; [exact H|].
    apply Qle_bool_iff in H. congruence. }
  split.
  { intros t1 t2 E1 E2. rewrite E1, E2 in Etime. cbn [getTime] in Etime.
    now apply time_difference_within. }
  split.
  - destruct (Qle_bool l 0.5) eqn:E; [|reflexivity].
    apply Qle_bool_iff in E. lra.
  - destruct (Qle_bool w (1 # 3)) eqn:E; [|reflexivity].
    apply Qle_bool_iff in E. lra.
Qed.

End Similar.

Lemma similar_photos_share_content_witness :
  valid_palette beach_photo /\ valid_palette second_beach_photo /\
  checkPhotoSimilarity (fun _ _ => 0) beach_photo second_beach_photo = true /\
  (Z.abs (110 - 150) <= 5 * 60 * 1000)%Z /\
  (calculateLabelSimilarity beach_photo second_beach_photo >? 0.5) = true.
Proof.
  assert (HA : valid_palette beach_photo)
    by (split; [constructor | unfold Qle; simpl; lia]).
  assert (HB : valid_palette second_beach_photo)
    by (split; [constructor | unfold Qle; simpl; lia]).
  assert (Hsim : checkPhotoSimilarity (fun _ _ => 0) beach_photo second_beach_photo = true)
    by (vm_compute; reflexivity).
  split; [exact HA|]. split; [exact HB|]. split; [exact Hsim|].
  destruct (similar_photos_share_content (fun _ _ => 0) beach_photo second_beach_photo
              HA HB Hsim) as (Htime & Hlabels & _).
  split; [exact (Htime 110%Z 150%Z eq_refl eq_refl) | exact Hlabels].
Defined.

(** ** From a response to a photo of the pool *)

Section Pipeline.

Variable annotateImage : Photo -> Thrown + option AnnotateImageResponse.

(** X29: a valid response with bounding polygons of coordinates of at
    most 2^53 in magnitude and dominant colours in the ranges of the
    service, none or two at least, gives a photo whose analysis is valid
    and whose four quality metrics lie in the unit interval; the photo has
    no scores yet. *)
Theorem analyzePhoto_valid (p : Photo) (result : AnnotateImageResponse)
    (cs : list ColorInfo) :
  annotateImage p = inr (Some result) ->
  valid_response result ->
  ranged_subjects result ->
  response_colors result = Some cs -> length cs <> 1%nat -> Forall ranged_color_info cs ->
  exists enhancedPhoto,
    analyzePhoto annotateImage p = inr enhancedPhoto /\
    photo enhancedPhoto = p /\
    scores enhancedPhoto = None /\
    valid_analysis (analysis enhancedPhoto) /\
    valid_quality (quality (analysis enhancedPhoto)).
Proof.
  intros Hcall Hvalid Hsubjects Hcolors Hlen Hcs.
  apply ranged_subjects_finite in Hsubjects.
  apply (List.Forall_impl _ ranged_color_info_valid) in Hcs.
  unfold analyzePhoto. rewrite Hcall.
  eexists. split; [reflexivity|]. cbn [photo scores analysis].
  split; [reflexivity|]. split; [reflexivity|].
  split; [now apply analysis_of_valid|].
  assert (Hdata : valid_color_data result)
    by (unfold valid_color_data; now rewrite Hcolors).
  assert (Hfinite : finite_color_data result).
  { unfold finite_color_data. rewrite Hcolors. cbn [or_nil].
    revert Hcs. apply List.Forall_impl, valid_color_info_finite. }
  unfold valid_quality.
  cbn [analysis_of quality blurScore exposureScore noiseScore compositionScore].
  split; [|split; [|split]].
  - apply (blur_blend_in_unit result cs Hcolors).
    apply edge_strength_in_unit; [exact Hlen|].
    revert Hcs. apply List.Forall_impl, valid_color_info_finite.
  - apply (exposure_bound result Hdata).
  - apply (noise_bound result Hfinite).
  - rewrite composition_weighted.
    destruct (weighted_composition_bound
                (evaluateRuleOfThirds result) (evaluateSubjectProminence result)
                (evaluateVisualBalance result))
      as [(-> & -> & ->) | H].
    + apply optional_unit_of, rule_of_thirds_in_unit, Hsubjects.
    + apply optional_unit_of, subject_prominence_in_unit, Hsubjects.
    + apply visual_balance_optional_unit, Hfinite.
    + unfold in_unit, between. cbn. lra.
    + apply (between_weaken 0 0.4); [exact H | lra | lra].
Qed.

End Pipeline.

Lemma analyzePhoto_valid_witness :
  let service := fun _ : Photo => inr (Some portrait) : Thrown + option AnnotateImageResponse in
  exists enhancedPhoto,
    analyzePhoto service (photo_at "P" 0) = inr enhancedPhoto /\
    photo enhancedPhoto = photo_at "P" 0 /\
    scores enhancedPhoto = None /\
    valid_analysis (analysis enhancedPhoto) /\
    valid_quality (quality (analysis enhancedPhoto)).
Proof.
  cbv zeta.
  apply (analyzePhoto_valid (fun _ => inr (Some portrait)) (photo_at "P" 0) portrait
           [grey; grey]).
  - reflexivity.
  - constructor; cbn; repeat constructor; unfold optional_unit, in_unit, between; cbn; lra.
  - repeat constructor.
  - reflexivity.
  - discriminate.
  - repeat constructor; exists 128, 128, 128, 1; repeat split; lra.
Defined.

(** ** The driver script *)

(** The times of photos with valid dates. *)
Lemma dated_times (photos : list Photo) :
  Forall (fun p => exists t : Z, dateTime p = Time t /\ (Z.abs t <= maxTime)%Z) photos ->
  exists ts : list Z,
    map (fun p => getTime (dateTime p)) photos = map Fin (map inject_Z ts) /\
    Forall (fun t => (Z.abs t <= maxTime)%Z) ts /\
    (forall p, In p photos -> exists t, dateTime p = Time t /\ In t ts).
Proof.
  induction 1 as [|p photos (t & Ht & Hb) _ (ts & Hts & Hbs & Hin)].
  - exists []. repeat split; [constructor | intros p []].
  - exists (t :: ts). cbn [map]. rewrite Ht, Hts. cbn [getTime].
    split; [reflexivity|]. split; [now constructor|].
    intros q [<- | Hq].
    + exists t. split; [assumption | now left].
    + destruct (Hin q Hq) as (t' & Ht' & Hin'). exists t'. split; [assumption | now right].
Qed.

(** For a batch of photos with valid dates, one at least, the range of
    the script runs from the earliest time to the latest. *)
Lemma script_range_holds (photos : list Photo) :
  photos <> [] ->
  Forall (fun p => exists t : Z, dateTime p = Time t /\ (Z.abs t <= maxTime)%Z) photos ->
  exists a b : Z,
    timeRange (script_options photos) = {| range_start := a; range_end := b |} /\
    forall p, In p photos -> exists t : Z, dateTime p = Time t /\ (a <= t <= b)%Z.
Proof.
  intros Hne Hvalid.
  destruct (dated_times photos Hvalid) as (ts & Hts & Hbs & Hin).
  destruct ts as [|t0 ts].
  { destruct photos as [|p photos]; [contradiction | discriminate Hts]. }
  cbn [script_options timeRange]. rewrite Hts.
  change (map inject_Z (t0 :: ts)) with (inject_Z t0 :: map inject_Z ts).
  destruct (Math_min_list_finite (inject_Z t0) (map inject_Z ts)) as (lo & -> & Hlo & Hlo').
  destruct (Math_max_list_finite (inject_Z t0) (map inject_Z ts)) as (hi & -> & Hhi & Hhi').
  change (inject_Z t0 :: map inject_Z ts) with (map inject_Z (t0 :: ts)) in *.
  apply in_map_iff in Hlo'. destruct Hlo' as (a & <- & Ha).
  apply in_map_iff in Hhi'. destruct Hhi' as (b & <- & Hb).
  rewrite List.Forall_forall in Hbs.
  change (Fin (inject_Z a)) with (of_Z a). change (Fin (inject_Z b)) with (of_Z b).
  rewrite !new_Date_time by now apply Hbs.
  exists a, b. split; [reflexivity|].
  intros p Hp. destruct (Hin p Hp) as (t & Ht & Hmem).
  exists t. split; [assumption|].
  rewrite List.Forall_forall in Hlo, Hhi.
  pose proof (Hlo _ (in_map inject_Z _ _ Hmem)) as H1.
  pose proof (Hhi _ (in_map inject_Z _ _ Hmem)) as H2.
  rewrite <- Zle_Qle in H1, H2. lia.
Qed.

Lemma analysed_from_batch
    (annotateImage : Photo -> Thrown + option AnnotateImageResponse) (ps : list Photo) :
  Forall (fun enhancedPhoto => In (photo enhancedPhoto) ps) (analysed annotateImage ps).
Proof.
  induction ps as [|p ps IH]; cbn [analysed]; [constructor|].
  assert (Hrest : Forall (fun enhancedPhoto => In (photo enhancedPhoto) (p :: ps))
                         (analysed annotateImage ps)).
  { revert IH. apply List.Forall_impl. intros e He. now right. }
  unfold analyzePhoto.
  destruct (annotateImage p) as [thrown | [result|]]; try exact Hrest.
  constructor; [now left | exact Hrest].
Qed.

Section Script.

Variable annotateImage : Photo -> Thrown + option AnnotateImageResponse.
Variable calculateDistance : Location -> Location -> num.

(** X30: for a batch of photos with valid dates, not all taken at one
    instant, the script returns, once the loop over its time range has
    ended, at most ten highlights, each of quality 0.6 or more and taken
    inside the range that the script spans from its earliest photo to its
    latest, with a temporal score from 0.5 to 1. *)
Theorem script_highlights_placed (fuel : nat) (batch : list Photo)
    (timeBuckets : list TimeBucket) :
  Forall (fun p => exists t : Z, dateTime p = Time t /\ (Z.abs t <= maxTime)%Z) batch ->
  (exists p q, In p batch /\ In q batch /\ dateTime p <> dateTime q) ->
  createTimeBuckets fuel (timeRange (script_options batch)) = Returns timeBuckets ->
  exists highlights,
    selectHighlightsFromPhotos annotateImage calculateDistance fuel batch
    = Returns highlights /\
    (length highlights <= 10)%nat /\
    Forall (fun highlight => (quality_or_0 highlight >=? 0.6) = true) highlights /\
    Forall (placed_in (timeRange (script_options batch))) highlights.
Proof.
  intros Hvalid (p1 & p2 & Hp1 & Hp2 & Hdiffer) Hloop.
  assert (Hne : batch <> []) by (intros ->; contradiction).
  destruct (script_range_holds batch Hne Hvalid) as (a & b & Hrange & Hin).
  assert (Hab : (a < b)%Z).
  { destruct (Hin p1 Hp1) as (t1 & E1 & B1). destruct (Hin p2 Hp2) as (t2 & E2 & B2).
    assert (t1 <> t2) by (intros ->; apply Hdiffer; congruence). lia. }
  unfold selectHighlightsFromPhotos, addPhotos. rewrite addPhotos_loop_outcomes.
  cbn [photos new_selector app labelFrequencies]. unfold selectHighlights.
  set (selector := {| photos := analysed annotateImage batch; labelFrequencies := _ |}).
  set (options := script_options batch) in *.
  set (groups := groupSimilarPhotos calculateDistance (scoredPhotos selector options)).
  destruct (diverse_highlights_kept calculateDistance
              (fun highlight => (quality_or_0 highlight >=? 0.6) = true /\
                                placed_in (timeRange options) highlight)
              groups (minQuality options)) with (fuel := fuel) (options := options)
                                               (timeBuckets := timeBuckets)
    as (highlights & Hrun & Hkept); [|reflexivity|assumption|].
  { pose proof (grouped_photos_from_input calculateDistance (scoredPhotos selector options))
      as Hfrom.
    revert Hfrom. apply List.Forall_impl. intros group.
    apply List.Forall_impl. intros scored Hscored Hquality.
    split; [exact Hquality|].
    apply scoredPhotos_scores in Hscored. destruct Hscored as (e & He & ->).
    cbn [photos selector] in He.
    pose proof (analysed_from_batch annotateImage batch) as Hbatch.
    rewrite List.Forall_forall in Hbatch.
    destruct (Hin (photo e) (Hbatch e He)) as (t & Ht & Hbounds).
    assert (Hwithin : within_range (dateTime (photo e)) (timeRange options)).
    { exists t, a, b. rewrite Hrange. repeat split; try assumption; lia. }
    split; [exact Hwithin|]. cbn [scores photo].
    eexists. split; [reflexivity|].
    cbn [score_temporal score_photo]. now apply temporal_within_range. }
  exists highlights. split; [exact Hrun|].
  destruct (selectDiverseHighlights_returns calculateDistance fuel groups options
              timeBuckets Hloop) as (selected & Hshape).
  rewrite Hrun in Hshape. injection Hshape as ->.
  split.
  { assert (E : Z.to_nat (truncate 10) = 10%nat) by reflexivity.
    rewrite length_firstn, E. lia. }
  split; revert Hkept; apply List.Forall_impl; tauto.
Qed.

End Script.

Lemma script_highlights_placed_witness :
  let photos := [photo_at "A" 110; photo_at "B" 150] in
  createTimeBuckets 10 (timeRange (script_options photos)) = Returns (tiles 10 110 4) /\
  exists highlights,
    selectHighlightsFromPhotos beach_service (fun _ _ => 0) 10 photos = Returns highlights /\
    Forall (placed_in (timeRange (script_options photos))) highlights.
Proof.
  cbv zeta.
  assert (Hloop : createTimeBuckets 10
                    (timeRange (script_options [photo_at "A" 110; photo_at "B" 150]))
                  = Returns (tiles 10 110 4)) by (vm_compute; reflexivity).
  split; [exact Hloop|].
  destruct (script_highlights_placed beach_service (fun _ _ => 0) 10
              [photo_at "A" 110; photo_at "B" 150] (tiles 10 110 4))
    as (highlights & Hrun & _ & _ & Hplaced).
  - repeat constructor; eexists; (split; [reflexivity | unfold maxTime; lia]).
  - exists (photo_at "A" 110), (photo_at "B" 150).
    split; [now left|]. split; [right; now left | discriminate].
  - exact Hloop.
  - exists highlights. split; assumption.
Defined.

(** ** The selection pass in memory *)

Lemma content_old (a b : list (list EnhancedPhoto)) (t : LabelFrequencies) (r : ref) :
  (r < length a)%nat ->
  content {| arrays := a ++ b; tables := t |} r = content {| arrays := a; tables := t |} r.
Proof. intros Hr. unfold content. cbn [arrays]. now rewrite lookup_app_l. Qed.

Lemma content_new (a b : list (list EnhancedPhoto)) (xs : list EnhancedPhoto)
    (t : LabelFrequencies) :
  content {| arrays := a ++ xs :: b; tables := t |} (length a) = xs.
Proof. unfold content. cbn [arrays]. now rewrite list_lookup_middle. Qed.

Lemma insert_new (a b : list (list EnhancedPhoto)) (xs ys : list EnhancedPhoto) :
  <[length a := ys]> (a ++ xs :: b) = a ++ ys :: b.
Proof.
  rewrite insert_app_r_alt by lia. now rewrite Nat.sub_diag.
Qed.

Lemma resolve_old (a b : list (list EnhancedPhoto)) (t : LabelFrequencies)
    (groups : list (string * ref)) :
  Forall (fun group => (snd group < length a)%nat) groups ->
  resolve {| arrays := a ++ b; tables := t |} groups =
  resolve {| arrays := a; tables := t |} groups.
Proof.
  intros H. induction H as [|[groupId photos] groups Hr H IH]; [reflexivity|].
  cbn [resolve map]. cbn [snd] in Hr. rewrite content_old by exact Hr.
  f_equal. exact IH.
Qed.

Lemma resolve_map_set (memory : Memory) (k : string) (r : ref) (groups : list (string * ref)) :
  resolve memory (map_set k r groups) = map_set k (content memory r) (resolve memory groups).
Proof.
  induction groups as [|[k' r'] groups IH]; [reflexivity|].
  cbn [map_set resolve map]. destruct (String.eqb k k'); [reflexivity|].
  cbn [map]. f_equal. exact IH.
Qed.

Lemma refs_older (a b : list (list EnhancedPhoto)) (groups : list (string * ref)) :
  Forall (fun group => (snd group < length a)%nat) groups ->
  Forall (fun group => (snd group < length (a ++ b))%nat) groups.
Proof.
  intros H. induction H as [|group groups Hr H IH]; constructor; [|exact IH].
  rewrite length_app. lia.
Qed.

Lemma bind_returns {A B} (c : Mem A) (k : A -> Mem B) (memory memory' : Memory) (a : A) :
  c memory = Returns (a, memory') -> (c ≫= k) memory = k a memory'.
Proof. intros H. unfold mbind, mem_bind. now rewrite H. Qed.

Lemma push_new (a junk : list (list EnhancedPhoto)) (xs : list EnhancedPhoto)
    (p : EnhancedPhoto) (t : LabelFrequencies) :
  push (length a) p {| arrays := a ++ xs :: junk; tables := t |} =
  Returns (tt, {| arrays := a ++ (xs ++ [p]) :: junk; tables := t |}).
Proof.
  unfold push, update. cbn [arrays tables]. now rewrite content_new, insert_new.
Qed.

Lemma new_array_last (a : list (list EnhancedPhoto)) (xs : list EnhancedPhoto)
    (t : LabelFrequencies) :
  new_array xs {| arrays := a; tables := t |} =
  Returns (length a, {| arrays := a ++ [xs]; tables := t |}).
Proof. reflexivity. Qed.

Lemma bind_outcome {A B} (c : Mem A) (k : A -> Mem B) (memory : Memory) :
  (c ≫= k) memory =
  match c memory with
  | Returns (a, memory') => k a memory'
  | Raises => Raises
  | OutOfFuel => OutOfFuel
  end.
Proof. reflexivity. Qed.

Lemma scored_groups_mem (refs : list ref) (memory : Memory) (scoredGroups : list (ref * num)) :
  forEach
    (fun scoredGroups photos =>
       members ← elements photos;
       mret (scoredGroups ++ [(photos, Math_max_list (map final_or_0 members))]))
    refs scoredGroups memory =
  Returns
    (scoredGroups ++
       map (fun photos => (photos, Math_max_list (map final_or_0 (content memory photos))))
           refs,
     memory).
Proof.
  revert scoredGroups. induction refs as [|r refs IH]; intros scoredGroups.
  - cbn. now rewrite app_nil_r.
  - cbn [forEach map]. erewrite bind_returns; [|reflexivity].
    rewrite IH. now rewrite <- app_assoc.
Qed.

(** Sorting the groups by their best scores does not look at the
    groups. *)
Lemma sort_insert_resolved {A B} (f : A -> B) (x : A * num) (xs : list (A * num)) :
  map (fun group => (f (fst group), snd group))
      (sort_insert (fun a b => snd b - snd a) x xs) =
  sort_insert (fun a b => snd b - snd a) (f (fst x), snd x)
              (map (fun group => (f (fst group), snd group)) xs).
Proof.
  induction xs as [|y xs IH]; [reflexivity|].
  cbn [sort_insert map snd]. destruct (snd y - snd x >? 0); cbn [map]; [|reflexivity].
  now rewrite IH.
Qed.

Lemma sort_by_resolved {A B} (f : A -> B) (xs : list (A * num)) :
  map (fun group => (f (fst group), snd group))
      (sort_by (fun a b => snd b - snd a) xs) =
  sort_by (fun a b => snd b - snd a) (map (fun group => (f (fst group), snd group)) xs).
Proof.
  induction xs as [|x xs IH]; [reflexivity|].
  unfold sort_by in *. cbn [fold_right map]. now rewrite sort_insert_resolved, IH.
Qed.

Lemma push_used_mem (chosen : list EnhancedPhoto) (a junk : list (list EnhancedPhoto))
    (t : LabelFrequencies) (selectedPhotos : list EnhancedPhoto) (usedGroups : gset string) :
  forEach
    (fun usedGroups p => push (length a) p;; mret (usedGroups ∪ {[id (photo p)]}))
    chosen usedGroups {| arrays := a ++ selectedPhotos :: junk; tables := t |} =
  Returns
    (snd (fold_left
            (fun '(selectedPhotos, usedGroups) p =>
               (selectedPhotos ++ [p], usedGroups ∪ {[id (photo p)]}))
            chosen (selectedPhotos, usedGroups)),
     {| arrays :=
          a ++ fst (fold_left
                      (fun '(selectedPhotos, usedGroups) p =>
                         (selectedPhotos ++ [p], usedGroups ∪ {[id (photo p)]}))
                      chosen (selectedPhotos, usedGroups)) :: junk;
        tables := t |}).
Proof.
  revert selectedPhotos usedGroups.
  induction chosen as [|p chosen IH]; intros selectedPhotos usedGroups; [reflexivity|].
  cbn [forEach fold_left]. erewrite bind_returns; [apply IH|].
  erewrite bind_returns by apply push_new. reflexivity.
Qed.

Lemma push_all_mem (xs : list EnhancedPhoto) (a junk : list (list EnhancedPhoto))
    (t : LabelFrequencies) (pushed : list EnhancedPhoto) :
  forEach (fun (_ : unit) p => push (length a) p) xs tt
          {| arrays := a ++ pushed :: junk; tables := t |} =
  Returns (tt, {| arrays := a ++ (pushed ++ xs) :: junk; tables := t |}).
Proof.
  revert pushed. induction xs as [|p xs IH]; intros pushed.
  - cbn. now rewrite app_nil_r.
  - cbn [forEach]. erewrite bind_returns by apply push_new.
    rewrite IH. now rewrite <- app_assoc.
Qed.

Lemma later_arrays {A} (a junk fresh : list A) (x : A) :
  (a ++ x :: junk) ++ fresh = a ++ x :: (junk ++ fresh).
Proof. now rewrite <- app_assoc. Qed.

(** The loop of [selectRemainingBestPhotos] pushes to [candidates], adds
    arrays, and touches no array that is older than [candidates]. *)
Lemma remaining_candidates_mem (groups : list (string * ref)) (usedGroups : gset string)
    (minQuality : num) (a junk : list (list EnhancedPhoto)) (t : LabelFrequencies)
    (candidates : list EnhancedPhoto) :
  Forall (fun group => (snd group < length a)%nat) groups ->
  exists junk',
    forEach
      (fun (_ : unit) '(groupId, photos) =>
         if negb (has usedGroups groupId)
         then
           members ← elements photos;
           fit ← new_array (List.filter (fun p => quality_or_0 p >=? minQuality) members);
           pushed ← elements fit;
           forEach (fun (_ : unit) p => push (length a) p) pushed tt
         else mret tt)
      groups tt {| arrays := a ++ candidates :: junk; tables := t |} =
    Returns
      (tt,
       {| arrays :=
            a ++ fold_left
                   (fun candidates '(groupId, photos) =>
                      if negb (has usedGroups groupId)
                      then candidates ++
                           List.filter (fun p => quality_or_0 p >=? minQuality) photos
                      else candidates)
                   (resolve {| arrays := a; tables := t |} groups) candidates :: junk';
          tables := t |}).
Proof.
  intros Hgroups. revert junk candidates.
  induction Hgroups as [|[groupId photos] groups Hphotos Hgroups IH]; intros junk candidates.
  - now exists junk.
  - cbn [snd] in Hphotos. cbn [forEach resolve map fold_left].
    destruct (negb (has usedGroups groupId)).
    + set (fit := List.filter (fun p => quality_or_0 p >=? minQuality)
                              (content {| arrays := a; tables := t |} photos)).
      destruct (IH (junk ++ [fit]) (candidates ++ fit)) as (junk' & Hrun).
      exists junk'. erewrite bind_returns; [exact Hrun|].
      erewrite bind_returns;
        [|unfold elements; rewrite content_old by exact Hphotos; reflexivity].
      erewrite bind_returns by apply new_array_last.
      erewrite bind_returns; [|unfold elements; rewrite content_new; reflexivity].
      fold fit. rewrite later_arrays. apply push_all_mem.
    + destruct (IH junk candidates) as (junk' & Hrun).
      exists junk'. erewrite bind_returns by reflexivity. exact Hrun.
Qed.

Lemma selectRemainingBestPhotos_mem_selections (groups : list (string * ref))
    (usedGroups : gset string) (count minQuality : num)
    (a : list (list EnhancedPhoto)) (t : LabelFrequencies) :
  Forall (fun group => (snd group < length a)%nat) groups ->
  exists fresh,
    selectRemainingBestPhotos_mem groups usedGroups count minQuality
      {| arrays := a; tables := t |} =
    Returns (length (a ++ fresh),
             {| arrays :=
                  (a ++ fresh) ++
                  [selectRemainingBestPhotos (resolve {| arrays := a; tables := t |} groups)
                     usedGroups count minQuality];
                tables := t |}).
Proof.
  intros Hgroups.
  destruct (remaining_candidates_mem groups usedGroups minQuality a [] t [] Hgroups)
    as (junk & Hrun).
  unfold selectRemainingBestPhotos_mem, selectRemainingBestPhotos.
  set (candidates := fold_left _ (resolve {| arrays := a; tables := t |} groups) []) in *.
  exists (sort_by (fun a b => final_or_0 b - final_or_0 a) candidates :: junk).
  erewrite bind_returns by apply new_array_last.
  erewrite bind_returns by exact Hrun.
  erewrite bind_returns.
  2:{ unfold sort_in_place, update. cbn [arrays tables].
      rewrite content_new, insert_new. reflexivity. }
  erewrite bind_returns; [|unfold elements; rewrite content_new; reflexivity].
  reflexivity.
Qed.

Section InMemoryFacts.

Variable calculateDistance : Location -> Location -> num.

(** The inner loop of the grouping pushes to the array of the anchor
    only. *)
Lemma group_members_mem (p : EnhancedPhoto) (others : list EnhancedPhoto)
    (a junk : list (list EnhancedPhoto)) (t : LabelFrequencies)
    (similarPhotos : list EnhancedPhoto) (processedIds : gset string) :
  forEach
    (fun processedIds otherPhoto =>
       if String.eqb (id (photo p)) (id (photo otherPhoto))
          || has processedIds (id (photo otherPhoto))
       then mret processedIds
       else if checkPhotoSimilarity calculateDistance p otherPhoto
       then push (length a) otherPhoto;;
            mret (processedIds ∪ {[id (photo otherPhoto)]})
       else mret processedIds)
    others processedIds {| arrays := a ++ similarPhotos :: junk; tables := t |} =
  Returns
    (snd (fold_left (group_member_step calculateDistance p) others
                    (similarPhotos, processedIds)),
     {| arrays :=
          a ++ fst (fold_left (group_member_step calculateDistance p) others
                              (similarPhotos, processedIds)) :: junk;
        tables := t |}).
Proof.
  revert similarPhotos processedIds.
  induction others as [|q others IH]; intros similarPhotos processedIds; [reflexivity|].
  cbn [forEach fold_left]. unfold group_member_step at 2 4.
  destruct (String.eqb (id (photo p)) (id (photo q)) || has processedIds (id (photo q))).
  - erewrite bind_returns by reflexivity. apply IH.
  - destruct (checkPhotoSimilarity calculateDistance p q).
    + erewrite bind_returns; [apply IH|].
      erewrite bind_returns by apply push_new. reflexivity.
    + erewrite bind_returns by reflexivity. apply IH.
Qed.

(** The outer loop of the grouping adds one array for each anchor and
    touches no other array. *)
Lemma group_photos_mem (photos : ref) (xs : list EnhancedPhoto)
    (a : list (list EnhancedPhoto)) (t : LabelFrequencies)
    (groups : list (string * ref)) (processedIds : gset string) :
  (photos < length a)%nat ->
  Forall (fun group => (snd group < length a)%nat) groups ->
  let all := content {| arrays := a; tables := t |} photos in
  let reached :=
    fold_left (group_step calculateDistance all) xs
              (resolve {| arrays := a; tables := t |} groups, processedIds) in
  exists groups' fresh,
    forEach
      (fun '(groups, processedIds) p =>
         if has processedIds (id (photo p)) then mret (groups, processedIds)
         else
           similarPhotos ← new_array [p];
           others ← elements photos;
           processedIds ←
             forEach
               (fun processedIds otherPhoto =>
                  if String.eqb (id (photo p)) (id (photo otherPhoto))
                     || has processedIds (id (photo otherPhoto))
                  then mret processedIds
                  else if checkPhotoSimilarity calculateDistance p otherPhoto
                  then push similarPhotos otherPhoto;;
                       mret (processedIds ∪ {[id (photo otherPhoto)]})
                  else mret processedIds)
               others (processedIds ∪ {[id (photo p)]});
           mret (map_set (id (photo p)) similarPhotos groups, processedIds))
      xs (groups, processedIds) {| arrays := a; tables := t |} =
    Returns ((groups', snd reached), {| arrays := a ++ fresh; tables := t |}) /\
    Forall (fun group => (snd group < length (a ++ fresh))%nat) groups' /\
    resolve {| arrays := a ++ fresh; tables := t |} groups' = fst reached.
Proof.
  revert a groups processedIds.
  induction xs as [|p xs IH]; intros a groups processedIds Hphotos Hgroups all reached.
  - exists groups, []. rewrite app_nil_r. now repeat split.
  - subst reached. cbn [forEach fold_left]. unfold group_step at 2 4.
    cbn [resolve].
    destruct (has processedIds (id (photo p))).
    + erewrite bind_returns by reflexivity. now apply IH.
    + pose (grown := fold_left (group_member_step calculateDistance p) all
                               ([p], processedIds ∪ {[id (photo p)]})).
      fold grown. 
      destruct (IH (a ++ [fst grown]) (map_set (id (photo p)) (length a) groups) (snd grown))
        as (groups' & fresh & Hrun & Hrefs & Hres).
      { rewrite length_app. lia. }
      { apply map_set_Forall; [cbn; rewrite length_app; cbn; lia | now apply refs_older]. }
      rewrite content_old in Hrun, Hres by exact Hphotos.
      rewrite resolve_map_set, content_new, (resolve_old a [fst grown] t groups Hgroups)
        in Hrun, Hres.
      exists groups', (fst grown :: fresh).
      rewrite <- app_assoc in Hrun, Hrefs, Hres. cbn [app] in Hrun, Hrefs, Hres.
      destruct grown as [similarPhotos processedIds'] eqn:Hgrown.
      cbn [fst snd] in *.
      split; [|split; [exact Hrefs | exact Hres]].
      erewrite bind_returns; [exact Hrun|].
      erewrite bind_returns by apply new_array_last.
      erewrite bind_returns.
      2:{ unfold elements. rewrite content_old by exact Hphotos. reflexivity. }
      erewrite bind_returns.
      2:{ fold all. rewrite (group_members_mem p all a [] t [p]). reflexivity. }
      fold grown. rewrite Hgrown. reflexivity.
Qed.

Lemma groupSimilarPhotos_mem_groups (photos : ref) (a : list (list EnhancedPhoto))
    (t : LabelFrequencies) :
  (photos < length a)%nat ->
  exists groups fresh,
    groupSimilarPhotos_mem calculateDistance photos {| arrays := a; tables := t |} =
    Returns (groups, {| arrays := a ++ fresh; tables := t |}) /\
    Forall (fun group => (snd group < length (a ++ fresh))%nat) groups /\
    resolve {| arrays := a ++ fresh; tables := t |} groups =
    groupSimilarPhotos calculateDistance (content {| arrays := a; tables := t |} photos).
Proof.
  intros Hphotos.
  destruct (group_photos_mem photos (content {| arrays := a; tables := t |} photos)
              a t [] ∅ Hphotos (List.Forall_nil _))
    as (groups & fresh & Hrun & Hrefs & Hres).
  exists groups, fresh. rewrite groupSimilarPhotos_steps.
  split; [|split; [exact Hrefs | exact Hres]].
  unfold groupSimilarPhotos_mem.
  erewrite bind_returns by reflexivity.
  erewrite bind_returns by exact Hrun. reflexivity.
Qed.

(** [getEligibleGroupsForBucket] adds one array for each group it looks
    at and touches no other array. *)
Lemma eligible_groups_mem (groups : list (string * ref)) (bucket : TimeBucket)
    (usedGroups : gset string) (minQuality : num)
    (a : list (list EnhancedPhoto)) (t : LabelFrequencies)
    (eligible : list (string * ref)) :
  Forall (fun group => (snd group < length a)%nat) groups ->
  Forall (fun group => (snd group < length a)%nat) eligible ->
  exists eligible' fresh,
    forEach
      (fun eligible '(groupId, photos) =>
         if has usedGroups groupId then mret eligible
         else
           members ← elements photos;
           bucketPhotos ←
             new_array
               (List.filter
                  (fun p =>
                     (getTime (dateTime (photo p)) >=? getTime (bucket_start bucket))
                     && (getTime (dateTime (photo p)) <=? getTime (bucket_end bucket))
                     && (quality_or_0 p >=? minQuality))
                  members);
           kept ← elements bucketPhotos;
           if (0 <? length kept)%nat then mret (map_set groupId bucketPhotos eligible)
           else mret eligible)
      groups eligible {| arrays := a; tables := t |} =
    Returns (eligible', {| arrays := a ++ fresh; tables := t |}) /\
    Forall (fun group => (snd group < length (a ++ fresh))%nat) eligible' /\
    resolve {| arrays := a ++ fresh; tables := t |} eligible' =
    fold_left
      (fun eligible '(groupId, photos) =>
         if has usedGroups groupId then eligible
         else
           let bucketPhotos :=
             List.filter
               (fun p =>
                  (getTime (dateTime (photo p)) >=? getTime (bucket_start bucket))
                  && (getTime (dateTime (photo p)) <=? getTime (bucket_end bucket))
                  && (quality_or_0 p >=? minQuality))
               photos in
           if (0 <? length bucketPhotos)%nat then map_set groupId bucketPhotos eligible
           else eligible)
      (resolve {| arrays := a; tables := t |} groups)
      (resolve {| arrays := a; tables := t |} eligible).
Proof.
  revert a eligible.
  induction groups as [|[groupId photos] groups IH]; intros a eligible Hgroups Heligible.
  - exists eligible, []. rewrite app_nil_r. now repeat split.
  - inversion Hgroups as [|? ? Hphotos Hrest]; subst. cbn [snd] in Hphotos.
    cbn [forEach resolve map fold_left].
    destruct (has usedGroups groupId).
    + erewrite bind_returns by reflexivity. now apply IH.
    + set (bucketPhotos :=
             List.filter
               (fun p =>
                  (getTime (dateTime (photo p)) >=? getTime (bucket_start bucket))
                  && (getTime (dateTime (photo p)) <=? getTime (bucket_end bucket))
                  && (quality_or_0 p >=? minQuality))
               (content {| arrays := a; tables := t |} photos)).
      cbn zeta.
      destruct (IH (a ++ [bucketPhotos])
                   (if (0 <? length bucketPhotos)%nat
                    then map_set groupId (length a) eligible else eligible))
        as (eligible' & fresh & Hrun & Hrefs & Hres).
      { now apply refs_older. }
      { destruct (0 <? length bucketPhotos)%nat; [|now apply refs_older].
        apply map_set_Forall; [cbn; rewrite length_app; cbn; lia | now apply refs_older]. }
      rewrite (resolve_old a [bucketPhotos] t groups Hrest) in Hres.
      assert (Hstate :
                resolve {| arrays := a ++ [bucketPhotos]; tables := t |}
                        (if (0 <? length bucketPhotos)%nat
                         then map_set groupId (length a) eligible else eligible) =
                (if (0 <? length bucketPhotos)%nat
                 then map_set groupId bucketPhotos (resolve {| arrays := a; tables := t |} eligible)
                 else resolve {| arrays := a; tables := t |} eligible)).
      { destruct (0 <? length bucketPhotos)%nat.
        - now rewrite resolve_map_set, content_new, resolve_old.
        - now rewrite resolve_old. }
      rewrite Hstate in Hres.
      exists eligible', (bucketPhotos :: fresh).
      rewrite <- app_assoc in Hrun, Hrefs, Hres. cbn [app] in Hrun, Hrefs, Hres.
      split; [|split; [exact Hrefs | exact Hres]].
      erewrite bind_returns; [exact Hrun|].
      erewrite bind_returns by reflexivity.
      erewrite bind_returns by apply new_array_last.
      erewrite bind_returns.
      2:{ unfold elements. rewrite content_new. reflexivity. }
      fold bucketPhotos. now destruct (0 <? length bucketPhotos)%nat.
Qed.

(** The loop of [selectBestGroupsFromBucket] pushes to the array of its
    selections only. *)
Lemma best_groups_loop_mem (sortedGroups : list (ref * num)) (count : num)
    (alreadySelected : ref) (a junk : list (list EnhancedPhoto)) (t : LabelFrequencies)
    (selections : list EnhancedPhoto) :
  (alreadySelected < length a)%nat ->
  Forall (fun group => (fst group < length a)%nat) sortedGroups ->
  selectBestGroups_loop_mem calculateDistance sortedGroups count alreadySelected (length a)
    {| arrays := a ++ selections :: junk; tables := t |} =
  match selectBestGroups_loop calculateDistance
          (map (fun group => (content {| arrays := a; tables := t |} (fst group), snd group))
               sortedGroups)
          count (content {| arrays := a; tables := t |} alreadySelected) selections with
  | Returns selections' =>
      Returns (tt, {| arrays := a ++ selections' :: junk; tables := t |})
  | Raises => Raises
  | OutOfFuel => OutOfFuel
  end.
Proof.
  intros Halready Hgroups. revert selections.
  induction Hgroups as [|[photos best] sortedGroups Hphotos Hgroups IH]; intros selections;
    [reflexivity|].
  cbn [fst] in Hphotos.
  cbn [selectBestGroups_loop_mem selectBestGroups_loop map fst snd].
  erewrite bind_returns; [|unfold elements; rewrite content_new; reflexivity].
  destruct (of_nat (length selections) >=? count); [reflexivity|].
  erewrite bind_returns;
    [|unfold elements; rewrite content_old by exact Hphotos; reflexivity].
  destruct (reduce1 _ (content {| arrays := a; tables := t |} photos)) as [bestPhoto|];
    [|reflexivity].
  erewrite bind_returns;
    [|unfold elements; rewrite content_old by exact Halready; reflexivity].
  erewrite bind_returns; [|unfold elements; rewrite content_new; reflexivity].
  destruct (isPhotoDiverse calculateDistance bestPhoto _).
  - erewrite bind_returns by apply push_new. apply IH.
  - apply IH.
Qed.

Lemma selectBestGroupsFromBucket_mem_selections (eligibleGroups : list (string * ref))
    (count : num) (alreadySelected : ref) (a : list (list EnhancedPhoto))
    (t : LabelFrequencies) :
  (alreadySelected < length a)%nat ->
  Forall (fun group => (snd group < length a)%nat) eligibleGroups ->
  selectBestGroupsFromBucket_mem calculateDistance eligibleGroups count alreadySelected
    {| arrays := a; tables := t |} =
  match selectBestGroupsFromBucket calculateDistance
          (resolve {| arrays := a; tables := t |} eligibleGroups) count
          (content {| arrays := a; tables := t |} alreadySelected) with
  | Returns selections => Returns (length a, {| arrays := a ++ [selections]; tables := t |})
  | Raises => Raises
  | OutOfFuel => OutOfFuel
  end.
Proof.
  intros Halready Hgroups.
  unfold selectBestGroupsFromBucket_mem, selectBestGroupsFromBucket.
  erewrite bind_returns by apply new_array_last.
  erewrite bind_returns by apply scored_groups_mem.
  cbn [app]. rewrite bind_outcome.
  rewrite (best_groups_loop_mem _ count alreadySelected a [] t [] Halready).
  - rewrite (sort_by_resolved (content {| arrays := a; tables := t |})).
    assert (Hsame :
              map (fun group : ref * num =>
                     (content {| arrays := a; tables := t |} (fst group), snd group))
                  (map (fun photos =>
                          (photos,
                           Math_max_list
                             (map final_or_0
                                  (content {| arrays := a ++ [[]]; tables := t |} photos))))
                       (map snd eligibleGroups)) =
              map (fun photos => (photos, Math_max_list (map final_or_0 photos)))
                  (map snd (resolve {| arrays := a; tables := t |} eligibleGroups))).
    { clear Halready. induction Hgroups as [|[groupId photos] groups Hphotos Hgroups IH];
        [reflexivity|].
      cbn [map resolve fst snd]. cbn [snd] in Hphotos.
      rewrite content_old by exact Hphotos. f_equal. exact IH. }
    rewrite Hsame.
    now destruct (selectBestGroups_loop calculateDistance _ count _ []).
  - apply sort_by_Forall.
    clear Halready. induction Hgroups as [|[groupId photos] groups Hphotos Hgroups IH];
      constructor; [exact Hphotos | exact IH].
Qed.

(** The loop over the time buckets pushes to [selectedPhotos], adds
    arrays, and touches no array that is older than [selectedPhotos]. *)
Lemma buckets_mem (groups : list (string * ref)) (options : HighlightOptions)
    (photosPerBucket : num) (timeBuckets : list TimeBucket)
    (a junk : list (list EnhancedPhoto)) (t : LabelFrequencies)
    (selectedPhotos : list EnhancedPhoto) (usedGroups : gset string) :
  Forall (fun group => (snd group < length a)%nat) groups ->
  let body :=
    fun usedGroups bucket =>
      eligibleGroups ←
        getEligibleGroupsForBucket_mem groups bucket usedGroups (minQuality options);
      bucketSelections ←
        selectBestGroupsFromBucket_mem calculateDistance eligibleGroups photosPerBucket
          (length a);
      chosen ← elements bucketSelections;
      forEach
        (fun usedGroups p =>
           push (length a) p;; mret (usedGroups ∪ {[id (photo p)]}))
        chosen usedGroups in
  let run :=
    forEach body timeBuckets usedGroups
            {| arrays := a ++ selectedPhotos :: junk; tables := t |} in
  match selectBuckets_loop calculateDistance (resolve {| arrays := a; tables := t |} groups)
          options photosPerBucket timeBuckets selectedPhotos usedGroups with
  | Returns (selectedPhotos', usedGroups') =>
      exists junk',
        run = Returns (usedGroups',
                       {| arrays := a ++ selectedPhotos' :: junk'; tables := t |})
  | Raises => run = Raises
  | OutOfFuel => run = OutOfFuel
  end.
Proof.
  intros Hgroups body. revert junk selectedPhotos usedGroups.
  induction timeBuckets as [|bucket timeBuckets IH]; intros junk selectedPhotos usedGroups run.
  - now exists junk.
  - destruct (eligible_groups_mem groups bucket usedGroups (minQuality options)
                (a ++ selectedPhotos :: junk) t [])
      as (eligibleGroups & fresh & Hrun & Hrefs & Hres).
    { now apply refs_older. }
    { constructor. }
    rewrite (resolve_old a (selectedPhotos :: junk) t groups Hgroups) in Hres.
    change (fold_left _ (resolve {| arrays := a; tables := t |} groups) (resolve _ []))
      with (getEligibleGroupsForBucket (resolve {| arrays := a; tables := t |} groups)
              bucket usedGroups (minQuality options)) in Hres.
    rewrite later_arrays in Hrun, Hrefs, Hres.
    assert (Hstep :
              run =
              match selectBestGroupsFromBucket calculateDistance
                      (getEligibleGroupsForBucket
                         (resolve {| arrays := a; tables := t |} groups)
                         bucket usedGroups (minQuality options))
                      photosPerBucket selectedPhotos with
              | Returns bucketSelections =>
                  let state :=
                    fold_left
                      (fun '(selectedPhotos, usedGroups) p =>
                         (selectedPhotos ++ [p], usedGroups ∪ {[id (photo p)]}))
                      bucketSelections (selectedPhotos, usedGroups) in
                  forEach body timeBuckets (snd state)
                          {| arrays := a ++ fst state :: (junk ++ fresh) ++ [bucketSelections];
                             tables := t |}
              | Raises => Raises
              | OutOfFuel => OutOfFuel
              end).
    { unfold run. cbn [forEach]. rewrite bind_outcome. unfold body at 1.
      erewrite (bind_returns
                  (getEligibleGroupsForBucket_mem groups bucket usedGroups
                                                  (minQuality options)))
        by exact Hrun.
      rewrite bind_outcome.
      rewrite selectBestGroupsFromBucket_mem_selections;
        [|rewrite length_app; cbn; lia | exact Hrefs].
      rewrite Hres, content_new.
      destruct (selectBestGroupsFromBucket calculateDistance _ photosPerBucket selectedPhotos)
        as [bucketSelections| |]; [|reflexivity|reflexivity].
      erewrite bind_returns; [|unfold elements; rewrite content_new; reflexivity].
      rewrite later_arrays, push_used_mem. reflexivity. }
    clearbody run. subst run.
    cbn [selectBuckets_loop]. unfold mbind at 1. unfold outcome_bind.
    destruct (selectBestGroupsFromBucket calculateDistance _ photosPerBucket selectedPhotos)
      as [bucketSelections| |]; [|reflexivity|reflexivity].
    cbn zeta.
    destruct (fold_left _ bucketSelections (selectedPhotos, usedGroups))
      as [selectedPhotos' usedGroups'].
    cbn [fst snd]. apply IH.
Qed.

(** [selectDiverseHighlights] adds arrays and touches none that was
    there; the array it returns holds the list of the selection. *)
Lemma selectDiverseHighlights_mem_highlights (fuel : nat) (groups : list (string * ref))
    (options : HighlightOptions) (a : list (list EnhancedPhoto)) (t : LabelFrequencies) :
  Forall (fun group => (snd group < length a)%nat) groups ->
  let run :=
    selectDiverseHighlights_mem calculateDistance fuel groups options
      {| arrays := a; tables := t |} in
  match selectDiverseHighlights calculateDistance fuel
          (resolve {| arrays := a; tables := t |} groups) options with
  | Returns highlights =>
      exists fresh,
        run = Returns (length (a ++ fresh),
                       {| arrays := (a ++ fresh) ++ [highlights]; tables := t |})
  | Raises => run = Raises
  | OutOfFuel => run = OutOfFuel
  end.
Proof.
  intros Hgroups run. subst run.
  unfold selectDiverseHighlights_mem, selectDiverseHighlights.
  rewrite bind_outcome. unfold mbind at 1. unfold outcome_bind.
  destruct (createTimeBuckets fuel (timeRange options)) as [timeBuckets| |];
    [|reflexivity|reflexivity].
  cbn [lift].
  set (photosPerBucket := Math_ceil (limit options / of_nat (length timeBuckets))).
  erewrite bind_returns by apply new_array_last.
  pose proof (buckets_mem groups options photosPerBucket timeBuckets a [] t [] ∅ Hgroups)
    as Hloop.
  cbn zeta in Hloop. rewrite bind_outcome.
  unfold mbind at 1. unfold outcome_bind.
  destruct (selectBuckets_loop calculateDistance _ options photosPerBucket timeBuckets [] ∅)
    as [[selectedPhotos usedGroups]| |]; [|now rewrite Hloop|now rewrite Hloop].
  destruct Hloop as (junk & Hloop). rewrite Hloop.
  erewrite bind_returns; [|unfold elements; rewrite content_new; reflexivity].
  destruct (of_nat (length selectedPhotos) <? limit options).
  - destruct (selectRemainingBestPhotos_mem_selections groups usedGroups
                (limit options - of_nat (length selectedPhotos)) (minQuality options)
                (a ++ selectedPhotos :: junk) t)
      as (fresh & Hrun).
    { now apply refs_older. }
    rewrite (resolve_old a (selectedPhotos :: junk) t groups Hgroups) in Hrun.
    set (remaining := selectRemainingBestPhotos _ usedGroups _ (minQuality options)) in *.
    exists ((selectedPhotos ++ remaining) :: (junk ++ fresh) ++ [remaining]).
    erewrite bind_returns.
    2:{ erewrite bind_returns by exact Hrun.
        erewrite bind_returns; [|unfold elements; rewrite content_new; reflexivity].
        rewrite !later_arrays. apply push_all_mem. }
    erewrite bind_returns; [|unfold elements; rewrite content_new; reflexivity].
    reflexivity.
  - exists (selectedPhotos :: junk).
    erewrite bind_returns by reflexivity.
    erewrite bind_returns; [|unfold elements; rewrite content_new; reflexivity].
    reflexivity.
Qed.

(** [selectHighlights] in memory: the pass adds arrays and touches none
    that was there, the tables stay as they were, and the array it
    returns holds the list that [selectHighlights] gives for the pool
    and the tables of the memory. *)
Lemma selectHighlights_mem_highlights (fuel : nat) (pool : ref) (options : HighlightOptions)
    (memory : Memory) :
  (pool < length (arrays memory))%nat ->
  let run := selectHighlights_mem calculateDistance fuel pool options memory in
  match selectHighlights calculateDistance fuel
          {| photos := content memory pool; labelFrequencies := tables memory |}
          options with
  | Returns highlights =>
      exists fresh,
        run = Returns (length (arrays memory ++ fresh),
                       {| arrays := (arrays memory ++ fresh) ++ [highlights];
                          tables := tables memory |})
  | Raises => run = Raises
  | OutOfFuel => run = OutOfFuel
  end.
Proof.
  destruct memory as [a t]. cbn [arrays tables]. intros Hpool.
  unfold selectHighlights_mem, selectHighlights.
  erewrite bind_returns by reflexivity.
  erewrite bind_returns by reflexivity.
  erewrite bind_returns by apply new_array_last.
  cbn [tables].
  set (scored := scoredPhotos _ options).
  destruct (groupSimilarPhotos_mem_groups (length a) (a ++ [scored]) t)
    as (groups & fresh & Hrun & Hrefs & Hres).
  { rewrite length_app. cbn. lia. }
  rewrite content_new in Hres.
  erewrite bind_returns by exact Hrun.
  pose proof (selectDiverseHighlights_mem_highlights fuel groups options
                ((a ++ [scored]) ++ fresh) t Hrefs) as Hpass.
  cbn zeta in Hpass. rewrite Hres in Hpass.
  destruct (selectDiverseHighlights calculateDistance fuel _ options)
    as [highlights| |]; [|exact Hpass|exact Hpass].
  destruct Hpass as (fresh' & Hpass).
  exists (scored :: fresh ++ fresh').
  rewrite Hpass. rewrite <- !app_assoc. cbn [app]. rewrite <- !app_assoc. reflexivity.
Qed.

End InMemoryFacts.

(** A [push] through a reference is seen by every holder of the
    reference. *)
Lemma push_reaches_array (memory : Memory) (r : ref) (p : EnhancedPhoto) :
  (r < length (arrays memory))%nat ->
  exists memory',
    push r p memory = Returns (tt, memory') /\
    content memory' r = content memory r ++ [p].
Proof.
  intros Hr. eexists. split; [reflexivity|].
  unfold content. cbn [arrays]. now rewrite list_lookup_insert_eq.
Qed.


